(** * A shallow embedding of the line editor [editor.c]

    The development follows the C source function by function.  Files are
    byte sequences, the file system is a finite map from paths to
    contents, and every operation that can leave through [exit] or [die]
    is a computation in a small state-and-exit monad over that map.

    Conventions fixed once and for all:
    - [char] is the signed 8-bit type of the x86-64 ABI the program is
      built for; [getc] yields an [int] in 0..255 or [EOF], and the
      program stores that result in a [char] before testing it;
    - [size_t] is 64 bits wide, and its arithmetic wraps;
    - streams are read through the content the file had when it was
      opened, which is what the C streams deliver as long as the path
      being edited is not the scratch path itself. *)

From Stdlib Require Import ZArith Lia List Bool.
From Stdlib Require Import Init.Byte Strings.Byte Numbers.DecimalString.
From stdpp Require Import base option list gmap strings.

Import ListNotations.
Local Open Scope Z_scope.

(** ** Bytes, [int] and [char] *)

Module CType.

Definition EOF : Z := -1.

(** [getc] delivers a byte as an [unsigned char] converted to [int]. *)
Definition int_of_byte (b : byte) : Z := Z.of_N (Byte.to_N b).

(** Conversion of an [int] to the signed 8-bit [char]. *)
Definition char_of_int (i : Z) : Z := (i + 128) mod 256 - 128.

(** [fputc] converts its [int] argument to [unsigned char]. *)
Definition uchar_of_int (i : Z) : byte :=
  match Byte.of_N (Z.to_N (i mod 256)) with
  | Some b => b
  | None => x00
  end.

(** The value a [char] variable holds after [c = getc(f)] read byte [b]. *)
Definition char_of_byte (b : byte) : Z := char_of_int (int_of_byte b).

Definition size_t_modulus : Z := 2 ^ 64.
Definition size_t (z : Z) : Z := z mod size_t_modulus.

(** [n++] on a [size_t]. *)
Definition incr (n : Z) : Z := size_t (n + 1).

(** Conversion of a [size_t] to the signed [ssize_t]. *)
Definition ssize_t (z : Z) : Z :=
  if z mod size_t_modulus <? 2 ^ 63 then z mod size_t_modulus
  else z mod size_t_modulus - size_t_modulus.

(** Character constants, as [char] values. *)
Definition NL : Z := 10.       (* newline *)
Definition NUL : Z := 0.       (* the terminating zero *)

Definition nl : byte := x0a.
Definition dquote : byte := x22.

(** A [char *] argument denotes the bytes before its first NUL. *)
Fixpoint c_str (l : list byte) : list byte :=
  match l with
  | [] => []
  | b :: l' => if Byte.eqb b x00 then [] else b :: c_str l'
  end.

Definition bytes (s : string) : list byte := String.list_byte_of_string s.

(** [%lu] of a [size_t] value. *)
Definition fmt_lu (z : Z) : list byte :=
  bytes (NilZero.string_of_uint (N.to_uint (Z.to_N (size_t z)))).

(** [%0wd] of an [int]: sign first, then zeros up to the width. *)
Definition fmt_0d (w : nat) (z : Z) : list byte :=
  let digits := bytes (NilZero.string_of_uint (N.to_uint (Z.to_N (Z.abs z)))) in
  if z <? 0
  then bytes "-" ++ repeat x30 (Nat.pred w - length digits) ++ digits
  else repeat x30 (w - length digits) ++ digits.

(** [snprintf(buf, n, ...)] keeps at most [n - 1] bytes of the output. *)
Definition snprintf (n : nat) (formatted : list byte) : list byte :=
  take (Nat.pred n) formatted.

End CType.
Import CType.

(** ** Constants of the program *)

Definition LOGLEN : Z := 2560.
Definition MAX : Z := 1024.
Definition MAXF : Z := 256.
Definition CLOG_BUFFER : Z := 200.

Definition LOGF : string := "editorback.log".
Definition TEMPF : string := "tempeditor.tmp".

(** ** Scanning a stream character by character *)

(** One pass of the body of the [do ... while (c != EOF)] loop of
    [count_lines], on the character just read. *)
Definition count_lines_body (c : Z) (st : Z * bool) : Z * bool :=
  let '(lines, first) := st in
  let '(lines, first) :=
    if first && negb (c =? EOF) then (incr lines, false) else (lines, first) in
  let lines := if c =? NL then incr lines else lines in
  (lines, first).

Fixpoint count_lines_loop (s : list byte) (st : Z * bool) : Z * bool :=
  match s with
  | [] => count_lines_body (char_of_int EOF) st
  | b :: s' =>
      let c := char_of_byte b in
      let st' := count_lines_body c st in
      if c =? EOF then st' else count_lines_loop s' st'
  end.

Definition count_lines (s : list byte) : Z :=
  fst (count_lines_loop s (0, true)).

(** What [verify_lines] reports: the line count, or one of the two
    diagnostics it prints before returning -1. *)
Inductive verify_result :=
| Verified (lines : Z)
| LineTooLong (at_line : Z) (max_val : Z)
| NulByteFound.

Record verify_state := VState { v_lines : Z; v_linelen : Z; v_first : bool }.

Definition verify_lines_body (max_val : Z) (c : Z) (st : verify_state)
  : verify_state + verify_result :=
  let '(VState lines linelen first) := st in
  let '(lines, linelen, first) :=
    if negb (c =? EOF)
    then (if first then incr lines else lines, incr linelen, false)
    else (lines, linelen, first) in
  if (c =? NL) && (linelen >? size_t max_val) then inr (LineTooLong lines max_val)
  else
    let '(lines, linelen) := if c =? NL then (incr lines, 0) else (lines, linelen) in
    if c =? NUL then inr NulByteFound
    else inl (VState lines linelen first).

Fixpoint verify_lines_loop (max_val : Z) (s : list byte) (st : verify_state)
  : verify_result :=
  match s with
  | [] =>
      match verify_lines_body max_val (char_of_int EOF) st with
      | inl st' => Verified (v_lines st')
      | inr r => r
      end
  | b :: s' =>
      let c := char_of_byte b in
      match verify_lines_body max_val c st with
      | inl st' => if c =? EOF then Verified (v_lines st') else verify_lines_loop max_val s' st'
      | inr r => r
      end
  end.

Definition verify_lines (s : list byte) (max_val : Z) : verify_result :=
  verify_lines_loop max_val s (VState 0 0 true).

(** The [ssize_t] the C function returns. *)
Definition verify_lines_ret (r : verify_result) : Z :=
  match r with
  | Verified lines => ssize_t lines
  | _ => -1
  end.

(** ** Reading a stream line by line *)

(** [fgets(buf, n, f)] stores at most [n - 1] bytes, stopping after a
    newline.  [fgets_read room s] is what it stores and what remains. *)
Fixpoint fgets_read (room : nat) (s : list byte) : list byte * list byte :=
  match room, s with
  | O, _ => ([], s)
  | S _, [] => ([], [])
  | S room', b :: s' =>
      if Byte.eqb b nl then ([b], s')
      else let '(l, rest) := fgets_read room' s' in (b :: l, rest)
  end.

(** [None] is the null pointer [fgets] returns at end of file. *)
Definition fgets (n : Z) (s : list byte) : option (list byte * list byte) :=
  match s with
  | [] => None
  | _ :: _ => Some (fgets_read (Z.to_nat (n - 1)) s)
  end.

(** [while (fgets(line, n, f) != NULL) body], threading the variables the
    body updates.  The body sees [line] as a C string. *)
Fixpoint while_fgets {A : Type} (fuel : nat) (n : Z) (body : A → list byte → A)
    (s : list byte) (a : A) : option A :=
  match fuel with
  | O => None
  | S fuel' =>
      match fgets n s with
      | None => Some a
      | Some (line, s') => while_fgets fuel' n body s' (body a (c_str line))
      end
  end.

(** ** String functions of the C library, on C strings *)

Fixpoint is_prefix (needle hay : list byte) : bool :=
  match needle, hay with
  | [], _ => true
  | _ :: _, [] => false
  | a :: needle', b :: hay' => Byte.eqb a b && is_prefix needle' hay'
  end.

(** [strstr(hay, needle) - hay], when [strstr] does not return null. *)
Fixpoint strstr (hay needle : list byte) : option nat :=
  if is_prefix needle hay then Some O
  else match hay with
       | [] => None
       | _ :: hay' => S <$> strstr hay' needle
       end.

(** [strchr(hay, c) - hay], when [strchr] does not return null. *)
Fixpoint strchr (hay : list byte) (c : byte) : option nat :=
  match hay with
  | [] => None
  | b :: hay' => if Byte.eqb b c then Some O else S <$> strchr hay' c
  end.

(** ** The file system and the exit monad *)

Abbreviation fs := (gmap string (list byte)).

(** The ways the program leaves before an operation is complete. *)
Inductive error :=
| Die (what : string)      (* [die(what)]: a failed system call *)
| LineOutOfRange           (* Invalid Input: Line number out of range for file. *)
| LogTampered              (* Warning: Log file has been edited by another program. *)
| LogMissing               (* Log file does not exist. *)
| OutOfFuel.               (* a loop of the model ran out of fuel *)

Inductive outcome (A : Type) :=
| Returned (a : A) (σ : fs)
| Exited (e : error) (σ : fs).
Arguments Returned {A} a σ.
Arguments Exited {A} e σ.

Definition M (A : Type) : Type := fs → outcome A.

#[global] Instance M_ret : MRet M := λ A a σ, Returned a σ.
#[global] Instance M_bind : MBind M := λ A B f m σ,
  match m σ with
  | Returned a σ' => f a σ'
  | Exited e σ' => Exited e σ'
  end.

Definition exit_with {A : Type} (e : error) : M A := λ σ, Exited e σ.

Module Sys.

(** [access(path, F_OK) == 0] *)
Definition access (path : string) : M bool :=
  λ σ, Returned (bool_decide (is_Some (σ !! path))) σ.

(** [fopen(path, "r")], then the whole stream. *)
Definition fopen_r (what path : string) : M (list byte) :=
  λ σ, match σ !! path with
       | Some f => Returned f σ
       | None => Exited (Die what) σ
       end.

(** [fopen(path, "w")] creates the file or cuts it to length zero. *)
Definition fopen_w (path : string) : M unit :=
  λ σ, Returned () (<[path := []]> σ).

(** [fopen(path, "a")] creates the file when it is absent. *)
Definition fopen_a (path : string) : M unit :=
  λ σ, match σ !! path with
       | Some _ => Returned () σ
       | None => Returned () (<[path := []]> σ)
       end.

(** [fclose] of a stream opened for writing flushes what was written
    after what the file held. *)
Definition fclose_w (path : string) (written : list byte) : M unit :=
  λ σ, Returned () (<[path := default [] (σ !! path) ++ written]> σ).

(** [stat(path, &sb)], then [sb.st_size]. *)
Definition st_size (path : string) : M Z :=
  λ σ, match σ !! path with
       | Some f => Returned (Z.of_nat (length f)) σ
       | None => Exited (Die "stat") σ
       end.

Definition remove (path : string) : M unit :=
  λ σ, match σ !! path with
       | Some _ => Returned () (delete path σ)
       | None => Exited (Die "remove") σ
       end.

Definition rename (old new : string) : M unit :=
  λ σ, match σ !! old with
       | Some f => Returned () (<[new := f]> (delete old σ))
       | None => Exited (Die "rename") σ
       end.

End Sys.

Definition is_empty (path : string) : M bool :=
  size ← Sys.st_size path;
  mret (size <=? 1).

(** [printf]'s [%s]. *)
Definition fmt_s (l : list byte) : list byte := c_str l.

(** The fields of [struct tm] that [change_log] prints. *)
Record tm := Tm {
  tm_year : Z; tm_mon : Z; tm_mday : Z;
  tm_hour : Z; tm_min : Z; tm_sec : Z
}.

(** ** The change log *)

Definition truncate_log_body (st : Z * list byte) (line : list byte) : Z * list byte :=
  let '(logs, temp) := st in
  if logs >? CLOG_BUFFER - 10 then (logs - 1, temp)
  else (logs, temp ++ line).

Definition truncate_log : M unit :=
  fptr ← Sys.fopen_r "fopen log" LOGF;
  let logs := verify_lines_ret (verify_lines fptr (LOGLEN - 2)) in
  if logs =? -1 then exit_with LogTampered
  else if logs >? CLOG_BUFFER then
    Sys.fopen_w TEMPF;;
    match while_fgets (S (length fptr)) (LOGLEN - 1) truncate_log_body fptr (logs, []) with
    | Some (_, temp) =>
        Sys.fclose_w TEMPF temp;;
        Sys.remove LOGF;;
        Sys.rename TEMPF LOGF
    | None => exit_with OutOfFuel
    end
  else mret ().

Definition log_entry (timeinfo : tm) (logstr : list byte) : list byte :=
  bytes "[" ++ fmt_0d 4 (tm_year timeinfo + 1900) ++ bytes "-"
    ++ fmt_0d 2 (tm_mon timeinfo + 1) ++ bytes "-" ++ fmt_0d 2 (tm_mday timeinfo)
    ++ bytes " " ++ fmt_0d 2 (tm_hour timeinfo) ++ bytes ":"
    ++ fmt_0d 2 (tm_min timeinfo) ++ bytes ":" ++ fmt_0d 2 (tm_sec timeinfo)
    ++ bytes "] " ++ fmt_s logstr ++ [nl].

Definition change_log (timeinfo : tm) (logstr : list byte) : M unit :=
  Sys.fopen_a LOGF;;
  Sys.fclose_w LOGF (log_entry timeinfo logstr);;
  truncate_log.

Definition display_log_body (fpath : option string) (key : list byte)
    (printed : list (list byte)) (line : list byte) : list (list byte) :=
  match fpath with
  | None => printed ++ [line]
  | Some _ =>
      match strstr line key with
      | Some index =>
          match strchr line dquote with
          | Some found => if (index <? found)%nat then printed ++ [line] else printed
          | None => printed ++ [line]
          end
      | None => printed
      end
  end.

Definition display_log_key (fpath : string) : list byte :=
  snprintf (Z.to_nat MAX) (bytes "File '" ++ fmt_s (bytes fpath) ++ bytes "'").

(** The value returned is what [display_log] prints, one element for
    each [printf]. *)
Definition display_log (fpath : option string) : M (list (list byte)) :=
  present ← Sys.access LOGF;
  if negb present then exit_with LogMissing
  else
    fptr ← Sys.fopen_r "fopen log" LOGF;
    if verify_lines_ret (verify_lines fptr (LOGLEN - 2)) =? -1 then exit_with LogTampered
    else
      let key := from_option display_log_key [] fpath in
      match while_fgets (S (length fptr)) (LOGLEN - 1) (display_log_body fpath key) fptr [] with
      | Some printed => mret printed
      | None => exit_with OutOfFuel
      end.

(** ** Line operations *)

Section LineOperations.

(** The local time [change_log] reads when the operation is logged. *)
Variable now : tm.

Definition append_line (fpath : string) (line : list byte) : M unit :=
  Sys.fopen_a fpath;;
  empty ← is_empty fpath;
  Sys.fclose_w fpath (if empty : bool then fmt_s line else [nl] ++ fmt_s line);;
  fptr ← Sys.fopen_r "fopen" fpath;
  let lines := count_lines fptr in
  change_log now
    (snprintf (Z.to_nat LOGLEN)
       (bytes "File '" ++ fmt_s (bytes fpath) ++ bytes "': Line " ++ [dquote]
          ++ fmt_s line ++ [dquote] ++ bytes " appended | Lines After = "
          ++ fmt_lu lines)).

(** *** [del_line] *)

Definition del_line_body (lineno : Z) (c : Z) (st : Z * list byte) : Z * list byte :=
  let '(count, temp) := st in
  let count := if c =? NL then incr count else count in
  if negb (count =? lineno) && negb (c =? EOF) then
    if negb (count =? size_t (lineno + 1)) || negb (c =? NL)
    then (count, temp ++ [uchar_of_int c])
    else (count, temp)
  else (count, temp).

Fixpoint del_line_loop (lineno : Z) (s : list byte) (st : Z * list byte)
  : Z * list byte :=
  match s with
  | [] => del_line_body lineno (char_of_int EOF) st
  | b :: s' =>
      let c := char_of_byte b in
      let st' := del_line_body lineno c st in
      if c =? EOF then st' else del_line_loop lineno s' st'
  end.

(** What the loop of [del_line] writes to the scratch file. *)
Definition del_line_temp (fptr : list byte) (lineno : Z) : list byte :=
  snd (del_line_loop lineno fptr (1, [])).

Definition del_line (fpath : string) (lineno : Z) : M unit :=
  fptr ← Sys.fopen_r "fopen" fpath;
  let lines := count_lines fptr in
  if lineno >? lines then exit_with LineOutOfRange
  else
    Sys.fopen_w TEMPF;;
    Sys.fclose_w TEMPF (del_line_temp fptr lineno);;
    Sys.remove fpath;;
    Sys.rename TEMPF fpath;;
    change_log now
      (snprintf (Z.to_nat LOGLEN)
         (bytes "File '" ++ fmt_s (bytes fpath) ++ bytes "': Line "
            ++ fmt_lu lineno ++ bytes " deleted | Lines After = "
            ++ fmt_lu (lines - 1))).

(** *** [ins_line] *)

Record copy_state := CState {
  cs_count : Z;            (* [count] *)
  cs_c : Z;                (* [c] *)
  cs_fptr : list byte;     (* what is left to read of the original *)
  cs_temp : list byte      (* what was written to the scratch file *)
}.

Definition getc (s : list byte) : Z * list byte :=
  match s with
  | [] => (EOF, [])
  | b :: s' => (int_of_byte b, s')
  end.

Definition ins_line_body (line : list byte) (lineno : Z) (st : copy_state) : copy_state :=
  let st :=
    if negb (cs_count st =? lineno) then
      let '(i, fptr) := getc (cs_fptr st) in
      let c := char_of_int i in
      let temp := if negb (c =? EOF) then cs_temp st ++ [uchar_of_int c] else cs_temp st in
      let count := if c =? NL then incr (cs_count st) else cs_count st in
      CState count c fptr temp
    else st in
  if cs_count st =? lineno
  then CState (incr (cs_count st)) (cs_c st) (cs_fptr st)
              (cs_temp st ++ fmt_s line ++ [nl])
  else st.

Fixpoint ins_line_loop (fuel : nat) (line : list byte) (lineno : Z) (st : copy_state)
  : option copy_state :=
  match fuel with
  | O => None
  | S fuel' =>
      let st' := ins_line_body line lineno st in
      if negb (cs_c st' =? EOF) then ins_line_loop fuel' line lineno st'
      else Some st'
  end.

(** [c] is declared without an initial value and is tested before it is
    assigned when [lineno] is 1; [c_indet] is the value it happens to
    hold. *)
Definition ins_line_temp (c_indet : Z) (fptr line : list byte) (lineno : Z)
  : option (list byte) :=
  cs_temp <$> ins_line_loop (S (S (length fptr))) line lineno (CState 1 c_indet fptr []).

Definition ins_line (c_indet : Z) (fpath : string) (line : list byte) (lineno : Z) : M unit :=
  fptr ← Sys.fopen_r "fopen" fpath;
  let lines := count_lines fptr in
  if lineno >? lines then exit_with LineOutOfRange
  else
    Sys.fopen_w TEMPF;;
    match ins_line_temp c_indet fptr line lineno with
    | None => exit_with OutOfFuel
    | Some temp =>
        Sys.fclose_w TEMPF temp;;
        Sys.remove fpath;;
        Sys.rename TEMPF fpath;;
        change_log now
          (snprintf (Z.to_nat LOGLEN)
             (bytes "File '" ++ fmt_s (bytes fpath) ++ bytes "': Line " ++ [dquote]
                ++ fmt_s line ++ [dquote] ++ bytes " inserted at Line "
                ++ fmt_lu lineno ++ bytes " | Lines After = " ++ fmt_lu (lines + 1)))
    end.

(** *** [rep_line] *)

(** [do c = getc(fptr); while (c != NL && c != EOF)]: the last character
    read and what is left of the stream. *)
Fixpoint skip_line (s : list byte) : Z * list byte :=
  match s with
  | [] => (char_of_int EOF, [])
  | b :: s' =>
      let c := char_of_byte b in
      if negb (c =? NL) && negb (c =? EOF) then skip_line s' else (c, s')
  end.

Definition rep_line_body (line : list byte) (lineno : Z) (st : copy_state) : copy_state :=
  let st :=
    if negb (cs_count st =? lineno) then
      let '(i, fptr) := getc (cs_fptr st) in
      let c := char_of_int i in
      let temp := cs_temp st ++ [uchar_of_int c] in
      let count := if c =? NL then incr (cs_count st) else cs_count st in
      CState count c fptr temp
    else st in
  if cs_count st =? lineno then
    let '(c, fptr) := skip_line (cs_fptr st) in
    let temp := cs_temp st ++ fmt_s line in
    let temp := if c =? NL then temp ++ [uchar_of_int c] else temp in
    CState (incr (cs_count st)) c fptr temp
  else st.

Fixpoint rep_line_loop (fuel : nat) (line : list byte) (lineno : Z) (st : copy_state)
  : option copy_state :=
  match fuel with
  | O => None
  | S fuel' =>
      let st' := rep_line_body line lineno st in
      if negb (cs_c st' =? EOF) then rep_line_loop fuel' line lineno st'
      else Some st'
  end.

(** [c] is assigned in the first pass of the loop whatever [lineno] is,
    so its initial value plays no part; the model starts it at 0. *)
Definition rep_line_temp (fptr line : list byte) (lineno : Z) : option (list byte) :=
  cs_temp <$> rep_line_loop (S (length fptr)) line lineno (CState 1 0 fptr []).

Definition rep_line (fpath : string) (line : list byte) (lineno : Z) : M unit :=
  fptr ← Sys.fopen_r "fopen" fpath;
  let lines := count_lines fptr in
  if lineno >? lines then exit_with LineOutOfRange
  else
    Sys.fopen_w TEMPF;;
    match rep_line_temp fptr line lineno with
    | None => exit_with OutOfFuel
    | Some temp =>
        Sys.fclose_w TEMPF temp;;
        Sys.remove fpath;;
        Sys.rename TEMPF fpath;;
        change_log now
          (snprintf (Z.to_nat LOGLEN)
             (bytes "File '" ++ fmt_s (bytes fpath) ++ bytes "': Line "
                ++ fmt_lu lineno ++ bytes " was replaced by " ++ [dquote]
                ++ fmt_s line ++ [dquote] ++ bytes " | Lines After = " ++ fmt_lu lines))
    end.

End LineOperations.

(** ** The other operations *)

(** The operations of this part follow the same conventions.  In
    addition, an operation that prints returns what it prints, the
    standard input is a sequence of bytes the operation consumes, and the
    regular expressions of the C library, which are outside the program,
    enter as a parameter.  These operations leave in ways the line
    operations do not. *)
Inductive stop :=
| Stop (e : error)               (* one of the exits above *)
| Unverified (r : verify_result) (* [verify_lines] returned -1 *)
| ReplaceError                   (* Error replacing string. *)
| UndefinedBehaviour             (* the C standard gives the step no meaning *)
| OverwriteAborted               (* Overwrite aborted. *)
| NotRegular                     (* File path refers to non-regular file ... *)
| InvalidFilename                (* Invalid filename *)
| InputEnded.                    (* EOF Character entered. Program quitting. *)

Inductive ended (A : Type) :=
| Finished (a : A) (σ : fs)
| Stopped (s : stop) (σ : fs).
Arguments Finished {A} a σ.
Arguments Stopped {A} s σ.

Definition Op (A : Type) : Type := fs → ended A.

#[global] Instance Op_ret : MRet Op := λ A a σ, Finished a σ.
#[global] Instance Op_bind : MBind Op := λ A B f m σ,
  match m σ with
  | Finished a σ' => f a σ'
  | Stopped s σ' => Stopped s σ'
  end.

Definition stop_with {A : Type} (s : stop) : Op A := λ σ, Stopped s σ.

(** An operation of the first part, run inside one of this part. *)
Definition lift {A : Type} (m : M A) : Op A :=
  λ σ, match m σ with
       | Returned a σ' => Finished a σ'
       | Exited e σ' => Stopped (Stop e) σ'
       end.

Definition cr : byte := x0d.

(** ** Searching and replacing *)

(** [int digits = 1; while (lines > 9) { lines /= 10; digits++; }]; a
    64-bit value has at most 20 digits. *)
Fixpoint digits_loop (fuel : nat) (lines digits : Z) : Z :=
  match fuel with
  | O => digits
  | S fuel' => if lines >? 9 then digits_loop fuel' (lines / 10) (digits + 1) else digits
  end.

Definition digits_of (lines : Z) : Z := digits_loop 20 lines 1.

(** [while (linelen > 0 && (line[linelen - 1] == NL || line[linelen - 1]
    == CR)) linelen--;] *)
Fixpoint strip_eol_len (line : list byte) (linelen : nat) : nat :=
  match linelen with
  | O => O
  | S k =>
      match line !! k with
      | Some b => if Byte.eqb b nl || Byte.eqb b cr then strip_eol_len line k else linelen
      | None => linelen
      end
  end.

(** The line after [if (linelen != MAX) line[linelen] = 0]. *)
Definition strip_eol (line : list byte) : list byte :=
  let linelen := strip_eol_len line (length line) in
  if Z.of_nat linelen =? MAX then line else take linelen line.

(** [while ((buffer = strstr(buffer, key)) != NULL) { buffer +=
    strlen(key); subcount++; }].  Nothing bounds the number of passes
    when [key] is empty, so the loop takes fuel. *)
Fixpoint count_key (fuel : nat) (buffer key : list byte) (subcount : Z) : option Z :=
  match fuel with
  | O => None
  | S fuel' =>
      match strstr buffer key with
      | None => Some subcount
      | Some i => count_key fuel' (drop (i + length key) buffer) key (subcount + 1)
      end
  end.

(** *** [string_sub] *)

Inductive sub_result :=
| Substituted (result : list byte)
| NullPointer          (* the function returns NULL *)
| Undefined.           (* a null [pos], or a write past the allocation *)

(** The loop [while (occur--)] and the [strcpy] after it: [tmp] is what
    was written to [result] so far. *)
Fixpoint string_sub_loop (occur : nat) (line key sub tmp : list byte)
  : option (list byte) :=
  match occur with
  | O => Some (tmp ++ line)
  | S occur' =>
      match strstr line key with
      | None => None
      | Some offset =>
          string_sub_loop occur' (drop (offset + length key) line) key sub
            (tmp ++ take offset line ++ sub)
      end
  end.

(** The argument of [malloc]. *)
Definition string_sub_size (line key sub : list byte) (occur : Z) : Z :=
  size_t (Z.of_nat (length line)
          + (Z.of_nat (length sub) - Z.of_nat (length key)) * occur + 1).

(** [malloc] is taken to succeed.  The bytes written are those of the
    result and its terminating NUL; the writes of the loop stay within
    them. *)
Definition string_sub (line key sub : list byte) (occur : Z) : sub_result :=
  if Z.of_nat (length key) =? 0 then NullPointer
  else if occur <? 0 then Undefined
  else
    match string_sub_loop (Z.to_nat occur) line key sub [] with
    | None => Undefined
    | Some result =>
        if Z.of_nat (length result) + 1 <=? string_sub_size line key sub occur
        then Substituted result
        else Undefined
    end.

(** *** [replace] *)

Record replace_state := RState {
  r_temp : list byte;        (* what was written to the scratch file *)
  r_stop : option stop       (* set once the loop is left early *)
}.

(** One pass of the [while (fgets(...))] loop of [replace].  What the
    pass prints is left out. *)
Definition replace_body (key sub : list byte) (st : replace_state) (line : list byte)
  : replace_state :=
  match r_stop st with
  | Some _ => st
  | None =>
      match strstr line key with
      | Some i =>
          match count_key (S (length line)) (drop (i + length key) line) key 1 with
          | None => RState (r_temp st) (Some (Stop OutOfFuel))
          | Some subcount =>
              match string_sub (strip_eol line) key sub subcount with
              | Substituted result => RState (r_temp st ++ fmt_s result ++ [nl]) None
              | NullPointer => RState (r_temp st) (Some ReplaceError)
              | Undefined => RState (r_temp st) (Some UndefinedBehaviour)
              end
          end
      | None => RState (r_temp st ++ line) None
      end
  end.

(** What the loop of [replace] writes to the scratch file. *)
Definition replace_temp (fptr key sub : list byte) : option replace_state :=
  while_fgets (S (length fptr)) (MAX - 1) (replace_body key sub) fptr (RState [] None).

Definition replace (now : tm) (fpath : string) (key sub : list byte) : Op unit :=
  let key := c_str key in
  let sub := c_str sub in
  fptr ← lift (Sys.fopen_r "fopen" fpath);
  let r := verify_lines fptr (MAX - 2) in
  let lines := verify_lines_ret r in
  if lines =? -1 then stop_with (Unverified r)
  else
    let total := size_t lines in
    lift (Sys.fopen_w TEMPF);;
    match replace_temp fptr key sub with
    | None => stop_with (Stop OutOfFuel)
    | Some (RState temp (Some (Stop OutOfFuel))) => stop_with (Stop OutOfFuel)
    | Some (RState temp (Some UndefinedBehaviour)) => stop_with UndefinedBehaviour
    | Some (RState temp (Some s)) =>
        lift (Sys.fclose_w TEMPF temp);;
        stop_with s
    | Some (RState temp None) =>
        lift (Sys.fclose_w TEMPF temp;;
              Sys.remove fpath;;
              Sys.rename TEMPF fpath;;
              change_log now
                (snprintf (Z.to_nat LOGLEN)
                   (bytes "File '" ++ fmt_s (bytes fpath) ++ bytes "': Instances of "
                      ++ [dquote] ++ key ++ [dquote] ++ bytes " replaced by " ++ [dquote]
                      ++ sub ++ [dquote] ++ bytes " | Lines After = " ++ fmt_lu total)))
    end.

(** *** [search] *)

(** What one [printf] of the loop of [search] shows: the number of
    instances in the line, then the line number padded with zeros to
    [digits] places, a bar and the line. *)
Record report := Report {
  rp_subcount : Z;
  rp_digits : Z;
  rp_lines : Z;
  rp_line : list byte
}.

(** The largest value of an [int]. *)
Definition INT_MAX : Z := 2 ^ 31 - 1.

Record search_state := SState {
  s_lines : Z;               (* [lines] *)
  s_count : Z;               (* [count] *)
  s_printed : list report;   (* what was printed so far *)
  s_stop : option stop       (* set once the loop is left early *)
}.

(** One pass of the [while (fgets(...))] loop of [search].  [count] is
    an [int]: where [count += subcount] would pass [INT_MAX] the
    addition overflows, which the C standard gives no meaning.
    [subcount], an [int] as well, stays below [MAX] for a key that is
    not empty, a line having at most [MAX - 2] bytes; with an empty key
    the counting loop has no last pass. *)
Definition search_body (key : list byte) (digits : Z) (st : search_state)
    (line : list byte) : search_state :=
  match s_stop st with
  | Some _ => st
  | None =>
      let lines := s_lines st + 1 in
      let line := strip_eol line in
      match count_key (S (length line)) line key 0 with
      | None => SState lines (s_count st) (s_printed st) (Some (Stop OutOfFuel))
      | Some subcount =>
          if INT_MAX <? s_count st + subcount
          then SState lines (s_count st) (s_printed st) (Some UndefinedBehaviour)
          else
            let count := s_count st + subcount in
            if negb (subcount =? 0)
            then SState lines count (s_printed st ++ [Report subcount digits lines line]) None
            else SState lines count (s_printed st) None
      end
  end.

(** [search] returns what it prints: the reports of the loop, and the
    total of the last [printf]. *)
Definition search (fpath : string) (key : list byte) : Op (list report * Z) :=
  let key := c_str key in
  fptr ← lift (Sys.fopen_r "fopen" fpath);
  let r := verify_lines fptr (MAX - 2) in
  let lines := verify_lines_ret r in
  if lines =? -1 then stop_with (Unverified r)
  else
    let digits := digits_of lines in
    match while_fgets (S (length fptr)) (MAX - 1) (search_body key digits) fptr
            (SState 0 0 [] None) with
    | None => stop_with (Stop OutOfFuel)
    | Some st =>
        match s_stop st with
        | Some s => stop_with s
        | None => mret (s_printed st, s_count st)
        end
    end.

(** ** Showing a file *)

(** [%0*lu] of a [size_t] value: zeros up to the width. *)
Definition fmt_0lu (w : Z) (z : Z) : list byte :=
  let digits := fmt_lu z in
  repeat x30 (Z.to_nat w - length digits) ++ digits.

(** The [do ... while (c != EOF)] loop of [show_file]: what it prints,
    given the line number reached. *)
Fixpoint show_file_loop (digits : Z) (s : list byte) (lines : Z) : list byte :=
  match s with
  | [] => []
  | b :: s' =>
      let c := char_of_byte b in
      if c =? EOF then []
      else
        [uchar_of_int c]
          ++ (if c =? NL
              then fmt_0lu digits (incr lines) ++ bytes " |"
                     ++ show_file_loop digits s' (incr lines)
              else show_file_loop digits s' lines)
  end.

(** [show_file] returns what it prints. *)
Definition show_file (fpath : string) : M (list byte) :=
  fptr ← Sys.fopen_r "fopen" fpath;
  let digits := digits_of (count_lines fptr) in
  mret (fmt_0lu digits 1 ++ bytes " |" ++ show_file_loop digits fptr 1 ++ [nl]).

(** The loop [while (lines != lineno)] of [show_line]: what is left of
    the stream when it ends.  At the end of the file [fgetc] goes on
    returning [EOF], so nothing bounds the number of passes. *)
Fixpoint show_line_seek (fuel : nat) (lineno : Z) (s : list byte) (lines : Z)
  : option (list byte) :=
  match fuel with
  | O => None
  | S fuel' =>
      if negb (lines =? lineno) then
        let '(i, s') := getc s in
        let c := char_of_int i in
        show_line_seek fuel' lineno s' (if c =? NL then incr lines else lines)
      else Some s
  end.

(** The loop that prints the line. *)
Fixpoint show_line_print (s : list byte) : list byte :=
  match s with
  | [] => []
  | b :: s' =>
      let c := char_of_byte b in
      (if negb (c =? NL) && negb (c =? char_of_byte cr) && negb (c =? EOF)
       then [uchar_of_int c] else [])
        ++ (if negb (c =? NL) && negb (c =? EOF) then show_line_print s' else [])
  end.

(** [show_line] returns what it prints; [fuel] bounds the passes of its
    first loop. *)
Definition show_line (fuel : nat) (fpath : string) (lineno : Z) : M (list byte) :=
  fptr ← Sys.fopen_r "fopen" fpath;
  if lineno >? count_lines fptr then exit_with LineOutOfRange
  else
    match show_line_seek fuel lineno fptr 1 with
    | None => exit_with OutOfFuel
    | Some s => mret (show_line_print s ++ [nl])
    end.

(** ** Deleting a file *)

Definition del_file (now : tm) (fpath : string) : M unit :=
  Sys.remove fpath;;
  change_log now
    (snprintf (Z.to_nat LOGLEN)
       (bytes "File '" ++ fmt_s (bytes fpath) ++ bytes "' deleted  | Lines After = n/a")).

(** ** Creating and copying files *)

(** [empty_buffer]: what is left of the input. *)
Fixpoint empty_buffer (input : list byte) : list byte :=
  match input with
  | [] => []
  | b :: input' =>
      let c := char_of_byte b in
      if negb (c =? NL) && negb (c =? EOF) then empty_buffer input' else input'
  end.

Inductive answer :=
| Yes            (* [confirm] returns 1 *)
| No             (* [confirm] returns 0 *)
| EndOfInput.    (* [fgets] returns null, and [confirm] exits *)

(** [confirm] on the standard input [input]: its answer and what it
    leaves of the input. *)
Fixpoint confirm (fuel : nat) (input : list byte) : option (answer * list byte) :=
  match fuel with
  | O => None
  | S fuel' =>
      match fgets 4 input with
      | None => Some (EndOfInput, input)
      | Some (buf, input') =>
          let buf := c_str buf in
          if negb (length buf =? 2)%nat then
            if (2 <? length buf)%nat && negb (Byte.eqb (nth 2 buf x00) nl)
            then confirm fuel' (empty_buffer input')
            else confirm fuel' input'
          else
            match buf with
            | c :: _ =>
                if Byte.eqb c "y" || Byte.eqb c "n"
                then Some (if Byte.eqb c "y" then Yes else No, input')
                else confirm fuel' input'
            | [] => confirm fuel' input'
            end
      end
  end.

(** [is_file]: the file system of the model holds regular files only. *)
Definition is_file (path : string) : Op bool :=
  lift (λ σ, match σ !! path with
             | Some _ => Returned true σ
             | None => Exited (Die "stat") σ
             end).

(** [char c = getc(fptr1); while (c != EOF) { fputc(c, fptr2); c =
    getc(fptr1); }] *)
Fixpoint copy_loop (s : list byte) : list byte :=
  match s with
  | [] => []
  | b :: s' =>
      let c := char_of_byte b in
      if negb (c =? EOF) then uchar_of_int c :: copy_loop s' else []
  end.

Section FileOperations.

Variable now : tm.

(** [regexec] of the compiled pattern [FNAME] on a path returns 0.  The
    regular expressions are those of the C library. *)
Variable fname_matches : list byte → bool.

(** [create_file], given the standard input: it returns what it leaves
    of the input. *)
Definition create_file (fpath : string) (input : list byte) : Op (list byte) :=
  found ← lift (Sys.access fpath);
  input ← (if found : bool then
             regular ← is_file fpath;
             if regular : bool then
               match confirm (S (length input)) input with
               | None => stop_with (Stop OutOfFuel)
               | Some (Yes, input') => mret input'
               | Some (No, _) => stop_with OverwriteAborted
               | Some (EndOfInput, _) => stop_with InputEnded
               end
             else stop_with NotRegular
           else if fname_matches (fmt_s (bytes fpath)) then mret input
                else stop_with InvalidFilename);
  lift (Sys.fopen_w fpath);;
  lift (change_log now
          (snprintf (Z.to_nat LOGLEN)
             (bytes "File '" ++ fmt_s (bytes fpath)
                ++ bytes "' created/overwritten | Lines After = 0")));;
  mret input.

(** [copy_file].  The source is counted, and its stream moved back to
    the start, before the destination is opened for writing, which cuts
    the destination to length zero; the copying loop reads the source
    after that.  When the two paths are the same, the source is the file
    just emptied and the loop has nothing to copy.  (This takes the
    count to have read the source to its end; where it stopped at a byte
    0xFF the stream may still hold bytes it had read ahead.) *)
Definition copy_file (fpath1 fpath2 : string) (input : list byte) : Op (list byte) :=
  found ← lift (Sys.access fpath2);
  input ← (if found : bool then
             regular ← is_file fpath2;
             if regular : bool then
               match confirm (S (length input)) input with
               | None => stop_with (Stop OutOfFuel)
               | Some (Yes, input') => mret input'
               | Some (No, _) => stop_with OverwriteAborted
               | Some (EndOfInput, _) => stop_with InputEnded
               end
             else stop_with NotRegular
           else if fname_matches (fmt_s (bytes fpath2)) then mret input
                else stop_with InvalidFilename);
  fptr1 ← lift (Sys.fopen_r "fopen src" fpath1);
  let lines := count_lines fptr1 in
  lift (Sys.fopen_w fpath2);;
  let fptr1 := if bool_decide (fpath1 = fpath2) then [] else fptr1 in
  lift (Sys.fclose_w fpath2 (copy_loop fptr1));;
  lift (change_log now
          (snprintf (Z.to_nat LOGLEN)
             (bytes "File '" ++ fmt_s (bytes fpath1) ++ bytes "' copied to '"
                ++ fmt_s (bytes fpath2) ++ bytes "' | Lines After = " ++ fmt_lu lines)));;
  mret input.

End FileOperations.

(** ** Line numbers on the command line *)

(** [isdigit] in the C locale. *)
Definition isdigit (c : Z) : bool := (48 <=? c) && (c <=? 57).

Fixpoint is_number (str : list byte) : Z :=
  match str with
  | [] => 0
  | b :: str' => if negb (isdigit (char_of_byte b)) then 1 else is_number str'
  end.

Definition LONG_MAX : Z := 2 ^ 63 - 1.

(** The value [strtol] reads in base 10 from a string of digits, before
    it is compared with [LONG_MAX]. *)
Definition strtol_digits (s : list byte) : Z :=
  fold_left (λ acc b, acc * 10 + (int_of_byte b - 48)) s 0.

Inductive parse_result :=
| Parsed (line : Z)
| NonDigit        (* Invalid Line number Input: Non-digit *)
| TooLong         (* Invalid Line number Input: Too long *)
| EmptyString     (* Invalid Line number Input: Empty string *)
| OutOfRange.     (* [strtol] sets [errno], and [die(strtol)] *)

Definition parse_num (input : list byte) (maxlen : Z) : parse_result :=
  let input := c_str input in
  if negb (is_number input =? 0) then NonDigit
  else if Z.of_nat (length input) >? size_t maxlen then TooLong
  else if Z.of_nat (length input) <? 1 then EmptyString
  else
    let value := strtol_digits input in
    if value >? LONG_MAX then OutOfRange else Parsed (size_t value).

(** * Notions the properties are stated with *)

#[global] Instance byte_eq_dec : EqDecision byte := Byte.byte_eq_dec.

(** The number of line terminators of a file. *)
Definition terminators (f : list byte) : Z :=
  Z.of_nat (length (List.filter (Byte.eqb nl) f)).

(** A regular file holds at most [off_t_max] bytes. *)
Definition off_t_max : Z := 2 ^ 63 - 1.

(** The count the specification words describe: one line for each
    terminator, and one more for a last segment left without one. *)
Definition terminated_line_count (f : list byte) : Z :=
  match f with
  | [] => 0
  | _ :: _ => terminators f + (if bool_decide (last f = Some nl) then 0 else 1)
  end.

(** The file system an operation leaves behind, however it ends. *)
Definition state_of {A : Type} (o : outcome A) : fs :=
  match o with
  | Returned _ σ => σ
  | Exited _ σ => σ
  end.

(** The operation ended on the line-out-of-range message. *)
Definition range_failure {A : Type} (o : outcome A) : Prop :=
  ∃ σ, o = Exited LineOutOfRange σ.

(** The range check of an operation [op] run on [σ], where the file it
    edits holds [f]: it ends on the range message exactly when [lineno]
    exceeds the line count, and then it has written nothing. *)
Definition range_checked (σ : fs) (f : list byte) (op : M unit) (lineno : Z) : Prop :=
  (range_failure (op σ) ↔ count_lines f < lineno)
  ∧ (range_failure (op σ) → op σ = Exited LineOutOfRange σ).

(** What [append_line] writes after the [f] a file holds: the text, with
    a terminator before it unless [is_empty] answers 1. *)
Definition appended (f line : list byte) : list byte :=
  if Z.of_nat (length f) <=? 1 then fmt_s line else [nl] ++ fmt_s line.

(** The operation ended because a loop of the model ran out of fuel. *)
Definition fuel_failure {A : Type} (o : outcome A) : Prop :=
  ∃ σ, o = Exited OutOfFuel σ.

(** A clock reading for the examples: 1 January 1970, 00:00:00. *)
Definition epoch : tm := Tm 70 0 1 0 0 0.

(** [m] stands in [l] at offset [i]. *)
Definition occurs_at (m l : list byte) (i : nat) : Prop :=
  ∃ pre post, l = pre ++ m ++ post ∧ length pre = i.

Definition first_occurrence (m l : list byte) (i : nat) : Prop :=
  occurs_at m l i ∧ ∀ j, occurs_at m l j → (i ≤ j)%nat.

(** [q] is the offset of the first double quote of [l]. *)
Definition first_quote (l : list byte) (q : nat) : Prop :=
  l !! q = Some dquote ∧ ∀ k, (k < q)%nat → l !! k ≠ Some dquote.

(** The marker of the log entries that concern the file [fpath]. *)
Definition marker (fpath : string) : list byte :=
  bytes "File '" ++ bytes fpath ++ bytes "'".

(** The filter of the specification: the line holds the marker, and the
    first occurrence of the marker starts before the first double quote,
    if the line has one. *)
Definition marker_precedes_first_quote (m l : list byte) : Prop :=
  ∃ i, first_occurrence m l i ∧ ∀ q, first_quote l q → (i < q)%nat.

(** The test [display_log] applies to a line when a path is given. *)
Definition shown (key line : list byte) : bool :=
  match strstr line key with
  | Some index =>
      match strchr line dquote with
      | Some found => (index <? found)%nat
      | None => true
      end
  | None => false
  end.

(** The C strings the successive calls of [fgets] deliver until it
    returns null. *)
Fixpoint fgets_lines (fuel : nat) (n : Z) (s : list byte) : option (list (list byte)) :=
  match fuel with
  | O => None
  | S fuel' =>
      match fgets n s with
      | None => Some []
      | Some (line, s') => (c_str line ::.) <$> fgets_lines fuel' n s'
      end
  end.

(** A whole entry of the log: a text free of terminators, NUL and 0xFF,
    then one terminator, within the line length the log allows. *)
Definition whole_entry (e : list byte) : Prop :=
  ∃ text, e = text ++ [nl] ∧ (nl ∉ text) ∧ (x00 ∉ text) ∧ (xff ∉ text)
          ∧ Z.of_nat (length e) ≤ LOGLEN - 2.

(** A log of [count] entries numbered from [from], each written by
    [change_log] at [epoch]. *)
Definition sample_log (from count : nat) : list byte :=
  concat (map (λ i, log_entry epoch (fmt_lu (Z.of_nat i))) (seq from count)).

(** Sample files: lines a, b and lines a, b, c, the last one without
    terminator. *)
Definition file_ab : list byte := bytes "a" ++ [nl] ++ bytes "b".
Definition file_abc : list byte := bytes "a" ++ [nl] ++ bytes "b" ++ [nl] ++ bytes "c".

(** Two log entries: an append to a.txt, and an append to b.txt of a text
    that quotes the marker of a.txt. *)
Definition entry_a : list byte :=
  log_entry epoch
    (bytes "File 'a.txt': Line " ++ [dquote] ++ bytes "x" ++ [dquote]
       ++ bytes " appended | Lines After = 1").
Definition entry_b : list byte :=
  log_entry epoch
    (bytes "File 'b.txt': Line " ++ [dquote] ++ bytes "File 'a.txt'" ++ [dquote]
       ++ bytes " appended | Lines After = 1").

Ltac unfold_monad :=
  unfold mbind, M_bind, mret, M_ret, exit_with,
    Sys.access, Sys.fopen_r, Sys.fopen_w, Sys.fopen_a, Sys.fclose_w,
    Sys.st_size, Sys.remove, Sys.rename in *.

(** Closes a goal that an operation past its range check does not end on
    the range message. *)
Ltac no_range_failure log_lemma :=
  let H := fresh in
  intros H; exfalso; revert H;
  repeat case_match; simplify_eq;
  first [apply log_lemma | by intros [? ?]].

(** What a rewriting operation run on [σ] leaves in [σ']: the target holds
    [temp], no scratch file is left, and every file other than the target,
    the log and the scratch file is as it was. *)
Definition rewritten (σ σ' : fs) (fpath : string) (temp : list byte) : Prop :=
  σ' !! fpath = Some temp
  ∧ σ' !! TEMPF = None
  ∧ ∀ p, p ≠ fpath → p ≠ LOGF → p ≠ TEMPF → σ' !! p = σ !! p.

(** [pre] ends where a line starts: it is empty or its last byte is a
    terminator. *)
Definition at_line_start (pre : list byte) : Prop :=
  pre = [] ∨ ∃ p, pre = p ++ [nl].

(** [text] is a line of [f] that ends in a terminator. *)
Definition terminated_line (f text : list byte) : Prop :=
  ∃ pre rest, f = pre ++ text ++ nl :: rest ∧ at_line_start pre ∧ (nl ∉ text).

(** A test for [whole_entry] that can be run. *)
Definition whole_entryb (e : list byte) : bool :=
  bool_decide (last e = Some nl ∧ (nl ∉ removelast e) ∧ (x00 ∉ e) ∧ (xff ∉ e)
               ∧ Z.of_nat (length e) ≤ LOGLEN - 2).

(** The entries [change_log] leaves of the entries [es] it finds and the
    entry [e] it adds: all of them while there are fewer than
    [CLOG_BUFFER], the newest [CLOG_BUFFER - 11] otherwise. *)
Definition logged (es : list (list byte)) (e : list byte) : list (list byte) :=
  if Z.of_nat (length es) + 1 <? CLOG_BUFFER then es ++ [e]
  else drop (length es + 1 - Z.to_nat (CLOG_BUFFER - 11)) (es ++ [e]).

(** The state an operation of the second part ends in. *)
Definition final {A : Type} (o : ended A) : fs :=
  match o with
  | Finished _ σ => σ
  | Stopped _ σ => σ
  end.

(** [r] is [l] with the occurrences of [key] replaced by [sub], the
    occurrences being taken from the left, one after the end of the
    other. *)
Inductive substitutes (key sub : list byte) : list byte → list byte → Prop :=
| substitutes_none (l : list byte) :
    (∀ i, ¬ occurs_at key l i) → substitutes key sub l l
| substitutes_first (a b r : list byte) :
    first_occurrence key (a ++ key ++ b) (length a) → substitutes key sub b r →
    substitutes key sub (a ++ key ++ b) (a ++ sub ++ r).

(** A line of a text file, without its terminator, that [fgets] delivers
    whole into a buffer of [MAX] bytes. *)
Definition plain_line (t : list byte) : Prop :=
  (nl ∉ t) ∧ (cr ∉ t) ∧ (x00 ∉ t) ∧ (xff ∉ t) ∧ Z.of_nat (length t) + 1 ≤ MAX - 2.

(** The file made of the lines [texts], a terminator after each. *)
Definition text_file (texts : list (list byte)) : list byte :=
  concat (map (λ t, t ++ [nl]) texts).

(** [key] occurs [k] times in [l], the occurrences being taken from the
    left, one after the end of the other. *)
Inductive occurrences (key : list byte) : list byte → nat → Prop :=
| occurrences_none (l : list byte) :
    (∀ i, ¬ occurs_at key l i) → occurrences key l 0
| occurrences_first (a b : list byte) (k : nat) :
    first_occurrence key (a ++ key ++ b) (length a) → occurrences key b k →
    occurrences key (a ++ key ++ b) (S k).

(** The reports [search] prints for the lines [texts], numbered from
    [from] + 1, in which the key occurs [counts] times. *)
Fixpoint reports (digits : Z) (from : Z) (texts : list (list byte)) (counts : list nat)
  : list report :=
  match texts, counts with
  | t :: texts', c :: counts' =>
      (if c is O then [] else [Report (Z.of_nat c) digits (from + 1) t])
      ++ reports digits (from + 1) texts' counts'
  | _, _ => []
  end.

(** The lines [texts] and the last line [last] as [show_file] shows them:
    before each line its number, counted from [from] and padded with
    zeros to [digits] places, and a bar; a terminator after each line
    but the last. *)
Fixpoint numbered (digits : Z) (from : Z) (texts : list (list byte)) (last : list byte)
  : list byte :=
  match texts with
  | [] => fmt_0lu digits from ++ bytes " |" ++ last
  | t :: texts' =>
      fmt_0lu digits from ++ bytes " |" ++ t ++ [nl] ++ numbered digits (from + 1) texts' last
  end.

(** The destination of [create_file] and [copy_file] may be written:
    it does not exist and its name matches the pattern, or it exists
    and the answer read from [input] is y, which leaves [rest]. *)
Definition may_write (fname_matches : list byte → bool) (σ : fs) (fpath : string)
    (input rest : list byte) : Prop :=
  match σ !! fpath with
  | None => fname_matches (fmt_s (bytes fpath)) = true ∧ rest = input
  | Some _ => confirm (S (length input)) input = Some (Yes, rest)
  end.

(** The lines of the file [text_file texts ++ last]: those of [texts],
    and [last] when it is not empty. *)
Definition file_lines (texts : list (list byte)) (last : list byte) : list (list byte) :=
  texts ++ (if last is [] then [] else [last]).

(** The number of digits [%lu] prints [n] with. *)
Definition decimal_digits (n : Z) : Z := Z.of_nat (length (fmt_lu n)).

(** A line of the log, without its terminator, that passes the check
    [display_log] makes: it holds no NUL, and with its terminator it is
    within the line length the log allows. *)
Definition log_text (t : list byte) : Prop :=
  (nl ∉ t) ∧ (x00 ∉ t) ∧ Z.of_nat (length t) + 1 ≤ LOGLEN - 2.

(** The lines of the log [text_file texts ++ last]: each of [texts] with
    its terminator, then [last], which has none, when it is not empty. *)
Definition log_lines (texts : list (list byte)) (last : list byte) : list (list byte) :=
  map (λ t, t ++ [nl]) texts ++ (if last is [] then [] else [last]).

(** An entry about a.txt that is one byte longer than the log allows,
    and a line about a.txt, longer than the buffer of [display_log] and
    without terminator, in which the marker lies across the end of the
    buffer. *)
Definition long_entry : list byte :=
  bytes "File 'a.txt'" ++ replicate 2546 "x"%byte ++ [nl].
Definition long_last_line : list byte :=
  replicate 2550 "x"%byte ++ bytes "File 'a.txt'".

(** * Properties *)

(** ** Characters *)

Section Characters.

Lemma byte_eqb_decide (a b : byte) : Byte.eqb a b = bool_decide (a = b).
Proof.
  case_bool_decide as H.
  - by apply Byte.byte_dec_lb.
  - destruct (Byte.eqb a b) eqn:E; [|done].
    by apply Byte.byte_dec_bl in E.
Qed.

Lemma char_of_byte_eof (b : byte) : (char_of_byte b =? EOF) = bool_decide (b = xff).
Proof. rewrite <- byte_eqb_decide. by destruct b. Qed.

Lemma char_of_byte_nl (b : byte) : (char_of_byte b =? NL) = bool_decide (b = nl).
Proof. rewrite <- byte_eqb_decide. by destruct b. Qed.

Lemma char_of_byte_nul (b : byte) : (char_of_byte b =? NUL) = bool_decide (b = x00).
Proof. rewrite <- byte_eqb_decide. by destruct b. Qed.

Lemma uchar_of_char_of_byte (b : byte) : uchar_of_int (char_of_byte b) = b.
Proof. by destruct b. Qed.

Lemma incr_small (n : Z) : 0 ≤ n → n + 1 < size_t_modulus → incr n = n + 1.
Proof. intros. unfold incr, size_t. apply Z.mod_small. lia. Qed.

End Characters.

(** ** [count_lines] *)

Section CountLines.

Lemma terminators_cons (b : byte) (f : list byte) :
  terminators (b :: f) = (if bool_decide (b = nl) then 1 else 0) + terminators f.
Proof.
  unfold terminators. simpl. rewrite (byte_eqb_decide nl b).
  repeat case_bool_decide; simplify_eq; simpl; lia.
Qed.

Lemma terminators_nonneg (f : list byte) : 0 ≤ terminators f.
Proof. unfold terminators. lia. Qed.

Lemma terminators_app (f g : list byte) :
  terminators (f ++ g) = terminators f + terminators g.
Proof. unfold terminators. rewrite List.filter_app, length_app. lia. Qed.

(** The loop on a stream free of the byte 0xFF: every terminator is
    counted, and the first character read, if any, counts once more. *)
Lemma count_lines_loop_spec (f : list byte) (lines : Z) (first : bool) :
  xff ∉ f → 0 ≤ lines →
  lines + terminators f + (if first then 1 else 0) < size_t_modulus →
  fst (count_lines_loop f (lines, first))
  = lines + terminators f + (if first && bool_decide (f ≠ []) then 1 else 0).
Proof.
  revert lines first. induction f as [|b f IH]; intros lines first Hff Hlo Hhi.
  - simpl. rewrite andb_false_r. unfold terminators. simpl. destruct first; simpl; lia.
  - apply not_elem_of_cons in Hff as [Hb Hff].
    rewrite terminators_cons in Hhi |- *.
    pose proof (terminators_nonneg f) as Hnn.
    cbn [count_lines_loop count_lines_body].
    rewrite char_of_byte_eof, char_of_byte_nl.
    rewrite (bool_decide_eq_false_2 (b = xff)) by naive_solver.
    rewrite andb_true_r.
    destruct first; cbn [andb negb]; case_bool_decide; simplify_eq.
    all: rewrite ?incr_small by (rewrite ?incr_small; lia).
    all: rewrite IH by (done || lia).
    all: cbn [andb]; repeat case_bool_decide; naive_solver lia.
Qed.

Lemma terminators_le_length (f : list byte) : terminators f ≤ Z.of_nat (length f).
Proof.
  induction f as [|b f IH]; [done|].
  rewrite terminators_cons. cbn [length]. case_bool_decide; lia.
Qed.

(** On a file free of the byte 0xFF: no line in an empty file, and
    otherwise one line more than there are terminators. *)
Lemma count_lines_terminators (f : list byte) :
  xff ∉ f → Z.of_nat (length f) ≤ off_t_max →
  count_lines f = match f with [] => 0 | _ :: _ => terminators f + 1 end.
Proof.
  intros Hff Hlen. unfold count_lines.
  pose proof (terminators_le_length f) as Hle.
  rewrite count_lines_loop_spec; [|done|done|].
  - destruct f; [done|]. rewrite bool_decide_eq_true_2 by done. simpl. lia.
  - unfold off_t_max, size_t_modulus in *. lia.
Qed.

End CountLines.

(** C6, as stated, fails on a file that ends in a terminator: [count_lines]
    counts the empty segment after the last terminator as a line. *)
Lemma count_lines_trailing_terminator :
  count_lines (bytes "a" ++ [nl]) = 2
  ∧ terminated_line_count (bytes "a" ++ [nl]) = 1.
Proof. split; reflexivity. Qed.

(** C6 (amended).  On every file free of the byte 0xFF, [count_lines]
    returns 0 when the file is empty and otherwise the number of line
    terminators plus one, whether or not the last byte is a terminator.
    It is a total function: it never fails. *)
Theorem count_lines_spec (f : list byte) :
  xff ∉ f → Z.of_nat (length f) ≤ off_t_max →
  count_lines f = match f with [] => 0 | _ :: _ => terminators f + 1 end.
Proof. apply count_lines_terminators. Qed.

Lemma count_lines_spec_witness :
  count_lines (bytes "a" ++ [nl] ++ bytes "b") = 1 + 1.
Proof.
  apply (count_lines_spec (bytes "a" ++ [nl] ++ bytes "b")).
  - apply (bool_decide_unpack _). by vm_compute.
  - by vm_compute.
Defined.

(** ** The change log *)

Section ChangeLog.

Lemma LOGF_neq_TEMPF : LOGF ≠ TEMPF.
Proof. done. Qed.

(** [truncate_log] touches the log and the scratch file only. *)
Lemma truncate_log_frame (σ : fs) (p : string) :
  p ≠ LOGF → p ≠ TEMPF → state_of (truncate_log σ) !! p = σ !! p.
Proof.
  intros H1 H2. unfold truncate_log. unfold_monad.
  pose proof LOGF_neq_TEMPF.
  repeat (case_match; simplify_map_eq; try done).
Qed.

(** Appending to the log: the entry goes after what the log held. *)
Lemma change_log_eq (now : tm) (logstr : list byte) (σ : fs) :
  change_log now logstr σ
  = truncate_log (<[LOGF := default [] (σ !! LOGF) ++ log_entry now logstr]> σ).
Proof.
  unfold change_log. unfold_monad.
  destruct (σ !! LOGF) as [log|] eqn:E; simpl.
  - by rewrite E.
  - by rewrite lookup_insert_eq, insert_insert_eq.
Qed.

Lemma change_log_frame (now : tm) (logstr : list byte) (σ : fs) (p : string) :
  p ≠ LOGF → p ≠ TEMPF → state_of (change_log now logstr σ) !! p = σ !! p.
Proof.
  intros H1 H2. rewrite change_log_eq, truncate_log_frame by done.
  by rewrite lookup_insert_ne.
Qed.

Lemma truncate_log_no_range_failure (σ : fs) : ¬ range_failure (truncate_log σ).
Proof.
  intros [σ' H]. unfold truncate_log in H. unfold_monad.
  repeat (case_match; simplify_eq; try done).
Qed.

Lemma change_log_no_range_failure (now : tm) (logstr : list byte) (σ : fs) :
  ¬ range_failure (change_log now logstr σ).
Proof. rewrite change_log_eq. apply truncate_log_no_range_failure. Qed.

End ChangeLog.

(** Within the buffer nothing is written. *)
Lemma truncate_log_within_buffer_aux (σ : fs) (log : list byte) :
  σ !! LOGF = Some log →
  verify_lines_ret (verify_lines log (LOGLEN - 2)) ≠ -1 →
  verify_lines_ret (verify_lines log (LOGLEN - 2)) ≤ CLOG_BUFFER →
  truncate_log σ = Returned () σ.
Proof.
  intros Hlog Hsafe Hle. unfold truncate_log. unfold_monad. rewrite Hlog.
  destruct (Z.eqb_spec (verify_lines_ret (verify_lines log (LOGLEN - 2))) (-1)); [done|].
  destruct (Z.gtb_spec (verify_lines_ret (verify_lines log (LOGLEN - 2))) CLOG_BUFFER); [lia|done].
Qed.

(** C10.  When the log passes its line-safety check and the total that
    check counted does not exceed [CLOG_BUFFER], [truncate_log] returns
    with the file system as it found it: the log is byte-identical and no
    scratch file has appeared.  The rewrite is therefore taken only when
    the counted total exceeds [CLOG_BUFFER]. *)
Theorem truncate_log_within_buffer (σ : fs) (log : list byte) :
  σ !! LOGF = Some log →
  verify_lines_ret (verify_lines log (LOGLEN - 2)) ≠ -1 →
  verify_lines_ret (verify_lines log (LOGLEN - 2)) ≤ CLOG_BUFFER →
  truncate_log σ = Returned () σ.
Proof. apply truncate_log_within_buffer_aux. Qed.

Lemma truncate_log_within_buffer_witness :
  truncate_log {[ LOGF := bytes "[1970-01-01 00:00:00] x" ++ [nl] ]}
  = Returned () {[ LOGF := bytes "[1970-01-01 00:00:00] x" ++ [nl] ]}.
Proof.
  apply (truncate_log_within_buffer _ (bytes "[1970-01-01 00:00:00] x" ++ [nl])).
  - apply lookup_singleton_eq.
  - by vm_compute.
  - by vm_compute.
Defined.

(** ** The range check of the line operations *)

Section RangeCheck.

Variable now : tm.
Variables (σ : fs) (fpath : string) (f : list byte).
Hypothesis Hf : σ !! fpath = Some f.

Lemma del_line_range (lineno : Z) :
  range_checked σ f (del_line now fpath lineno) lineno.
Proof.
  unfold range_checked, del_line. unfold_monad. rewrite Hf.
  destruct (Z.gtb_spec lineno (count_lines f)) as [Hgt|Hle].
  - unfold range_failure. split; [split|]; eauto with lia.
  - split; [split; [|lia]|]; no_range_failure change_log_no_range_failure.
Qed.

Lemma rep_line_range (line : list byte) (lineno : Z) :
  range_checked σ f (rep_line now fpath line lineno) lineno.
Proof.
  unfold range_checked, rep_line. unfold_monad. rewrite Hf.
  destruct (Z.gtb_spec lineno (count_lines f)) as [Hgt|Hle].
  - unfold range_failure. split; [split|]; eauto with lia.
  - split; [split; [|lia]|]; no_range_failure change_log_no_range_failure.
Qed.

Lemma ins_line_range (c_indet : Z) (line : list byte) (lineno : Z) :
  range_checked σ f (ins_line now c_indet fpath line lineno) lineno.
Proof.
  unfold range_checked, ins_line. unfold_monad. rewrite Hf.
  destruct (Z.gtb_spec lineno (count_lines f)) as [Hgt|Hle].
  - unfold range_failure. split; [split|]; eauto with lia.
  - split; [split; [|lia]|]; no_range_failure change_log_no_range_failure.
Qed.

End RangeCheck.

(** C4, as stated, fails for [ins_line]: the position just after the last
    line, which the claim accepts, is refused. *)
Lemma ins_line_rejects_position_after_last :
  1 ≤ 2 ≤ count_lines (bytes "a") + 1
  ∧ ins_line epoch 0 "f" (bytes "X") 2 {[ "f" := bytes "a" ]}
    = Exited LineOutOfRange {[ "f" := bytes "a" ]}.
Proof. split; [by vm_compute|reflexivity]. Qed.

(** C4 (amended).  For a line number of at least 1, each of [del_line],
    [rep_line] and [ins_line] ends on the line-out-of-range message exactly
    when the number exceeds the current line count ([ins_line] too: it
    does not accept the count plus one), and an operation that ends so
    leaves the file system as it found it. *)
Theorem line_range_check (now : tm) (c_indet : Z) (σ : fs) (fpath : string)
    (f line : list byte) (lineno : Z) :
  σ !! fpath = Some f → 1 ≤ lineno < size_t_modulus →
  Forall (λ op, range_checked σ f op lineno)
    [del_line now fpath lineno; rep_line now fpath line lineno;
     ins_line now c_indet fpath line lineno].
Proof.
  intros Hf _. repeat apply Forall_cons_2; [| | |apply Forall_nil_2].
  - by apply del_line_range.
  - by apply rep_line_range.
  - by apply ins_line_range.
Qed.

Lemma line_range_check_witness :
  Forall (λ op, range_checked {[ "f" := bytes "a" ]} (bytes "a") op 1)
    [del_line epoch "f" 1; rep_line epoch "f" (bytes "X") 1;
     ins_line epoch 0 "f" (bytes "X") 1].
Proof.
  apply (line_range_check epoch 0 {[ "f" := bytes "a" ]} "f" (bytes "a") (bytes "X") 1).
  - apply lookup_singleton_eq.
  - by vm_compute.
Defined.

(** ** [append_line] *)

Section AppendLine.

Lemma c_str_id (l : list byte) : x00 ∉ l → c_str l = l.
Proof.
  induction l as [|b l IH]; [done|]. intros [Hb Hl]%not_elem_of_cons.
  simpl. rewrite byte_eqb_decide, bool_decide_eq_false_2 by done.
  by rewrite IH.
Qed.

Lemma terminators_none (l : list byte) : nl ∉ l → terminators l = 0.
Proof.
  induction l as [|b l IH]; [done|]. intros [Hb Hl]%not_elem_of_cons.
  rewrite terminators_cons, bool_decide_eq_false_2 by done. by rewrite IH.
Qed.

(** The operation is the write followed by the log entry. *)
Lemma append_line_eq (now : tm) (σ : fs) (fpath : string) (f line : list byte) :
  σ !! fpath = Some f →
  ∃ logstr, append_line now fpath line σ
            = change_log now logstr (<[fpath := f ++ appended f line]> σ).
Proof.
  intros Hf. unfold append_line, is_empty, appended. unfold_monad.
  rewrite !Hf. cbv beta iota. rewrite lookup_insert_eq. cbv beta iota.
  eexists. reflexivity.
Qed.

Lemma append_line_content (now : tm) (σ : fs) (fpath : string) (f line : list byte) :
  σ !! fpath = Some f → fpath ≠ LOGF → fpath ≠ TEMPF →
  state_of (append_line now fpath line σ) !! fpath = Some (f ++ appended f line).
Proof.
  intros Hf H1 H2. destruct (append_line_eq now σ fpath f line Hf) as [logstr ->].
  rewrite change_log_frame by done. apply lookup_insert_eq.
Qed.

End AppendLine.

(** C5, as stated, fails on texts the operation accepts: a text that holds
    a terminator adds more than one line, and the empty text appended to
    an empty file leaves it with no line at all. *)
Lemma append_line_text_counterexamples :
  (state_of (append_line epoch "f" (bytes "a" ++ [nl] ++ bytes "b") {[ "f" := [] ]}) !! "f"
   = Some (bytes "a" ++ [nl] ++ bytes "b")
   ∧ count_lines (bytes "a" ++ [nl] ++ bytes "b") = 2)
  ∧ (state_of (append_line epoch "f" [] {[ "f" := [] ]}) !! "f" = Some []
     ∧ count_lines [] = 0).
Proof. repeat split; by vm_compute. Qed.

(** C5 (amended).  Let F be a file of any size but one byte and X a text
    holding no terminator, both free of the byte 0xFF.  After
    [append_line] F holds its former content followed by X, with one
    terminator between the two exactly when F was not empty; its line
    count is the former count plus 1 when F was not empty, 1 when F was
    empty and X is not, and 0 when both are empty. *)
Theorem append_line_count (now : tm) (σ : fs) (fpath : string) (F X : list byte) :
  σ !! fpath = Some F → fpath ≠ LOGF → fpath ≠ TEMPF →
  length F ≠ 1%nat →
  xff ∉ F → xff ∉ X → nl ∉ X → x00 ∉ X →
  Z.of_nat (length F + length X) < off_t_max →
  let F' := F ++ (if bool_decide (F = []) then X else nl :: X) in
  state_of (append_line now fpath X σ) !! fpath = Some F'
  ∧ count_lines F'
    = (if bool_decide (F = []) then (if bool_decide (X = []) then 0 else 1)
       else count_lines F + 1).
Proof.
  intros Hf H1 H2 Hlen HF HX Hnl Hnul Hsize F'.
  assert (appended F X = (if bool_decide (F = []) then X else nl :: X)) as Happ.
  { unfold appended, fmt_s. rewrite c_str_id by done.
    destruct (Z.leb_spec (Z.of_nat (length F)) 1); case_bool_decide; subst;
      try done; destruct F as [|a [|b F]]; simpl in *; done || lia. }
  split.
  - rewrite (append_line_content now σ fpath F X) by done. by rewrite Happ.
  - subst F'. case_bool_decide as HFnil.
    + subst F. rewrite app_nil_l. rewrite count_lines_terminators.
      * destruct X; [done|]. rewrite bool_decide_eq_false_2 by done.
        by rewrite terminators_none.
      * done.
      * simpl in Hsize. lia.
    + assert (xff ∉ F ++ nl :: X)
        by (rewrite elem_of_app, elem_of_cons; intros [?|[?|?]]; done).
      assert (Z.of_nat (length (F ++ nl :: X)) ≤ off_t_max)
        by (rewrite length_app; cbn [length]; unfold off_t_max in *; lia).
      assert (Z.of_nat (length F) ≤ off_t_max) by (unfold off_t_max in *; lia).
      rewrite !count_lines_terminators by done.
      destruct F as [|a F]; [done|].
      change ((a :: F) ++ nl :: X) with ((a :: F) ++ [nl] ++ X).
      rewrite !terminators_app, (terminators_none X) by done.
      change (terminators [nl]) with 1. cbn [app]. lia.
Qed.

Lemma append_line_count_witness :
  state_of (append_line epoch "f" (bytes "X") {[ "f" := bytes "hi" ]}) !! "f"
  = Some (bytes "hi" ++ nl :: bytes "X")
  ∧ count_lines (bytes "hi" ++ nl :: bytes "X") = count_lines (bytes "hi") + 1.
Proof.
  apply (append_line_count epoch {[ "f" := bytes "hi" ]} "f" (bytes "hi") (bytes "X")).
  - apply lookup_singleton_eq.
  - done.
  - done.
  - done.
  - apply (bool_decide_unpack _). by vm_compute.
  - apply (bool_decide_unpack _). by vm_compute.
  - apply (bool_decide_unpack _). by vm_compute.
  - apply (bool_decide_unpack _). by vm_compute.
  - by vm_compute.
Defined.

(** ** String search *)

Section Strings.

Lemma is_prefix_spec (needle hay : list byte) :
  is_prefix needle hay = true ↔ ∃ post, hay = needle ++ post.
Proof.
  revert hay. induction needle as [|a needle IH]; intros hay; simpl.
  - split; eauto.
  - destruct hay as [|b hay].
    + split; [done|]. by intros [? ?].
    + rewrite andb_true_iff, IH, byte_eqb_decide, bool_decide_eq_true. split.
      * intros [-> [post ->]]. eauto.
      * intros [post [= -> ->]]. eauto.
Qed.

Lemma occurs_at_0 (m l : list byte) : occurs_at m l 0 ↔ is_prefix m l = true.
Proof.
  rewrite is_prefix_spec. unfold occurs_at. split.
  - intros (pre & post & -> & Hlen). apply nil_length_inv in Hlen as ->. eauto.
  - intros [post ->]. by exists [], post.
Qed.

Lemma occurs_at_S (m : list byte) (b : byte) (l : list byte) (j : nat) :
  occurs_at m (b :: l) (S j) ↔ occurs_at m l j.
Proof.
  unfold occurs_at. split.
  - intros (pre & post & Heq & Hlen). destruct pre as [|c pre]; [done|].
    simpl in *. simplify_eq. eauto.
  - intros (pre & post & -> & <-). by exists (b :: pre), post.
Qed.

Lemma occurs_at_nil (m : list byte) (j : nat) : occurs_at m [] j → j = 0%nat.
Proof.
  intros (pre & post & Heq & <-). symmetry in Heq.
  by apply app_eq_nil in Heq as [-> _].
Qed.

Lemma strstr_Some (hay needle : list byte) (i : nat) :
  strstr hay needle = Some i → first_occurrence needle hay i.
Proof.
  revert i. induction hay as [|b hay IH]; intros i; simpl.
  - destruct (is_prefix needle []) eqn:E; [|done].
    intros [= <-]. split; [by apply occurs_at_0|lia].
  - destruct (is_prefix needle (b :: hay)) eqn:E.
    + intros [= <-]. split; [by apply occurs_at_0|lia].
    + destruct (strstr hay needle) as [i'|] eqn:E'; [|done].
      intros [= <-]. destruct (IH i' eq_refl) as [Hocc Hmin]. split.
      * by apply occurs_at_S.
      * intros [|j] Hj.
        -- apply occurs_at_0 in Hj. congruence.
        -- apply occurs_at_S, Hmin in Hj. lia.
Qed.

Lemma strstr_None (hay needle : list byte) (j : nat) :
  strstr hay needle = None → ¬ occurs_at needle hay j.
Proof.
  revert j. induction hay as [|b hay IH]; intros j; simpl.
  - destruct (is_prefix needle []) eqn:E; [done|]. intros _ Hj.
    pose proof (occurs_at_nil _ _ Hj) as ->. apply occurs_at_0 in Hj. congruence.
  - destruct (is_prefix needle (b :: hay)) eqn:E; [done|].
    destruct (strstr hay needle) as [i'|] eqn:E'; [done|]. intros _.
    destruct j as [|j]; intros Hj.
    + apply occurs_at_0 in Hj. congruence.
    + apply occurs_at_S in Hj. by eapply IH.
Qed.

Lemma strchr_Some (l : list byte) (c : byte) (q : nat) :
  strchr l c = Some q → l !! q = Some c ∧ ∀ k, (k < q)%nat → l !! k ≠ Some c.
Proof.
  revert q. induction l as [|b l IH]; intros q; simpl; [done|].
  rewrite byte_eqb_decide. case_bool_decide as Hb.
  - intros [= <-]. subst. split; [done|lia].
  - destruct (strchr l c) as [q'|] eqn:E; [|done]. intros [= <-].
    destruct (IH q' eq_refl) as [Hq Hmin]. split; [done|].
    intros [|k] Hk; simpl; [congruence|]. apply Hmin. lia.
Qed.

Lemma strchr_None (l : list byte) (c : byte) (q : nat) :
  strchr l c = None → l !! q ≠ Some c.
Proof.
  revert q. induction l as [|b l IH]; intros q; simpl; [done|].
  rewrite byte_eqb_decide. case_bool_decide as Hb; [done|].
  destruct (strchr l c) as [q'|] eqn:E; [done|]. intros _.
  destruct q as [|q]; simpl; [congruence|]. by apply IH.
Qed.

Lemma shown_spec (key line : list byte) :
  shown key line = true ↔ marker_precedes_first_quote key line.
Proof.
  unfold shown, marker_precedes_first_quote. split.
  - destruct (strstr line key) as [i|] eqn:Ei; [|done].
    apply strstr_Some in Ei. intros Hshown. exists i. split; [done|].
    intros q [Hq Hqmin]. destruct (strchr line dquote) as [found|] eqn:Eq.
    + apply strchr_Some in Eq as [Hf Hfmin]. apply Nat.ltb_lt in Hshown.
      destruct (Nat.lt_trichotomy q found) as [?|[->|?]]; [|done|].
      * by destruct (Hfmin q).
      * by destruct (Hqmin found).
    + by destruct (strchr_None line dquote q Eq).
  - intros (i & [Hocc Hmin] & Hquote).
    destruct (strstr line key) as [i'|] eqn:Ei.
    + apply strstr_Some in Ei as [Hocc' Hmin'].
      assert (i' = i) as -> by (apply Nat.le_antisymm; auto).
      destruct (strchr line dquote) as [found|] eqn:Eq; [|done].
      apply strchr_Some in Eq. apply Nat.ltb_lt. by apply Hquote.
    + by destruct (strstr_None line key i Ei).
Qed.

End Strings.

#[global] Instance marker_precedes_first_quote_dec (m l : list byte) :
  Decision (marker_precedes_first_quote m l).
Proof.
  refine (cast_if (decide (shown m l = true))); abstract (by rewrite <- shown_spec).
Defined.

(** ** [display_log] *)

Section DisplayLog.

Lemma fgets_read_shorter (room : nat) (s : list byte) :
  (0 < room)%nat → s ≠ [] → (length (fgets_read room s).2 < length s)%nat.
Proof.
  revert s. induction room as [|room IH]; intros s Hroom Hs; [lia|].
  destruct s as [|b s]; [done|]. simpl.
  destruct (Byte.eqb b nl); simpl; [lia|].
  destruct room as [|room'].
  - simpl. lia.
  - destruct s as [|b' s']; [simpl; lia|].
    specialize (IH (b' :: s') ltac:(lia) ltac:(done)).
    destruct (fgets_read (S room') (b' :: s')) as [l rest]. simpl in *. lia.
Qed.

Lemma fgets_shorter (n : Z) (s line s' : list byte) :
  2 ≤ n → fgets n s = Some (line, s') → (length s' < length s)%nat.
Proof.
  intros Hn. unfold fgets. destruct s as [|b s]; [done|]. intros [= Heq].
  pose proof (fgets_read_shorter (Z.to_nat (n - 1)) (b :: s) ltac:(lia) ltac:(done)) as H.
  by rewrite Heq in H.
Qed.

(** With fuel beyond the length of the stream the loop reaches the end of
    the file. *)
Lemma fgets_lines_total (fuel : nat) (n : Z) (s : list byte) :
  2 ≤ n → (length s < fuel)%nat → is_Some (fgets_lines fuel n s).
Proof.
  intros Hn. revert s. induction fuel as [|fuel IH]; intros s Hfuel; [lia|].
  simpl. destruct (fgets n s) as [[line s']|] eqn:E; [|by eexists].
  apply fgets_shorter in E; [|done].
  destruct (IH s' ltac:(lia)) as [ls ->]. by eexists.
Qed.

Lemma while_fgets_lines {A : Type} (fuel : nat) (n : Z) (body : A → list byte → A)
    (s : list byte) (a : A) :
  while_fgets fuel n body s a = (λ ls, fold_left body ls a) <$> fgets_lines fuel n s.
Proof.
  revert s a. induction fuel as [|fuel IH]; intros s a; [done|].
  simpl. destruct (fgets n s) as [[line s']|]; [|done].
  rewrite IH. by destruct (fgets_lines fuel n s').
Qed.

Lemma fold_display_all (key : list byte) (ls printed : list (list byte)) :
  fold_left (display_log_body None key) ls printed = printed ++ ls.
Proof.
  revert printed. induction ls as [|l ls IH]; intros printed; simpl.
  - by rewrite app_nil_r.
  - by rewrite IH, <- app_assoc.
Qed.

Lemma fold_display_filtered (p : string) (key : list byte) (ls printed : list (list byte)) :
  fold_left (display_log_body (Some p) key) ls printed
  = printed ++ filter (marker_precedes_first_quote key) ls.
Proof.
  revert printed. induction ls as [|l ls IH]; intros printed; simpl.
  - by rewrite app_nil_r.
  - rewrite IH, filter_cons.
    destruct (decide (marker_precedes_first_quote key l)) as [Hm|Hm].
    + apply shown_spec in Hm. unfold shown in Hm.
      repeat case_match; simplify_eq; by rewrite <- ?app_assoc.
    + rewrite <- shown_spec in Hm. unfold shown in Hm.
      repeat case_match; simplify_eq; try done.
Qed.

Lemma display_log_key_marker (fpath : string) :
  x00 ∉ bytes fpath → Z.of_nat (length (bytes fpath)) ≤ MAXF →
  display_log_key fpath = marker fpath.
Proof.
  intros Hnul Hlen. unfold display_log_key, marker, fmt_s, snprintf.
  rewrite c_str_id by done. apply take_ge.
  rewrite !length_app. change (length (bytes "File '")) with 6%nat.
  change (length (bytes "'")) with 1%nat. unfold MAXF, MAX in *. lia.
Qed.

End DisplayLog.

(** On a log that passes the check, [display_log] reads the lines [fgets]
    delivers; it prints them all, or those the filter keeps. *)
Lemma display_log_lines (σ : fs) (log : list byte) (fpath : string) :
  σ !! LOGF = Some log →
  verify_lines_ret (verify_lines log (LOGLEN - 2)) ≠ -1 →
  x00 ∉ bytes fpath → Z.of_nat (length (bytes fpath)) ≤ MAXF →
  ∃ lines,
    fgets_lines (S (length log)) (LOGLEN - 1) log = Some lines
    ∧ display_log None σ = Returned lines σ
    ∧ display_log (Some fpath) σ
      = Returned (filter (marker_precedes_first_quote (marker fpath)) lines) σ.
Proof.
  intros Hlog Hsafe Hnul Hlen.
  destruct (fgets_lines_total (S (length log)) (LOGLEN - 1) log) as [lines Hlines];
    [done|lia|].
  exists lines. split; [done|]. unfold display_log. unfold_monad.
  rewrite bool_decide_eq_true_2 by (rewrite Hlog; eauto). cbn [negb].
  rewrite Hlog. cbv beta iota.
  destruct (Z.eqb_spec (verify_lines_ret (verify_lines log (LOGLEN - 2))) (-1)); [done|].
  rewrite !while_fgets_lines, Hlines. cbn [fmap option_fmap option_map from_option].
  rewrite fold_display_all, fold_display_filtered, display_log_key_marker by done.
  done.
Qed.

(** A line that names the path only inside its quoted text is left out. *)
Example display_log_quoted_marker :
  display_log (Some "a.txt") {[ LOGF := entry_a ++ entry_b ]}
  = Returned [entry_a] {[ LOGF := entry_a ++ entry_b ]}.
Proof. by vm_compute. Qed.

(** ** The copying loops end *)

Section Termination.

Lemma incr_neq (n : Z) : incr n ≠ n.
Proof.
  unfold incr, size_t, size_t_modulus. intros H.
  pose proof (Z.mod_pos_bound (n + 1) (2 ^ 64) ltac:(lia)) as Hb.
  assert (0 ≤ n < 2 ^ 64) as Hn by lia.
  destruct (Z.eq_dec n (2 ^ 64 - 1)) as [->|Hne].
  - by vm_compute in H.
  - rewrite Z.mod_small in H by lia. lia.
Qed.

(** One pass of the loop of [ins_line] leaves [count] different from
    [lineno], and either ends the loop or shortens the stream, unless it
    entered with [count] equal to [lineno]. *)
Lemma ins_line_body_progress (line : list byte) (lineno : Z) (st : copy_state) :
  let st' := ins_line_body line lineno st in
  cs_count st' ≠ lineno
  ∧ (length (cs_fptr st') ≤ length (cs_fptr st))%nat
  ∧ (cs_count st ≠ lineno →
     cs_c st' = EOF ∨ (length (cs_fptr st') < length (cs_fptr st))%nat).
Proof.
  unfold ins_line_body. destruct st as [count c fptr temp]. cbn [cs_count cs_c cs_fptr cs_temp].
  destruct (Z.eqb_spec count lineno) as [->|Hne]; cbn [negb].
  - cbn [cs_count cs_c cs_fptr cs_temp]. rewrite Z.eqb_refl. cbn.
    split; [apply incr_neq|]. split; [lia|done].
  - destruct fptr as [|b fptr]; cbn [getc].
    + change (char_of_int EOF) with EOF. cbn [cs_count cs_c cs_fptr cs_temp Z.eqb negb].
      change (EOF =? NL) with false. cbn [cs_count].
      rewrite (proj2 (Z.eqb_neq count lineno)) by done. cbn. auto.
    + cbn [cs_count cs_c cs_fptr cs_temp].
      destruct ((if char_of_int (int_of_byte b) =? NL then incr count else count) =? lineno) eqn:E.
      * apply Z.eqb_eq in E. cbn [cs_count cs_c cs_fptr cs_temp length].
        rewrite E. split; [apply incr_neq|]. split; [lia|]. intros _. right. lia.
      * apply Z.eqb_neq in E. cbn [cs_count cs_c cs_fptr cs_temp length].
        split; [done|]. split; [lia|]. intros _. right. lia.
Qed.

Lemma ins_line_loop_total (fuel : nat) (line : list byte) (lineno : Z) (st : copy_state) :
  (length (cs_fptr st) + (if (cs_count st =? lineno)%Z then 1 else 0) < fuel)%nat →
  is_Some (ins_line_loop fuel line lineno st).
Proof.
  revert st. induction fuel as [|fuel IH]; intros st Hfuel; [lia|].
  cbn [ins_line_loop].
  destruct (ins_line_body_progress line lineno st) as (Hcount & Hle & Hprog).
  destruct (Z.eqb_spec (cs_c (ins_line_body line lineno st)) EOF) as [HEOF|HEOF];
    cbn [negb]; [by eexists|].
  apply IH. rewrite (proj2 (Z.eqb_neq _ _) Hcount).
  destruct (Z.eqb_spec (cs_count st) lineno) as [Heq|Hne]; [lia|].
  destruct (Hprog Hne); [done|lia].
Qed.

(** [ins_line] always gets a result from its loop. *)
Lemma ins_line_temp_total (c_indet : Z) (fptr line : list byte) (lineno : Z) :
  is_Some (ins_line_temp c_indet fptr line lineno).
Proof.
  unfold ins_line_temp. apply fmap_is_Some, ins_line_loop_total.
  cbn [cs_fptr cs_count]. destruct (1 =? lineno); lia.
Qed.

Lemma skip_line_progress (s : list byte) :
  (skip_line s).1 = EOF ∨ (length (skip_line s).2 < length s)%nat.
Proof.
  induction s as [|b s IH]; [by left|]. cbn [skip_line].
  destruct (negb (char_of_byte b =? NL) && negb (char_of_byte b =? EOF)).
  - destruct IH; [by left|right; simpl; lia].
  - right. simpl. lia.
Qed.

Lemma rep_line_body_progress (line : list byte) (lineno : Z) (st : copy_state) :
  let st' := rep_line_body line lineno st in
  cs_c st' = EOF ∨ (length (cs_fptr st') < length (cs_fptr st))%nat.
Proof.
  unfold rep_line_body. destruct st as [count c fptr temp]. cbn [cs_count cs_c cs_fptr cs_temp].
  destruct (Z.eqb_spec count lineno) as [->|Hne]; cbn [negb].
  - cbn [cs_count cs_c cs_fptr cs_temp]. rewrite Z.eqb_refl.
    destruct (skip_line_progress fptr) as [H|H];
      destruct (skip_line fptr) as [c' fptr']; cbn [cs_c cs_fptr fst snd] in *; auto.
  - destruct fptr as [|b fptr]; cbn [getc].
    + change (char_of_int EOF) with EOF. cbn [cs_count cs_c cs_fptr cs_temp].
      change (EOF =? NL) with false. cbn [cs_count].
      rewrite (proj2 (Z.eqb_neq count lineno)) by done. by left.
    + cbn [cs_count cs_c cs_fptr cs_temp].
      destruct ((if char_of_int (int_of_byte b) =? NL then incr count else count) =? lineno).
      * destruct (skip_line_progress fptr) as [H|H];
          destruct (skip_line fptr) as [c' fptr']; cbn [cs_c cs_fptr length fst snd] in *;
          [by left|right; lia].
      * right. cbn [cs_fptr length]. lia.
Qed.

Lemma rep_line_loop_total (fuel : nat) (line : list byte) (lineno : Z) (st : copy_state) :
  (length (cs_fptr st) < fuel)%nat → is_Some (rep_line_loop fuel line lineno st).
Proof.
  revert st. induction fuel as [|fuel IH]; intros st Hfuel; [lia|].
  cbn [rep_line_loop].
  destruct (rep_line_body_progress line lineno st) as [HEOF|Hlt].
  - rewrite HEOF. by eexists.
  - destruct (negb _); [|by eexists]. apply IH. lia.
Qed.

(** [rep_line] always gets a result from its loop. *)
Lemma rep_line_temp_total (fptr line : list byte) (lineno : Z) :
  is_Some (rep_line_temp fptr line lineno).
Proof.
  unfold rep_line_temp. apply fmap_is_Some, rep_line_loop_total. cbn [cs_fptr]. lia.
Qed.

End Termination.

(** ** No operation ends on [OutOfFuel] *)

Section Fuel.

Lemma while_fgets_total {A : Type} (n : Z) (body : A → list byte → A)
    (s : list byte) (a : A) :
  2 ≤ n → is_Some (while_fgets (S (length s)) n body s a).
Proof.
  intros Hn. rewrite while_fgets_lines. apply fmap_is_Some.
  apply fgets_lines_total; [done|lia].
Qed.

Lemma truncate_log_fuel (σ : fs) : ¬ fuel_failure (truncate_log σ).
Proof.
  intros [σ' H]. unfold truncate_log in H. unfold_monad.
  destruct (σ !! LOGF) as [log|]; [|done].
  destruct (while_fgets_total (LOGLEN - 1) truncate_log_body log
              (verify_lines_ret (verify_lines log (LOGLEN - 2)), [])) as [[logs temp] E];
    [done|].
  rewrite E in H. repeat (case_match; simplify_eq; try done).
Qed.

Lemma change_log_fuel (now : tm) (logstr : list byte) (σ : fs) :
  ¬ fuel_failure (change_log now logstr σ).
Proof. rewrite change_log_eq. apply truncate_log_fuel. Qed.

Lemma display_log_fuel (fpath : option string) (σ : fs) :
  ¬ fuel_failure (display_log fpath σ).
Proof.
  intros [σ' H]. unfold display_log in H. unfold_monad.
  cbv beta iota zeta in H. destruct (negb _); [done|].
  destruct (σ !! LOGF) as [log|] eqn:Elog; rewrite ?Elog in H; [|done].
  destruct (while_fgets_total (LOGLEN - 1)
              (display_log_body fpath (from_option display_log_key [] fpath)) log [])
    as [printed E]; [done|].
  rewrite E in H. by destruct (_ =? -1).
Qed.

Lemma append_line_fuel (now : tm) (fpath : string) (line : list byte) (σ : fs) :
  ¬ fuel_failure (append_line now fpath line σ).
Proof.
  intros H; revert H. unfold append_line, is_empty. unfold_monad.
  repeat case_match; simplify_eq; first [apply change_log_fuel | by intros [? ?]].
Qed.

Lemma del_line_fuel (now : tm) (fpath : string) (lineno : Z) (σ : fs) :
  ¬ fuel_failure (del_line now fpath lineno σ).
Proof.
  intros H; revert H. unfold del_line. unfold_monad.
  repeat case_match; simplify_eq; first [apply change_log_fuel | by intros [? ?]].
Qed.

Lemma ins_line_fuel (now : tm) (c_indet : Z) (fpath : string) (line : list byte)
    (lineno : Z) (σ : fs) :
  ¬ fuel_failure (ins_line now c_indet fpath line lineno σ).
Proof.
  intros H; revert H. unfold ins_line. unfold_monad.
  destruct (σ !! fpath) as [f|]; [|by intros [? ?]].
  destruct (ins_line_temp_total c_indet f line lineno) as [temp ->].
  repeat case_match; simplify_eq; first [apply change_log_fuel | by intros [? ?]].
Qed.

Lemma rep_line_fuel (now : tm) (fpath : string) (line : list byte)
    (lineno : Z) (σ : fs) :
  ¬ fuel_failure (rep_line now fpath line lineno σ).
Proof.
  intros H; revert H. unfold rep_line. unfold_monad.
  destruct (σ !! fpath) as [f|]; [|by intros [? ?]].
  destruct (rep_line_temp_total f line lineno) as [temp ->].
  repeat case_match; simplify_eq; first [apply change_log_fuel | by intros [? ?]].
Qed.

End Fuel.

(** ** Logs made of whole entries *)

Section WholeEntries.

Lemma size_t_small (z : Z) : 0 ≤ z < size_t_modulus → size_t z = z.
Proof. intros. unfold size_t. by apply Z.mod_small. Qed.

(** [verify_lines] on one terminated line that fits. *)
Lemma verify_lines_loop_line (max_val : Z) (text rest : list byte)
    (lines linelen : Z) (first : bool) :
  nl ∉ text → x00 ∉ text → xff ∉ text →
  0 ≤ lines → lines + (if first then 2 else 1) < size_t_modulus →
  0 ≤ linelen → linelen + Z.of_nat (length text) + 1 ≤ max_val → max_val < size_t_modulus →
  verify_lines_loop max_val (text ++ nl :: rest) (VState lines linelen first)
  = verify_lines_loop max_val rest (VState ((if first then lines + 1 else lines) + 1) 0 false).
Proof.
  revert lines linelen first.
  induction text as [|b text IH]; intros lines linelen first Hnl Hnul Hff Hl0 Hl1 Hn0 Hn1 Hmax.
  - cbn [app verify_lines_loop verify_lines_body].
    change (char_of_byte nl) with NL. change (NL =? EOF) with false.
    change (NL =? NL) with true. change (NL =? NUL) with false. cbn [negb andb].
    cbn [length] in Hn1.
    rewrite (incr_small linelen), (size_t_small max_val) by lia.
    destruct (Z.gtb_spec (linelen + 1) max_val); [lia|].
    destruct first; rewrite ?(incr_small lines) by lia; rewrite ?incr_small by lia; done.
  - apply not_elem_of_cons in Hnl as [Hnl1 Hnl], Hnul as [Hnul1 Hnul], Hff as [Hff1 Hff].
    cbn [app verify_lines_loop verify_lines_body].
    rewrite char_of_byte_eof, char_of_byte_nl, char_of_byte_nul.
    rewrite !bool_decide_eq_false_2 by done. cbn [negb andb].
    cbn [length] in Hn1. rewrite (incr_small linelen) by lia.
    destruct first.
    + rewrite (incr_small lines) by lia. rewrite IH by (done || lia). done.
    + rewrite IH by (done || lia). done.
Qed.

Lemma whole_entry_length (e : list byte) : whole_entry e → (0 < length e)%nat.
Proof. intros (text & -> & _). rewrite length_app. simpl. lia. Qed.

Lemma whole_entries_length (es : list (list byte)) :
  Forall whole_entry es → (length es ≤ length (concat es))%nat.
Proof.
  induction 1 as [|e es He _ IH]; [done|].
  apply whole_entry_length in He. cbn [concat length]. rewrite length_app. lia.
Qed.

Lemma verify_lines_loop_entries (es : list (list byte)) (rest : list byte)
    (lines : Z) (first : bool) :
  Forall whole_entry es → 0 ≤ lines →
  lines + Z.of_nat (length es) + (if first then 2 else 1) < size_t_modulus →
  verify_lines_loop (LOGLEN - 2) (concat es ++ rest) (VState lines 0 first)
  = verify_lines_loop (LOGLEN - 2) rest
      (VState (lines + Z.of_nat (length es)
               + (if first && bool_decide (es ≠ []) then 1 else 0))
         0 (first && bool_decide (es = []))).
Proof.
  intros Hes. revert lines first.
  induction Hes as [|e es (text & -> & Hnl & Hnul & Hff & Hlen) _ IH];
    intros lines first Hl0 Hl1.
  - cbn [concat app length]. rewrite andb_false_r, andb_true_r.
    by replace (lines + Z.of_nat 0 + 0) with lines by lia.
  - cbn [concat length] in *. rewrite <- !app_assoc. cbn [app].
    rewrite length_app in Hlen. cbn [length] in Hlen.
    rewrite verify_lines_loop_line; [|done|done|done|done| |done| |done].
    + rewrite IH by (destruct first; lia).
      rewrite (bool_decide_eq_true_2 (_ :: _ ≠ [])), (bool_decide_eq_false_2 (_ :: _ = []))
        by done.
      rewrite andb_true_r, andb_false_r. cbn [andb].
      f_equal. f_equal. destruct first; lia.
    + destruct first; lia.
    + lia.
Qed.

(** A log of whole entries passes the check; the count is one more than
    the number of entries, because of the empty segment after the last
    terminator. *)
Lemma verify_lines_entries (es : list (list byte)) :
  Forall whole_entry es → Z.of_nat (length es) < off_t_max →
  verify_lines (concat es) (LOGLEN - 2)
  = Verified (match es with [] => 0 | _ :: _ => Z.of_nat (length es) + 1 end).
Proof.
  intros Hes Hlen. unfold verify_lines.
  rewrite <- (app_nil_r (concat es)), verify_lines_loop_entries;
    [|done|done|unfold off_t_max, size_t_modulus in *; lia].
  destruct es; [done|]. rewrite bool_decide_eq_true_2 by done.
  cbn [verify_lines_loop verify_lines_body andb].
  change (char_of_int EOF) with EOF. cbn. f_equal; lia.
Qed.

Lemma verify_lines_ret_entries (es : list (list byte)) :
  Forall whole_entry es → Z.of_nat (length es) < off_t_max →
  verify_lines_ret (verify_lines (concat es) (LOGLEN - 2))
  = match es with [] => 0 | _ :: _ => Z.of_nat (length es) + 1 end.
Proof.
  intros Hes Hlen. rewrite verify_lines_entries by done.
  unfold verify_lines_ret, ssize_t, size_t_modulus, off_t_max in *.
  destruct es; [done|]. rewrite Z.mod_small by lia.
  destruct (Z.ltb_spec (Z.of_nat (length (l :: es)) + 1) (2 ^ 63)); lia.
Qed.

Lemma fgets_read_line (room : nat) (text rest : list byte) :
  nl ∉ text → (length text < room)%nat →
  fgets_read room (text ++ nl :: rest) = (text ++ [nl], rest).
Proof.
  revert room. induction text as [|b text IH]; intros room Hnl Hroom.
  - destruct room; [simpl in *; lia|]. done.
  - apply not_elem_of_cons in Hnl as [Hb Hnl].
    destruct room as [|room]; [simpl in *; lia|]. cbn [app fgets_read].
    rewrite byte_eqb_decide, bool_decide_eq_false_2 by done.
    rewrite IH by (done || simpl in *; lia). done.
Qed.

(** Read with the buffer of the log, a log of whole entries splits into
    its entries. *)
Lemma fgets_lines_entries (fuel : nat) (es : list (list byte)) :
  Forall whole_entry es → (length es < fuel)%nat →
  fgets_lines fuel (LOGLEN - 1) (concat es) = Some es.
Proof.
  intros Hes. revert fuel.
  induction Hes as [|e es (text & -> & Hnl & Hnul & Hff & Hlen) _ IH]; intros fuel Hfuel.
  - destruct fuel; [simpl in *; lia|]. done.
  - destruct fuel as [|fuel]; [lia|]. cbn [concat fgets_lines length] in *.
    rewrite <- app_assoc. cbn [app].
    rewrite length_app in Hlen. cbn [length] in Hlen. unfold fgets.
    destruct (text ++ nl :: concat es) eqn:E; [by destruct text|]. rewrite <- E.
    rewrite fgets_read_line; [|done|unfold LOGLEN in *; lia].
    rewrite IH by lia. cbn [fmap option_fmap option_map]. f_equal. f_equal.
    apply c_str_id. rewrite elem_of_app, elem_of_cons, elem_of_nil. intros [?|[?|?]]; done.
Qed.

Lemma fold_truncate_log_body (es : list (list byte)) (logs : Z) (temp : list byte) :
  (fold_left truncate_log_body es (logs, temp)).2
  = temp ++ concat (drop (Z.to_nat (logs - (CLOG_BUFFER - 10))) es).
Proof.
  revert logs temp. induction es as [|e es IH]; intros logs temp.
  - by rewrite drop_nil, app_nil_r.
  - cbn [fold_left truncate_log_body].
    destruct (Z.gtb_spec logs (CLOG_BUFFER - 10)) as [Hgt|Hle].
    + rewrite IH.
      replace (Z.to_nat (logs - (CLOG_BUFFER - 10)))
        with (S (Z.to_nat (logs - 1 - (CLOG_BUFFER - 10)))) by lia.
      done.
    + rewrite IH.
      replace (Z.to_nat (logs - (CLOG_BUFFER - 10))) with 0%nat by lia.
      cbn [drop concat]. by rewrite app_assoc.
Qed.

(** What retention does to a log of whole entries: below [CLOG_BUFFER]
    entries nothing is written; from [CLOG_BUFFER] entries on the log is
    cut down to its newest [CLOG_BUFFER - 11] entries, in their order. *)
Lemma truncate_log_whole_entries (σ : fs) (es : list (list byte)) :
  σ !! LOGF = Some (concat es) → Forall whole_entry es →
  Z.of_nat (length es) < off_t_max →
  (Z.of_nat (length es) < CLOG_BUFFER → truncate_log σ = Returned () σ)
  ∧ (CLOG_BUFFER ≤ Z.of_nat (length es) →
     state_of (truncate_log σ) !! LOGF
     = Some (concat (drop (length es - Z.to_nat (CLOG_BUFFER - 11)) es))).
Proof.
  intros Hlog Hes Hlen.
  pose proof (verify_lines_ret_entries es Hes Hlen) as Hret.
  split.
  - intros Hlt. apply (truncate_log_within_buffer_aux σ (concat es)); [done| |].
    + rewrite Hret. destruct es; lia.
    + rewrite Hret. destruct es; unfold CLOG_BUFFER in *; lia.
  - intros Hge. unfold truncate_log. unfold_monad. rewrite Hlog, Hret.
    destruct es as [|e es']; [unfold CLOG_BUFFER in *; simpl in *; lia|].
    set (es := e :: es') in *.
    destruct (Z.eqb_spec (Z.of_nat (length es) + 1) (-1)); [lia|].
    destruct (Z.gtb_spec (Z.of_nat (length es) + 1) CLOG_BUFFER); [|lia].
    rewrite while_fgets_lines, fgets_lines_entries;
      [|done|pose proof (whole_entries_length es Hes); lia].
    cbn [fmap option_fmap option_map].
    pose proof (fold_truncate_log_body es (Z.of_nat (length es) + 1) []) as Hfold.
    destruct (fold_left truncate_log_body es (Z.of_nat (length es) + 1, [])) as [logs temp].
    cbn [snd] in Hfold. subst temp.
    pose proof LOGF_neq_TEMPF.
    repeat (case_match; simplify_map_eq; try done).
    do 3 f_equal. unfold CLOG_BUFFER in *. lia.
Qed.

(** [display_log] on such a log: without a path every entry is printed,
    with a path the entries the filter of the specification keeps. *)
Lemma display_log_whole_entries (σ : fs) (es : list (list byte)) (fpath : string) :
  σ !! LOGF = Some (concat es) → Forall whole_entry es →
  Z.of_nat (length es) < off_t_max →
  x00 ∉ bytes fpath → Z.of_nat (length (bytes fpath)) ≤ MAXF →
  display_log None σ = Returned es σ
  ∧ display_log (Some fpath) σ
    = Returned (filter (marker_precedes_first_quote (marker fpath)) es) σ.
Proof.
  intros Hlog Hes Hlen Hnul Hpath.
  assert (verify_lines_ret (verify_lines (concat es) (LOGLEN - 2)) ≠ -1) as Hsafe.
  { rewrite verify_lines_ret_entries by done. destruct es; lia. }
  destruct (display_log_lines σ (concat es) fpath Hlog Hsafe Hnul Hpath)
    as (lines & Hread & -> & ->).
  rewrite fgets_lines_entries in Hread;
    [|done|pose proof (whole_entries_length es Hes); lia].
  by simplify_eq.
Qed.

End WholeEntries.

(** ** What the loop of [del_line] copies *)

Section DelLine.

Variable lineno : Z.
Hypothesis lineno_pos : 0 < lineno.
Hypothesis lineno_max : lineno + 1 < size_t_modulus.

Lemma del_line_loop_nil (st : Z * list byte) : del_line_loop lineno [] st = st.
Proof.
  destruct st as [count temp]. cbn [del_line_loop del_line_body].
  change (char_of_int EOF) with EOF. change (EOF =? NL) with false.
  change (EOF =? EOF) with true. cbn [negb]. by rewrite andb_false_r.
Qed.

(** Before the line: everything is copied, as long as [count] stays below
    [lineno]. *)
Lemma del_line_loop_before (s rest : list byte) (count : Z) (temp : list byte) :
  xff ∉ s → 0 ≤ count → count + terminators s < lineno →
  del_line_loop lineno (s ++ rest) (count, temp)
  = del_line_loop lineno rest (count + terminators s, temp ++ s).
Proof.
  revert count temp. induction s as [|b s IH]; intros count temp Hff Hc Hlt.
  - cbn [app]. unfold terminators. cbn. by rewrite Z.add_0_r, app_nil_r.
  - apply not_elem_of_cons in Hff as [Hb Hff].
    rewrite terminators_cons in Hlt |- *. pose proof (terminators_nonneg s).
    cbn [app del_line_loop del_line_body].
    rewrite char_of_byte_eof, char_of_byte_nl, (bool_decide_eq_false_2 (b = xff)) by done.
    rewrite (size_t_small (lineno + 1)) by lia. cbn [negb andb].
    case_bool_decide; [rewrite incr_small by lia|].
    + destruct (Z.eqb_spec (count + 1) lineno); [lia|].
      destruct (Z.eqb_spec (count + 1) (lineno + 1)); [lia|]. cbn [negb andb orb].
      rewrite uchar_of_char_of_byte, IH by (done || lia).
      by rewrite <- app_assoc, Z.add_assoc.
    + destruct (Z.eqb_spec count lineno); [lia|]. cbn [negb andb]. rewrite orb_true_r.
      rewrite uchar_of_char_of_byte, IH by (done || lia).
      by rewrite <- app_assoc.
Qed.

(** The terminator that ends line [lineno - 1] is not copied. *)
Lemma del_line_loop_enter (rest : list byte) (temp : list byte) :
  del_line_loop lineno (nl :: rest) (lineno - 1, temp)
  = del_line_loop lineno rest (lineno, temp).
Proof.
  cbn [del_line_loop del_line_body]. change (char_of_byte nl) with NL.
  change (NL =? NL) with true. change (NL =? EOF) with false.
  rewrite incr_small by lia. replace (lineno - 1 + 1) with lineno by lia.
  by rewrite Z.eqb_refl.
Qed.

(** The content of line [lineno] is not copied. *)
Lemma del_line_loop_skip (text rest : list byte) (temp : list byte) :
  nl ∉ text → xff ∉ text →
  del_line_loop lineno (text ++ rest) (lineno, temp)
  = del_line_loop lineno rest (lineno, temp).
Proof.
  induction text as [|b text IH]; intros Hnl Hff; [done|].
  apply not_elem_of_cons in Hnl as [Hb1 Hnl], Hff as [Hb2 Hff].
  cbn [app del_line_loop del_line_body].
  rewrite char_of_byte_eof, char_of_byte_nl, !bool_decide_eq_false_2 by done.
  rewrite Z.eqb_refl. cbn [negb andb]. by apply IH.
Qed.

(** Nor is the terminator that ends it. *)
Lemma del_line_loop_leave (rest : list byte) (temp : list byte) :
  del_line_loop lineno (nl :: rest) (lineno, temp)
  = del_line_loop lineno rest (lineno + 1, temp).
Proof.
  cbn [del_line_loop del_line_body]. change (char_of_byte nl) with NL.
  change (NL =? NL) with true. change (NL =? EOF) with false.
  rewrite incr_small, (size_t_small (lineno + 1)) by lia.
  destruct (Z.eqb_spec (lineno + 1) lineno); [lia|]. by rewrite Z.eqb_refl.
Qed.

(** After the line: everything is copied. *)
Lemma del_line_loop_after (s : list byte) (count : Z) (temp : list byte) :
  xff ∉ s → lineno < count → count + terminators s < size_t_modulus →
  del_line_loop lineno s (count, temp) = (count + terminators s, temp ++ s).
Proof.
  revert count temp. induction s as [|b s IH]; intros count temp Hff Hc Hlt.
  - rewrite del_line_loop_nil. unfold terminators. cbn. by rewrite Z.add_0_r, app_nil_r.
  - apply not_elem_of_cons in Hff as [Hb Hff].
    rewrite terminators_cons in Hlt |- *. pose proof (terminators_nonneg s).
    cbn [del_line_loop del_line_body].
    rewrite char_of_byte_eof, char_of_byte_nl, (bool_decide_eq_false_2 (b = xff)) by done.
    rewrite (size_t_small (lineno + 1)) by lia. cbn [negb andb].
    case_bool_decide; [rewrite incr_small by lia|].
    + destruct (Z.eqb_spec (count + 1) lineno); [lia|].
      destruct (Z.eqb_spec (count + 1) (lineno + 1)); [lia|]. cbn [negb andb orb].
      rewrite uchar_of_char_of_byte, IH by (done || lia).
      by rewrite <- app_assoc, Z.add_assoc.
    + destruct (Z.eqb_spec count lineno); [lia|]. cbn [negb andb]. rewrite orb_true_r.
      rewrite uchar_of_char_of_byte, IH by (done || lia).
      by rewrite <- app_assoc.
Qed.

End DelLine.

(** Deleting the first line removes its content and its terminator. *)
Lemma del_line_temp_first (text post : list byte) :
  nl ∉ text → xff ∉ text → xff ∉ post → Z.of_nat (length post) ≤ off_t_max →
  del_line_temp (text ++ nl :: post) 1 = post.
Proof.
  intros Hnl Hff Hpost Hlen. unfold del_line_temp.
  pose proof (terminators_le_length post). pose proof (terminators_nonneg post).
  rewrite del_line_loop_skip, del_line_loop_leave, del_line_loop_after;
    unfold size_t_modulus, off_t_max in *; done || lia.
Qed.

(** Deleting the last line removes its content and the terminator before
    it. *)
Lemma del_line_temp_last (pre text : list byte) :
  xff ∉ pre → nl ∉ text → xff ∉ text → Z.of_nat (length pre) < off_t_max →
  del_line_temp (pre ++ nl :: text) (terminators pre + 2) = pre.
Proof.
  intros Hpre Hnl Hff Hlen. unfold del_line_temp.
  pose proof (terminators_le_length pre). pose proof (terminators_nonneg pre).
  rewrite del_line_loop_before by (unfold size_t_modulus, off_t_max in *; done || lia).
  replace (1 + terminators pre) with (terminators pre + 2 - 1) by lia.
  rewrite del_line_loop_enter by (unfold size_t_modulus, off_t_max in *; lia).
  rewrite <- (app_nil_r text), del_line_loop_skip by done.
  by rewrite del_line_loop_nil.
Qed.

(** Deleting a line between two others removes its content and both
    terminators around it: its neighbours end up on one line. *)
Lemma del_line_temp_middle (pre text post : list byte) :
  xff ∉ pre → nl ∉ text → xff ∉ text → xff ∉ post →
  Z.of_nat (length pre + length post) < off_t_max →
  del_line_temp (pre ++ nl :: text ++ nl :: post) (terminators pre + 2) = pre ++ post.
Proof.
  intros Hpre Hnl Hff Hpost Hlen. unfold del_line_temp.
  pose proof (terminators_le_length pre). pose proof (terminators_nonneg pre).
  pose proof (terminators_le_length post). pose proof (terminators_nonneg post).
  rewrite del_line_loop_before by (unfold size_t_modulus, off_t_max in *; done || lia).
  replace (1 + terminators pre) with (terminators pre + 2 - 1) by lia.
  rewrite del_line_loop_enter by (unfold size_t_modulus, off_t_max in *; lia).
  rewrite del_line_loop_skip, del_line_loop_leave, del_line_loop_after;
    unfold size_t_modulus, off_t_max in *; done || lia.
Qed.

(** ** Scenarios of the specification *)

(** Inserting X at line 2 of the lines one, two, three. *)
Example ins_line_scenario :
  state_of (ins_line epoch 0 "a.txt" (bytes "X") 2
              {[ "a.txt" := bytes "one" ++ [nl] ++ bytes "two" ++ [nl] ++ bytes "three" ]})
    !! "a.txt"
  = Some (bytes "one" ++ [nl] ++ bytes "X" ++ [nl] ++ bytes "two" ++ [nl] ++ bytes "three").
Proof. by vm_compute. Qed.

(** An empty file has no line, and the text appended to it gets no
    terminator in front. *)
Example append_line_scenario :
  count_lines [] = 0
  ∧ state_of (append_line epoch "e.txt" (bytes "hi") {[ "e.txt" := [] ]}) !! "e.txt"
    = Some (bytes "hi").
Proof. split; by vm_compute. Qed.

(** Deleting past the last line fails and leaves the file as it was. *)
Example del_line_scenario :
  del_line epoch "f" 3 {[ "f" := file_ab ]} = Exited LineOutOfRange {[ "f" := file_ab ]}.
Proof. reflexivity. Qed.

(** * Where the code departs from its description *)

(** C1.  Deleting line 2 of the three lines a, b, c leaves the single line
    ac: the terminator before the deleted line is dropped together with
    the one after it, and the count falls by two.  [del_line_temp_middle]
    shows the same for every line between two others, and
    [del_line_temp_first] and [del_line_temp_last] that the first and the
    last line are deleted as described. *)
Theorem del_line_middle_line_merges_neighbours :
  count_lines file_abc = 3
  ∧ state_of (del_line epoch "f" 2 {[ "f" := file_abc ]}) !! "f" = Some (bytes "ac")
  ∧ count_lines (bytes "ac") = 1.
Proof. repeat split; by vm_compute. Qed.

(** C2.  Inserting X at line 2 of the lines a, b gives a, X, b; deleting
    line 2 again gives the single line ab, not the original file. *)
Theorem ins_line_del_line_not_inverse :
  state_of (ins_line epoch 0 "f" (bytes "X") 2 {[ "f" := file_ab ]}) !! "f"
  = Some (bytes "a" ++ [nl] ++ bytes "X" ++ [nl] ++ bytes "b")
  ∧ state_of (del_line epoch "f" 2
                (state_of (ins_line epoch 0 "f" (bytes "X") 2 {[ "f" := file_ab ]}))) !! "f"
    = Some (bytes "ab").
Proof. split; by vm_compute. Qed.

(** C3.  Replacing line 1 of the lines a, b by X writes X, the
    terminator, b, and then one more byte, 0xFF: the end-of-file value is
    handed to [fputc] like a character read. *)
Theorem rep_line_writes_eof_byte :
  state_of (rep_line epoch "f" (bytes "X") 1 {[ "f" := file_ab ]}) !! "f"
  = Some (bytes "X" ++ [nl] ++ bytes "b" ++ [xff]).
Proof. by vm_compute. Qed.

(** C7.  Appending entry 201 to a log of 200 entries leaves entries 13 to
    201, that is 189 entries; and appending entry 200 to a log of 199
    entries, which does not bring the log above [CLOG_BUFFER], already
    cuts it down to entries 12 to 200.  [truncate_log_whole_entries] has
    the general statement. *)
Theorem change_log_retains_189_entries :
  state_of (change_log epoch (fmt_lu 201) {[ LOGF := sample_log 1 200 ]}) !! LOGF
  = Some (sample_log 13 189)
  ∧ state_of (change_log epoch (fmt_lu 200) {[ LOGF := sample_log 1 199 ]}) !! LOGF
    = Some (sample_log 12 189)
  ∧ terminators (sample_log 13 189) = CLOG_BUFFER - 11.
Proof. repeat split; by vm_compute. Qed.

(** C8.  A last line of three bytes without terminator passes the check
    for lines of at most two bytes. *)
Theorem verify_lines_accepts_long_last_line :
  verify_lines (bytes "aaa") 2 = Verified 1
  ∧ verify_lines (bytes "aaa" ++ [nl]) 2 = LineTooLong 1 2.
Proof. split; by vm_compute. Qed.

(** ** Slips the amended statements leave out *)

(** The scan of [count_lines] stops at a byte 0xFF, which the [char] it
    is read into cannot tell from [EOF]: the terminator after it is not
    counted. *)
Example count_lines_stops_at_0xff :
  count_lines (bytes "a" ++ [xff; nl] ++ bytes "b") = 1.
Proof. reflexivity. Qed.

(** [is_empty] answers 1 for a file of one byte, so the appended text
    lands on the same line. *)
Example append_line_one_byte_file :
  state_of (append_line epoch "f" (bytes "X") {[ "f" := bytes "a" ]}) !! "f"
  = Some (bytes "aX").
Proof. by vm_compute. Qed.

(** Line number 0 passes the range check; [del_line] then copies the file
    as it is. *)
Example del_line_accepts_line_0 :
  state_of (del_line epoch "f" 0 {[ "f" := file_ab ]}) !! "f" = Some file_ab.
Proof. by vm_compute. Qed.
(** * Further properties of the operations *)

(** ** The rewrite protocol: scratch file, remove, rename *)

Section Protocol.

(** The map the protocol leaves: the target holds what was written to the
    scratch file, and the scratch file is gone. *)
Lemma rewrite_protocol (temp : list byte) (k : M unit) (σ : fs) (fpath : string)
    (f : list byte) :
  σ !! fpath = Some f → fpath ≠ TEMPF →
  (Sys.fopen_w TEMPF;; Sys.fclose_w TEMPF temp;; Sys.remove fpath;;
   Sys.rename TEMPF fpath;; k) σ
  = k (<[fpath := temp]> (delete TEMPF σ)).
Proof.
  intros Hf Hne. unfold_monad.
  rewrite lookup_insert_eq. cbn [default app].
  rewrite insert_insert_eq, lookup_insert_ne, Hf by done.
  rewrite lookup_delete_ne, lookup_insert_eq by done.
  f_equal. apply map_eq. intros p.
  destruct (decide (p = fpath)) as [->|]; [by rewrite !lookup_insert_eq|].
  rewrite !lookup_insert_ne by done.
  destruct (decide (p = TEMPF)) as [->|]; [by rewrite !lookup_delete_eq|].
  by rewrite !lookup_delete_ne, lookup_insert_ne by done.
Qed.

(** The log operations leave no scratch file behind. *)
Lemma truncate_log_scratch (σ : fs) :
  σ !! TEMPF = None → state_of (truncate_log σ) !! TEMPF = None.
Proof.
  intros Hnone. unfold truncate_log. unfold_monad.
  destruct (σ !! LOGF) as [log|] eqn:Hlog; [|done].
  destruct (while_fgets_total (LOGLEN - 1) truncate_log_body log
              (verify_lines_ret (verify_lines log (LOGLEN - 2)), [])) as [[logs temp] E];
    [done|].
  rewrite E. pose proof LOGF_neq_TEMPF.
  repeat (case_match; simplify_map_eq; try done).
Qed.

Lemma change_log_scratch (now : tm) (logstr : list byte) (σ : fs) :
  σ !! TEMPF = None → state_of (change_log now logstr σ) !! TEMPF = None.
Proof.
  intros Hnone. rewrite change_log_eq. apply truncate_log_scratch.
  rewrite lookup_insert_ne; [done|apply LOGF_neq_TEMPF].
Qed.

(** What a rewriting operation leaves once its new content [temp] is
    written and logged. *)
Lemma rewritten_state (now : tm) (logstr temp : list byte) (σ : fs) (fpath : string) :
  fpath ≠ LOGF → fpath ≠ TEMPF →
  let σ' := state_of (change_log now logstr (<[fpath := temp]> (delete TEMPF σ))) in
  σ' !! fpath = Some temp
  ∧ σ' !! TEMPF = None
  ∧ ∀ p, p ≠ fpath → p ≠ LOGF → p ≠ TEMPF → σ' !! p = σ !! p.
Proof.
  intros H1 H2 σ'. subst σ'. split; [|split].
  - rewrite change_log_frame by done. apply lookup_insert_eq.
  - apply change_log_scratch. rewrite lookup_insert_ne by done. apply lookup_delete_eq.
  - intros p Hp1 Hp2 Hp3. rewrite change_log_frame by done.
    by rewrite lookup_insert_ne, lookup_delete_ne.
Qed.

End Protocol.

(** ** [del_line] on the file system *)

Section DelLineState.

Variable now : tm.
Variables (σ : fs) (fpath : string).
Hypothesis not_log : fpath ≠ LOGF.
Hypothesis not_scratch : fpath ≠ TEMPF.

Lemma bind_fopen_r {A : Type} (what : string) (k : list byte → M A) (f : list byte) :
  σ !! fpath = Some f → (Sys.fopen_r what fpath ≫= k) σ = k f σ.
Proof. intros Hf. unfold_monad. by rewrite Hf. Qed.

(** Past its range check [del_line] replaces the file by what its loop
    wrote. *)
Lemma del_line_rewrites (f : list byte) (lineno : Z) :
  σ !! fpath = Some f → lineno ≤ count_lines f →
  rewritten σ (state_of (del_line now fpath lineno σ)) fpath (del_line_temp f lineno).
Proof.
  intros Hf Hle. unfold del_line. rewrite (bind_fopen_r _ _ f Hf). cbv zeta.
  destruct (Z.gtb_spec lineno (count_lines f)); [lia|].
  rewrite (rewrite_protocol _ _ σ fpath f) by done.
  by apply rewritten_state.
Qed.

End DelLineState.

Lemma del_line_first_line_state (now : tm) (σ : fs) (fpath : string) (text post : list byte) :
  σ !! fpath = Some (text ++ nl :: post) → fpath ≠ LOGF → fpath ≠ TEMPF →
  nl ∉ text → xff ∉ text → xff ∉ post →
  Z.of_nat (length text + length post) < off_t_max →
  rewritten σ (state_of (del_line now fpath 1 σ)) fpath post.
Proof.
  intros Hf H1 H2 Hnl Hff Hpost Hlen.
  rewrite <- (del_line_temp_first text post) by (done || lia).
  apply del_line_rewrites; [done|done|done|].
  rewrite count_lines_terminators.
  - destruct (text ++ nl :: post) as [|b l] eqn:E; [by destruct text|].
    pose proof (terminators_nonneg (b :: l)). lia.
  - rewrite elem_of_app, elem_of_cons. intros [?|[?|?]]; done.
  - rewrite length_app. cbn [length]. lia.
Qed.

(** X1.  [del_line] at line 1 of a file whose first line ends in a
    terminator removes that line and its terminator and nothing else. *)
Theorem del_line_first_line (now : tm) (σ : fs) (fpath : string) (text post : list byte) :
  σ !! fpath = Some (text ++ nl :: post) → fpath ≠ LOGF → fpath ≠ TEMPF →
  nl ∉ text → xff ∉ text → xff ∉ post →
  Z.of_nat (length text + length post) < off_t_max →
  rewritten σ (state_of (del_line now fpath 1 σ)) fpath post.
Proof. apply del_line_first_line_state. Qed.

Lemma del_line_first_line_witness :
  rewritten {[ "f" := file_abc ]} (state_of (del_line epoch "f" 1 {[ "f" := file_abc ]}))
    "f" (bytes "b" ++ [nl] ++ bytes "c").
Proof.
  apply (del_line_first_line epoch {[ "f" := file_abc ]} "f" (bytes "a")
           (bytes "b" ++ [nl] ++ bytes "c")).
  - apply lookup_singleton_eq.
  - done.
  - done.
  - apply (bool_decide_unpack _). by vm_compute.
  - apply (bool_decide_unpack _). by vm_compute.
  - apply (bool_decide_unpack _). by vm_compute.
  - by vm_compute.
Defined.

Lemma del_line_last_line_state (now : tm) (σ : fs) (fpath : string) (pre text : list byte) :
  σ !! fpath = Some (pre ++ nl :: text) → fpath ≠ LOGF → fpath ≠ TEMPF →
  xff ∉ pre → nl ∉ text → xff ∉ text →
  Z.of_nat (length pre + length text) < off_t_max →
  rewritten σ (state_of (del_line now fpath (terminators pre + 2) σ)) fpath pre.
Proof.
  intros Hf H1 H2 Hpre Hnl Hff Hlen.
  pose proof (del_line_temp_last pre text Hpre Hnl Hff ltac:(lia)) as Htemp.
  rewrite <- Htemp at 2. clear Htemp.
  apply del_line_rewrites; [done|done|done|].
  rewrite count_lines_terminators.
  - rewrite terminators_app, terminators_cons, (terminators_none text) by done.
    rewrite bool_decide_eq_true_2 by done. destruct pre; cbn [app]; lia.
  - rewrite elem_of_app, elem_of_cons. intros [?|[?|?]]; done.
  - rewrite length_app. cbn [length]. lia.
Qed.

(** X2.  For a file free of the byte 0xFF (not the log or the scratch
    file, within the size off_t allows) that holds at least one
    terminator: del_line at the last line, that is at the number of
    terminators plus one, the last line being what follows the last
    terminator (it may be empty), removes that line and the terminator
    before it: the file becomes exactly the bytes that preceded that
    terminator. No scratch file is left and no file other than the edited
    one and the log changes. *)
Theorem del_line_last_line (now : tm) (σ : fs) (fpath : string) (pre text : list byte) :
  σ !! fpath = Some (pre ++ nl :: text) → fpath ≠ LOGF → fpath ≠ TEMPF →
  xff ∉ pre → nl ∉ text → xff ∉ text →
  Z.of_nat (length pre + length text) < off_t_max →
  rewritten σ (state_of (del_line now fpath (terminators pre + 2) σ)) fpath pre.
Proof. apply del_line_last_line_state. Qed.

Lemma del_line_last_line_witness :
  rewritten {[ "f" := file_abc ]} (state_of (del_line epoch "f" 3 {[ "f" := file_abc ]}))
    "f" file_ab.
Proof.
  apply (del_line_last_line epoch {[ "f" := file_abc ]} "f" file_ab (bytes "c")).
  - apply lookup_singleton_eq.
  - done.
  - done.
  - apply (bool_decide_unpack _). by vm_compute.
  - apply (bool_decide_unpack _). by vm_compute.
  - apply (bool_decide_unpack _). by vm_compute.
  - by vm_compute.
Defined.

Lemma del_line_inner_line_state (now : tm) (σ : fs) (fpath : string) (pre text post : list byte) :
  σ !! fpath = Some (pre ++ nl :: text ++ nl :: post) → fpath ≠ LOGF → fpath ≠ TEMPF →
  xff ∉ pre → nl ∉ text → xff ∉ text → xff ∉ post →
  Z.of_nat (length pre + length text + length post) < off_t_max - 1 →
  rewritten σ (state_of (del_line now fpath (terminators pre + 2) σ)) fpath (pre ++ post).
Proof.
  intros Hf H1 H2 Hpre Hnl Hff Hpost Hlen.
  pose proof (del_line_temp_middle pre text post Hpre Hnl Hff Hpost ltac:(lia)) as Htemp.
  rewrite <- Htemp. clear Htemp.
  apply del_line_rewrites; [done|done|done|].
  pose proof (terminators_nonneg post).
  rewrite count_lines_terminators.
  - change (nl :: text ++ nl :: post) with ([nl] ++ text ++ [nl] ++ post).
    rewrite !terminators_app, (terminators_none text) by done.
    change (terminators [nl]) with 1. destruct pre; cbn [app]; lia.
  - rewrite elem_of_app, elem_of_cons, elem_of_app, elem_of_cons.
    intros [?|[?|[?|[?|?]]]]; done.
  - rewrite length_app. cbn [length]. rewrite length_app. cbn [length]. lia.
Qed.

(** X3.  For a file free of the byte 0xFF (not the log or the scratch
    file, within the size off_t allows): del_line at a line that has a
    terminator before it and a terminator after it, that is at number k +
    2 in a file pre \n text \n post where pre holds k terminators and text
    holds none, removes the line and BOTH terminators around it: the file
    becomes pre post, so the two neighbouring lines end up joined. No
    scratch file is left and no file other than the edited one and the log
    changes. *)
Theorem del_line_inner_line (now : tm) (σ : fs) (fpath : string) (pre text post : list byte) :
  σ !! fpath = Some (pre ++ nl :: text ++ nl :: post) → fpath ≠ LOGF → fpath ≠ TEMPF →
  xff ∉ pre → nl ∉ text → xff ∉ text → xff ∉ post →
  Z.of_nat (length pre + length text + length post) < off_t_max - 1 →
  rewritten σ (state_of (del_line now fpath (terminators pre + 2) σ)) fpath (pre ++ post).
Proof. apply del_line_inner_line_state. Qed.

Lemma del_line_inner_line_witness :
  rewritten {[ "f" := file_abc ]} (state_of (del_line epoch "f" 2 {[ "f" := file_abc ]}))
    "f" (bytes "a" ++ bytes "c").
Proof.
  apply (del_line_inner_line epoch {[ "f" := file_abc ]} "f" (bytes "a") (bytes "b")
           (bytes "c")).
  - apply lookup_singleton_eq.
  - done.
  - done.
  - apply (bool_decide_unpack _). by vm_compute.
  - apply (bool_decide_unpack _). by vm_compute.
  - apply (bool_decide_unpack _). by vm_compute.
  - apply (bool_decide_unpack _). by vm_compute.
  - by vm_compute.
Defined.

(** ** What the loop of [ins_line] writes *)

Section InsLine.

Variable line : list byte.
Variable lineno : Z.
Hypothesis lineno_pos : 0 < lineno.
Hypothesis lineno_max : lineno + 1 < size_t_modulus.

(** A pass that reads does not look at the value [c] had. *)
Lemma ins_line_body_c (count c c' : Z) (s temp : list byte) :
  count ≠ lineno →
  ins_line_body line lineno (CState count c s temp)
  = ins_line_body line lineno (CState count c' s temp).
Proof.
  intros Hne. unfold ins_line_body. cbn [cs_count cs_c cs_fptr cs_temp].
  by rewrite (proj2 (Z.eqb_neq count lineno)) by done.
Qed.

Lemma ins_line_loop_c (fuel : nat) (count c c' : Z) (s temp : list byte) :
  count ≠ lineno →
  ins_line_loop fuel line lineno (CState count c s temp)
  = ins_line_loop fuel line lineno (CState count c' s temp).
Proof.
  intros Hne. destruct fuel as [|fuel]; [done|]. cbn [ins_line_loop].
  by rewrite (ins_line_body_c count c c').
Qed.

(** A pass that reads a byte other than 0xFF. *)
Lemma ins_line_body_read (count c : Z) (b : byte) (s temp : list byte) :
  count ≠ lineno → b ≠ xff →
  ins_line_body line lineno (CState count c (b :: s) temp)
  = (if (if bool_decide (b = nl) then incr count else count) =? lineno
     then CState (incr lineno) (char_of_byte b) s (temp ++ [b] ++ fmt_s line ++ [nl])
     else CState (if bool_decide (b = nl) then incr count else count)
            (char_of_byte b) s (temp ++ [b])).
Proof.
  intros Hne Hb. unfold ins_line_body. cbn [cs_count cs_c cs_fptr cs_temp getc].
  rewrite (proj2 (Z.eqb_neq count lineno)) by done. cbn [negb].
  fold (char_of_byte b).
  rewrite char_of_byte_eof, char_of_byte_nl, (bool_decide_eq_false_2 (b = xff)) by done.
  cbn [negb cs_count cs_c cs_fptr cs_temp]. rewrite uchar_of_char_of_byte.
  destruct (Z.eqb_spec (if bool_decide (b = nl) then incr count else count) lineno) as [->|];
    [|done].
  by rewrite <- app_assoc.
Qed.

(** A pass at the end of the file. *)
Lemma ins_line_body_eof (count c : Z) (temp : list byte) :
  count ≠ lineno →
  ins_line_body line lineno (CState count c [] temp) = CState count EOF [] temp.
Proof.
  intros Hne. unfold ins_line_body. cbn [cs_count cs_c cs_fptr cs_temp getc].
  rewrite (proj2 (Z.eqb_neq count lineno)) by done. cbn [negb].
  change (char_of_int EOF) with EOF. change (EOF =? EOF) with true.
  change (EOF =? NL) with false. cbn [negb cs_count].
  by rewrite (proj2 (Z.eqb_neq count lineno)) by done.
Qed.

(** Before the line: every byte is copied. *)
Lemma ins_line_loop_before (s rest : list byte) (fuel : nat) (count c : Z)
    (temp : list byte) :
  xff ∉ s → 0 ≤ count → count + terminators s < lineno →
  ins_line_loop (length s + fuel) line lineno (CState count c (s ++ rest) temp)
  = ins_line_loop fuel line lineno (CState (count + terminators s) c rest (temp ++ s)).
Proof.
  revert count c temp. induction s as [|b s IH]; intros count c temp Hff Hc Hlt.
  - cbn [app length Nat.add]. unfold terminators. cbn. by rewrite Z.add_0_r, app_nil_r.
  - apply not_elem_of_cons in Hff as [Hb Hff].
    rewrite terminators_cons in Hlt |- *. pose proof (terminators_nonneg s).
    cbn [app length Nat.add ins_line_loop].
    assert (count ≠ lineno) by (case_bool_decide; lia).
    rewrite ins_line_body_read by done.
    case_bool_decide; rewrite ?incr_small by lia.
    + destruct (Z.eqb_spec (count + 1) lineno); [lia|]. cbn [cs_c].
      rewrite char_of_byte_eof, (bool_decide_eq_false_2 (b = xff)) by done. cbn [negb].
      rewrite IH by (done || lia).
      rewrite <- app_assoc, Z.add_assoc. apply ins_line_loop_c. lia.
    + destruct (Z.eqb_spec count lineno); [lia|]. cbn [cs_c].
      rewrite char_of_byte_eof, (bool_decide_eq_false_2 (b = xff)) by done. cbn [negb].
      rewrite IH by (done || lia).
      rewrite <- app_assoc. apply ins_line_loop_c. lia.
Qed.

(** The terminator that ends line [lineno - 1] is copied, and the text
    and a terminator are written after it. *)
Lemma ins_line_loop_insert (rest : list byte) (fuel : nat) (c : Z) (temp : list byte) :
  ins_line_loop (S fuel) line lineno (CState (lineno - 1) c (nl :: rest) temp)
  = ins_line_loop fuel line lineno
      (CState (lineno + 1) NL rest (temp ++ [nl] ++ fmt_s line ++ [nl])).
Proof.
  cbn [ins_line_loop]. rewrite ins_line_body_read by (done || lia).
  rewrite bool_decide_eq_true_2, incr_small by (done || lia).
  replace (lineno - 1 + 1) with lineno by lia. rewrite Z.eqb_refl.
  cbn [cs_c]. change (char_of_byte nl) with NL. change (NL =? EOF) with false.
  cbn [negb]. by rewrite incr_small by lia.
Qed.

(** After the line: every byte is copied, and the loop ends at the end of
    the file. *)
Lemma ins_line_loop_after (s : list byte) (fuel : nat) (count c : Z) (temp : list byte) :
  xff ∉ s → lineno < count → count + terminators s < size_t_modulus →
  ins_line_loop (length s + S fuel) line lineno (CState count c s temp)
  = Some (CState (count + terminators s) EOF [] (temp ++ s)).
Proof.
  revert count c temp. induction s as [|b s IH]; intros count c temp Hff Hc Hlt.
  - cbn [length Nat.add ins_line_loop]. rewrite ins_line_body_eof by lia.
    cbn [cs_c]. change (EOF =? EOF) with true. cbn [negb].
    unfold terminators. cbn. by rewrite Z.add_0_r, app_nil_r.
  - apply not_elem_of_cons in Hff as [Hb Hff].
    rewrite terminators_cons in Hlt |- *. pose proof (terminators_nonneg s).
    cbn [length Nat.add ins_line_loop].
    rewrite ins_line_body_read by (done || lia).
    case_bool_decide; rewrite ?incr_small by lia.
    + destruct (Z.eqb_spec (count + 1) lineno); [lia|]. cbn [cs_c].
      rewrite char_of_byte_eof, (bool_decide_eq_false_2 (b = xff)) by done. cbn [negb].
      rewrite IH by (done || lia). by rewrite <- app_assoc, Z.add_assoc.
    + destruct (Z.eqb_spec count lineno); [lia|]. cbn [cs_c].
      rewrite char_of_byte_eof, (bool_decide_eq_false_2 (b = xff)) by done. cbn [negb].
      rewrite IH by (done || lia). by rewrite <- app_assoc.
Qed.

End InsLine.

(** At line 2 or later: the text becomes a line of its own between the
    line before and the line that was at that position. *)
Lemma ins_line_temp_inner (c_indet : Z) (pre rest line : list byte) :
  xff ∉ pre → xff ∉ rest → Z.of_nat (length pre + length rest) < off_t_max - 1 →
  ins_line_temp c_indet (pre ++ nl :: rest) line (terminators pre + 2)
  = Some (pre ++ [nl] ++ fmt_s line ++ [nl] ++ rest).
Proof.
  intros Hpre Hrest Hlen. unfold ins_line_temp.
  pose proof (terminators_le_length pre). pose proof (terminators_nonneg pre).
  pose proof (terminators_le_length rest). pose proof (terminators_nonneg rest).
  assert (terminators pre + 2 + 1 < size_t_modulus)
    by (unfold off_t_max, size_t_modulus in *; lia).
  replace (S (S (length (pre ++ nl :: rest))))
    with (length pre + S (length rest + 2))%nat by (rewrite length_app; simpl; lia).
  rewrite ins_line_loop_before by (done || lia).
  replace (1 + terminators pre) with (terminators pre + 2 - 1) by lia.
  rewrite ins_line_loop_insert by lia.
  rewrite ins_line_loop_after by (done || unfold off_t_max, size_t_modulus in *; lia).
  cbn [fmap option_fmap option_map cs_temp]. by rewrite !app_nil_l, <- !app_assoc.
Qed.

Lemma ins_line_loop_step (fuel : nat) (line : list byte) (lineno : Z) (st : copy_state) :
  ins_line_loop (S fuel) line lineno st
  = if negb (cs_c (ins_line_body line lineno st) =? EOF)
    then ins_line_loop fuel line lineno (ins_line_body line lineno st)
    else Some (ins_line_body line lineno st).
Proof. done. Qed.

(** A pass entered with [count] equal to [lineno] reads nothing. *)
Lemma ins_line_body_at (line : list byte) (lineno c : Z) (s temp : list byte) :
  ins_line_body line lineno (CState lineno c s temp)
  = CState (incr lineno) c s (temp ++ fmt_s line ++ [nl]).
Proof.
  unfold ins_line_body. cbn [cs_count cs_c cs_fptr cs_temp].
  rewrite Z.eqb_refl. cbn [negb cs_count cs_c cs_fptr cs_temp]. by rewrite Z.eqb_refl.
Qed.

(** At line 1, when the indeterminate [c] is not [EOF]: the text becomes
    the first line. *)
Lemma ins_line_temp_first (c_indet : Z) (f line : list byte) :
  c_indet ≠ EOF → xff ∉ f → Z.of_nat (length f) < off_t_max →
  ins_line_temp c_indet f line 1 = Some (fmt_s line ++ [nl] ++ f).
Proof.
  intros Hc Hff Hlen. unfold ins_line_temp.
  pose proof (terminators_le_length f). pose proof (terminators_nonneg f).
  rewrite ins_line_loop_step, ins_line_body_at. cbn [cs_c].
  rewrite (proj2 (Z.eqb_neq c_indet EOF)) by done. cbn [negb].
  change (incr 1) with 2.
  replace (S (length f)) with (length f + 1)%nat by lia.
  rewrite ins_line_loop_after by (done || unfold off_t_max, size_t_modulus in *; lia).
  cbn [fmap option_fmap option_map cs_temp]. by rewrite !app_nil_l, <- !app_assoc.
Qed.

(** At line 1, when the indeterminate [c] happens to be [EOF]: the loop
    ends after the text, and nothing of the file is copied. *)
Lemma ins_line_temp_first_eof (f line : list byte) :
  ins_line_temp EOF f line 1 = Some (fmt_s line ++ [nl]).
Proof. unfold ins_line_temp. by rewrite ins_line_loop_step, ins_line_body_at. Qed.

(** ** [ins_line] on the file system *)

Section InsLineState.

Variable now : tm.
Variables (σ : fs) (fpath : string).
Hypothesis not_log : fpath ≠ LOGF.
Hypothesis not_scratch : fpath ≠ TEMPF.

(** Past its range check [ins_line] replaces the file by what its loop
    wrote. *)
Lemma ins_line_rewrites (c_indet : Z) (f line temp : list byte) (lineno : Z) :
  σ !! fpath = Some f → lineno ≤ count_lines f →
  ins_line_temp c_indet f line lineno = Some temp →
  rewritten σ (state_of (ins_line now c_indet fpath line lineno σ)) fpath temp.
Proof.
  intros Hf Hle Htemp. unfold ins_line. rewrite (bind_fopen_r σ fpath _ _ f Hf). cbv zeta.
  destruct (Z.gtb_spec lineno (count_lines f)); [lia|].
  rewrite Htemp.
  rewrite (rewrite_protocol _ _ σ fpath f) by done.
  by apply rewritten_state.
Qed.

End InsLineState.

(** Every terminator of a file splits it. *)
Lemma terminators_split (f : list byte) (k : Z) :
  0 ≤ k < terminators f →
  ∃ pre rest, f = pre ++ nl :: rest ∧ terminators pre = k.
Proof.
  revert k. induction f as [|b f IH]; intros k Hk.
  - unfold terminators in Hk. simpl in Hk. lia.
  - rewrite terminators_cons in Hk. case_bool_decide as Hb.
    + subst b. destruct (decide (k = 0)) as [->|].
      * by exists [], f.
      * destruct (IH (k - 1)) as (pre & rest & -> & Hpre); [lia|].
        exists (nl :: pre), rest. split; [done|].
        rewrite terminators_cons, bool_decide_eq_true_2 by done. lia.
    + destruct (IH k) as (pre & rest & -> & Hpre); [lia|].
      exists (b :: pre), rest. split; [done|].
      rewrite terminators_cons, bool_decide_eq_false_2 by done. lia.
Qed.

Lemma ins_line_inner_line_state (now : tm) (c_indet : Z) (σ : fs) (fpath : string)
    (pre rest line : list byte) :
  σ !! fpath = Some (pre ++ nl :: rest) → fpath ≠ LOGF → fpath ≠ TEMPF →
  xff ∉ pre → xff ∉ rest → x00 ∉ line →
  Z.of_nat (length pre + length rest) < off_t_max - 1 →
  rewritten σ (state_of (ins_line now c_indet fpath line (terminators pre + 2) σ))
    fpath (pre ++ [nl] ++ line ++ [nl] ++ rest).
Proof.
  intros Hf H1 H2 Hpre Hrest Hnul Hlen.
  apply ins_line_rewrites with (f := pre ++ nl :: rest); [done|done|done| |].
  - pose proof (terminators_nonneg rest).
    rewrite count_lines_terminators.
    + rewrite terminators_app, terminators_cons, bool_decide_eq_true_2 by done.
      destruct pre; cbn [app]; lia.
    + rewrite elem_of_app, elem_of_cons. intros [?|[?|?]]; done.
    + rewrite length_app. cbn [length]. lia.
  - rewrite ins_line_temp_inner by done. unfold fmt_s. by rewrite c_str_id.
Qed.

(** X4.  For a file pre \n rest free of the byte 0xFF (not the log or the
    scratch file, within the size off_t allows) and a text free of NUL:
    ins_line at the line that starts after the terminator shown, that is
    at the number of terminators of pre plus 2 (so at any line number from
    2 to the line count), writes the text followed by a terminator right
    after that terminator: the file becomes pre \n text \n rest, every
    byte of the file kept. This holds whatever the uninitialised local c
    holds. No scratch file is left and no file other than the edited one
    and the log changes. *)
Theorem ins_line_inner_line (now : tm) (c_indet : Z) (σ : fs) (fpath : string)
    (pre rest line : list byte) :
  σ !! fpath = Some (pre ++ nl :: rest) → fpath ≠ LOGF → fpath ≠ TEMPF →
  xff ∉ pre → xff ∉ rest → x00 ∉ line →
  Z.of_nat (length pre + length rest) < off_t_max - 1 →
  rewritten σ (state_of (ins_line now c_indet fpath line (terminators pre + 2) σ))
    fpath (pre ++ [nl] ++ line ++ [nl] ++ rest).
Proof. apply ins_line_inner_line_state. Qed.

Lemma ins_line_inner_line_witness :
  rewritten {[ "f" := file_ab ]}
    (state_of (ins_line epoch 0 "f" (bytes "X") 2 {[ "f" := file_ab ]}))
    "f" (bytes "a" ++ [nl] ++ bytes "X" ++ [nl] ++ bytes "b").
Proof.
  apply (ins_line_inner_line epoch 0 {[ "f" := file_ab ]} "f" (bytes "a") (bytes "b")
           (bytes "X")).
  - apply lookup_singleton_eq.
  - done.
  - done.
  - apply (bool_decide_unpack _). by vm_compute.
  - apply (bool_decide_unpack _). by vm_compute.
  - apply (bool_decide_unpack _). by vm_compute.
  - by vm_compute.
Defined.

Lemma ins_line_first_line_state (now : tm) (c_indet : Z) (σ : fs) (fpath : string)
    (f line : list byte) :
  σ !! fpath = Some f → fpath ≠ LOGF → fpath ≠ TEMPF →
  f ≠ [] → c_indet ≠ EOF → xff ∉ f → x00 ∉ line →
  Z.of_nat (length f) < off_t_max →
  rewritten σ (state_of (ins_line now c_indet fpath line 1 σ)) fpath (line ++ [nl] ++ f).
Proof.
  intros Hf H1 H2 Hne Hc Hff Hnul Hlen.
  apply ins_line_rewrites with (f := f); [done|done|done| |].
  - rewrite count_lines_terminators by (done || lia).
    destruct f; [done|]. pose proof (terminators_nonneg (b :: f)). lia.
  - rewrite ins_line_temp_first by done. unfold fmt_s. by rewrite c_str_id.
Qed.

(** X5.  For a non-empty file free of the byte 0xFF (not the log or the
    scratch file, within the size off_t allows) and a text free of NUL:
    ins_line at line 1 puts the text and a terminator before the whole
    file, provided the local c, which the loop condition reads before it
    is ever assigned, does not happen to hold EOF. No scratch file is left
    and no file other than the edited one and the log changes. *)
Theorem ins_line_first_line (now : tm) (c_indet : Z) (σ : fs) (fpath : string)
    (f line : list byte) :
  σ !! fpath = Some f → fpath ≠ LOGF → fpath ≠ TEMPF →
  f ≠ [] → c_indet ≠ EOF → xff ∉ f → x00 ∉ line →
  Z.of_nat (length f) < off_t_max →
  rewritten σ (state_of (ins_line now c_indet fpath line 1 σ)) fpath (line ++ [nl] ++ f).
Proof. apply ins_line_first_line_state. Qed.

Lemma ins_line_first_line_witness :
  rewritten {[ "f" := file_ab ]}
    (state_of (ins_line epoch 0 "f" (bytes "X") 1 {[ "f" := file_ab ]}))
    "f" (bytes "X" ++ [nl] ++ file_ab).
Proof.
  apply (ins_line_first_line epoch 0 {[ "f" := file_ab ]} "f" file_ab (bytes "X")).
  - apply lookup_singleton_eq.
  - done.
  - done.
  - done.
  - done.
  - apply (bool_decide_unpack _). by vm_compute.
  - apply (bool_decide_unpack _). by vm_compute.
  - by vm_compute.
Defined.

(** ** What the loop of [rep_line] writes *)

Lemma rep_line_loop_step (fuel : nat) (line : list byte) (lineno : Z) (st : copy_state) :
  rep_line_loop (S fuel) line lineno st
  = if negb (cs_c (rep_line_body line lineno st) =? EOF)
    then rep_line_loop fuel line lineno (rep_line_body line lineno st)
    else Some (rep_line_body line lineno st).
Proof. done. Qed.

(** The inner loop reads to the end of the line it starts in. *)
Lemma skip_line_terminated (old rest : list byte) :
  nl ∉ old → xff ∉ old → skip_line (old ++ nl :: rest) = (NL, rest).
Proof.
  induction old as [|b old IH]; intros Hnl Hff; [done|].
  apply not_elem_of_cons in Hnl as [? ?]. apply not_elem_of_cons in Hff as [? ?].
  cbn [app skip_line].
  rewrite char_of_byte_eof, char_of_byte_nl, !bool_decide_eq_false_2 by done.
  cbn [negb andb]. by apply IH.
Qed.

Lemma skip_line_unterminated (old : list byte) :
  nl ∉ old → xff ∉ old → skip_line old = (EOF, []).
Proof.
  induction old as [|b old IH]; intros Hnl Hff; [done|].
  apply not_elem_of_cons in Hnl as [? ?]. apply not_elem_of_cons in Hff as [? ?].
  cbn [skip_line].
  rewrite char_of_byte_eof, char_of_byte_nl, !bool_decide_eq_false_2 by done.
  cbn [negb andb]. by apply IH.
Qed.

Section RepLine.

Variable line : list byte.
Variable lineno : Z.
Hypothesis lineno_pos : 0 < lineno.
Hypothesis lineno_max : lineno + 1 < size_t_modulus.

(** A pass entered with [count] equal to [lineno] writes the text in
    place of the line it skips. *)
Lemma rep_line_body_at (c : Z) (s temp : list byte) :
  rep_line_body line lineno (CState lineno c s temp)
  = CState (lineno + 1) (skip_line s).1 (skip_line s).2
      (temp ++ fmt_s line ++ (if (skip_line s).1 =? NL then [nl] else [])).
Proof.
  unfold rep_line_body. cbn [cs_count cs_c cs_fptr cs_temp].
  rewrite Z.eqb_refl. cbn [negb cs_count cs_c cs_fptr cs_temp]. rewrite Z.eqb_refl.
  destruct (skip_line s) as [c' s']. cbn [fst snd]. rewrite incr_small by lia.
  destruct (Z.eqb_spec c' NL) as [->|]; [|by rewrite app_nil_r].
  by rewrite <- app_assoc.
Qed.

(** A pass that reads a byte other than 0xFF while [count] is not
    [lineno]. *)
Lemma rep_line_body_read (count c : Z) (b : byte) (s temp : list byte) :
  count ≠ lineno →
  rep_line_body line lineno (CState count c (b :: s) temp)
  = (if (if bool_decide (b = nl) then incr count else count) =? lineno
     then rep_line_body line lineno (CState lineno (char_of_byte b) s (temp ++ [b]))
     else CState (if bool_decide (b = nl) then incr count else count)
            (char_of_byte b) s (temp ++ [b])).
Proof.
  intros Hne. unfold rep_line_body at 1. cbn [cs_count cs_c cs_fptr cs_temp getc].
  rewrite (proj2 (Z.eqb_neq count lineno)) by done. cbn [negb].
  fold (char_of_byte b). rewrite char_of_byte_nl.
  cbn [cs_count cs_c cs_fptr cs_temp]. rewrite uchar_of_char_of_byte.
  destruct (Z.eqb_spec (if bool_decide (b = nl) then incr count else count) lineno)
    as [->|]; [|done].
  unfold rep_line_body. cbn [cs_count cs_c cs_fptr cs_temp].
  rewrite Z.eqb_refl. cbn [negb cs_count cs_c cs_fptr cs_temp]. by rewrite Z.eqb_refl.
Qed.

(** A pass at the end of the file writes the value of [EOF] as a byte. *)
Lemma rep_line_body_eof (count c : Z) (temp : list byte) :
  count ≠ lineno →
  rep_line_body line lineno (CState count c [] temp)
  = CState count EOF [] (temp ++ [xff]).
Proof.
  intros Hne. unfold rep_line_body. cbn [cs_count cs_c cs_fptr cs_temp getc].
  rewrite (proj2 (Z.eqb_neq count lineno)) by done. cbn [negb].
  change (char_of_int EOF) with EOF. change (EOF =? NL) with false.
  cbn [cs_count]. by rewrite (proj2 (Z.eqb_neq count lineno)) by done.
Qed.

(** Before the line: every byte is copied. *)
Lemma rep_line_loop_before (s rest : list byte) (fuel : nat) (count c : Z)
    (temp : list byte) :
  xff ∉ s → 0 ≤ count → count + terminators s < lineno → s ≠ [] →
  rep_line_loop (length s + fuel) line lineno (CState count c (s ++ rest) temp)
  = rep_line_loop fuel line lineno
      (CState (count + terminators s) (char_of_byte (List.last s x00)) rest (temp ++ s)).
Proof.
  revert count c temp. induction s as [|b s IH]; intros count c temp Hff Hc Hlt Hne; [done|].
  apply not_elem_of_cons in Hff as [Hb Hff].
  rewrite terminators_cons in Hlt |- *. pose proof (terminators_nonneg s).
  cbn [app length Nat.add]. rewrite rep_line_loop_step.
  assert (count ≠ lineno) by (case_bool_decide; lia).
  rewrite rep_line_body_read by done.
  assert ((if bool_decide (b = nl) then incr count else count)
          = count + (if bool_decide (b = nl) then 1 else 0)) as ->.
  { case_bool_decide; rewrite ?incr_small by lia; lia. }
  destruct (Z.eqb_spec (count + (if bool_decide (b = nl) then 1 else 0)) lineno); [lia|].
  cbn [cs_c]. rewrite char_of_byte_eof, (bool_decide_eq_false_2 (b = xff)) by done.
  cbn [negb]. destruct s as [|b' s].
  - cbn [length Nat.add app List.last]. unfold terminators. cbn. by rewrite Z.add_0_r.
  - rewrite IH by (done || case_bool_decide; lia).
    by rewrite <- app_assoc, Z.add_assoc.
Qed.

(** After the line: every byte is copied, and the pass that reads the end
    of the file writes one byte more. *)
Lemma rep_line_loop_after (s : list byte) (fuel : nat) (count c : Z) (temp : list byte) :
  xff ∉ s → lineno < count → count + terminators s < size_t_modulus →
  rep_line_loop (length s + S fuel) line lineno (CState count c s temp)
  = Some (CState (count + terminators s) EOF [] (temp ++ s ++ [xff])).
Proof.
  revert count c temp. induction s as [|b s IH]; intros count c temp Hff Hc Hlt.
  - cbn [length Nat.add]. rewrite rep_line_loop_step, rep_line_body_eof by lia.
    cbn [cs_c]. change (EOF =? EOF) with true. cbn [negb].
    unfold terminators. cbn. by rewrite Z.add_0_r.
  - apply not_elem_of_cons in Hff as [Hb Hff].
    rewrite terminators_cons in Hlt |- *. pose proof (terminators_nonneg s).
    cbn [length Nat.add]. rewrite rep_line_loop_step.
    rewrite rep_line_body_read by lia.
    assert ((if bool_decide (b = nl) then incr count else count)
            = count + (if bool_decide (b = nl) then 1 else 0)) as ->.
    { case_bool_decide; rewrite ?incr_small by lia; lia. }
    destruct (Z.eqb_spec (count + (if bool_decide (b = nl) then 1 else 0)) lineno);
      [case_bool_decide; lia|].
    cbn [cs_c]. rewrite char_of_byte_eof, (bool_decide_eq_false_2 (b = xff)) by done.
    cbn [negb]. rewrite IH by (done || case_bool_decide; lia).
    by rewrite <- app_assoc, Z.add_assoc.
Qed.

End RepLine.

Section RepLineAt.

Variable line : list byte.
Variable lineno : Z.
Hypothesis lineno_pos : 0 < lineno.
Hypothesis lineno_max : lineno + 1 < size_t_modulus.

(** The loop from the pass that reaches the line, when the line is the
    last one. *)
Lemma rep_line_loop_at_last (fuel : nat) (c : Z) (old temp : list byte) :
  nl ∉ old → xff ∉ old →
  rep_line_loop (S fuel) line lineno (CState lineno c old temp)
  = Some (CState (lineno + 1) EOF [] (temp ++ fmt_s line)).
Proof.
  intros Hnl Hff. rewrite rep_line_loop_step, rep_line_body_at by done.
  rewrite skip_line_unterminated by done. cbn [fst snd cs_c].
  change (EOF =? EOF) with true. change (EOF =? NL) with false. cbn [negb].
  by rewrite app_nil_r.
Qed.

(** The loop from the pass that reaches the line, when a line follows. *)
Lemma rep_line_loop_at_inner (fuel : nat) (c : Z) (old rest temp : list byte) :
  nl ∉ old → xff ∉ old → xff ∉ rest →
  lineno + 1 + terminators rest < size_t_modulus →
  rep_line_loop (S (length rest + S fuel)) line lineno
    (CState lineno c (old ++ nl :: rest) temp)
  = Some (CState (lineno + 1 + terminators rest) EOF []
            (temp ++ fmt_s line ++ [nl] ++ rest ++ [xff])).
Proof.
  intros Hnl Hff Hrest Hmax. rewrite rep_line_loop_step, rep_line_body_at by done.
  rewrite skip_line_terminated by done. cbn [fst snd cs_c].
  change (NL =? EOF) with false. change (NL =? NL) with true. cbn [negb].
  rewrite rep_line_loop_after by (done || lia).
  by rewrite <- !app_assoc.
Qed.

(** The passes before the line copy it all and leave the loop in the pass
    that reaches the line. *)
Lemma rep_line_loop_reach (fuel : nat) (p tail : list byte) :
  xff ∉ p → lineno = terminators p + 2 →
  rep_line_loop (length (p ++ [nl]) + fuel) line lineno
    (CState 1 0 ((p ++ [nl]) ++ tail) [])
  = rep_line_loop (S fuel) line lineno (CState lineno NL tail (p ++ [nl])).
Proof.
  intros Hff ->. pose proof (terminators_nonneg p).
  assert (∀ c temp,
    rep_line_loop (S fuel) line (terminators p + 2)
      (CState (terminators p + 1) c (nl :: tail) temp)
    = rep_line_loop (S fuel) line (terminators p + 2)
        (CState (terminators p + 2) NL tail (temp ++ [nl]))) as Hstep.
  { intros c temp. rewrite !rep_line_loop_step. rewrite rep_line_body_read by lia.
    rewrite bool_decide_eq_true_2, incr_small by (done || lia).
    replace (terminators p + 1 + 1) with (terminators p + 2) by lia.
    by rewrite Z.eqb_refl. }
  rewrite length_app, <- app_assoc. cbn [length app].
  destruct p as [|b p].
  - cbn [length Nat.add app]. apply Hstep.
  - replace (length (b :: p) + 1 + fuel)%nat with (length (b :: p) + S fuel)%nat by lia.
    rewrite rep_line_loop_before by (done || lia).
    rewrite app_nil_l. replace (1 + terminators (b :: p)) with (terminators (b :: p) + 1) by lia.
    apply Hstep.
Qed.

End RepLineAt.

(** The last line: the text takes its place, and no terminator is
    added. *)
Lemma rep_line_temp_last (pre old line : list byte) :
  at_line_start pre → xff ∉ pre → nl ∉ old → xff ∉ old →
  Z.of_nat (length pre) < off_t_max →
  rep_line_temp (pre ++ old) line (terminators pre + 1) = Some (pre ++ fmt_s line).
Proof.
  intros Hstart Hpre Hnl Hff Hlen. unfold rep_line_temp.
  pose proof (terminators_le_length pre). pose proof (terminators_nonneg pre).
  assert (terminators pre + 1 + 1 < size_t_modulus)
    by (unfold off_t_max, size_t_modulus in *; lia).
  destruct Hstart as [->|[p ->]].
  - change (terminators [] + 1) with 1. cbn [app].
    by rewrite rep_line_loop_at_last by done.
  - assert (terminators (p ++ [nl]) = terminators p + 1) as Hp.
    { rewrite terminators_app, terminators_cons, bool_decide_eq_true_2 by done.
      unfold terminators at 2. cbn. lia. }
    rewrite Hp in *.
    replace (S (length ((p ++ [nl]) ++ old)))
      with (length (p ++ [nl]) + S (length old))%nat by (rewrite !length_app; lia).
    rewrite rep_line_loop_reach by (lia || set_solver).
    rewrite rep_line_loop_at_last by (done || lia). done.
Qed.

(** A line that is followed by another: the text takes its place, the
    rest of the file follows, and then the byte 0xFF. *)
Lemma rep_line_temp_inner (pre old rest line : list byte) :
  at_line_start pre → xff ∉ pre → nl ∉ old → xff ∉ old → xff ∉ rest →
  Z.of_nat (length pre + length rest) < off_t_max - 1 →
  rep_line_temp (pre ++ old ++ nl :: rest) line (terminators pre + 1)
  = Some (pre ++ fmt_s line ++ [nl] ++ rest ++ [xff]).
Proof.
  intros Hstart Hpre Hnl Hff Hrest Hlen. unfold rep_line_temp.
  pose proof (terminators_le_length pre). pose proof (terminators_nonneg pre).
  pose proof (terminators_le_length rest). pose proof (terminators_nonneg rest).
  assert (terminators pre + 1 + 1 + terminators rest < size_t_modulus)
    by (unfold off_t_max, size_t_modulus in *; lia).
  destruct Hstart as [->|[p ->]].
  - change (terminators [] + 1) with 1. cbn [app].
    replace (S (length (old ++ nl :: rest)))
      with (S (length rest + S (length old)))
      by (rewrite length_app; cbn [length]; lia).
    by rewrite rep_line_loop_at_inner by (done || lia).
  - assert (terminators (p ++ [nl]) = terminators p + 1) as Hp.
    { rewrite terminators_app, terminators_cons, bool_decide_eq_true_2 by done.
      unfold terminators at 2. cbn. lia. }
    rewrite Hp in *.
    replace (S (length ((p ++ [nl]) ++ old ++ nl :: rest)))
      with (length (p ++ [nl]) + (length rest + S (S (length old))))%nat
      by (rewrite !length_app; cbn [length]; lia).
    rewrite rep_line_loop_reach by (lia || set_solver).
    rewrite rep_line_loop_at_inner by (done || lia). done.
Qed.

(** ** [rep_line] on the file system *)

Section RepLineState.

Variable now : tm.
Variables (σ : fs) (fpath : string).
Hypothesis not_log : fpath ≠ LOGF.
Hypothesis not_scratch : fpath ≠ TEMPF.

(** Past its range check [rep_line] replaces the file by what its loop
    wrote. *)
Lemma rep_line_rewrites (f line temp : list byte) (lineno : Z) :
  σ !! fpath = Some f → lineno ≤ count_lines f →
  rep_line_temp f line lineno = Some temp →
  rewritten σ (state_of (rep_line now fpath line lineno σ)) fpath temp.
Proof.
  intros Hf Hle Htemp. unfold rep_line. rewrite (bind_fopen_r σ fpath _ _ f Hf). cbv zeta.
  destruct (Z.gtb_spec lineno (count_lines f)); [lia|].
  rewrite Htemp.
  rewrite (rewrite_protocol _ _ σ fpath f) by done.
  by apply rewritten_state.
Qed.

End RepLineState.

Lemma terminators_snoc_nl (p : list byte) : terminators (p ++ [nl]) = terminators p + 1.
Proof.
  rewrite terminators_app, terminators_cons, bool_decide_eq_true_2 by done.
  unfold terminators at 2. cbn. lia.
Qed.

Lemma rep_line_last_line_state (now : tm) (σ : fs) (fpath : string) (pre old line : list byte) :
  σ !! fpath = Some (pre ++ old) → fpath ≠ LOGF → fpath ≠ TEMPF →
  pre ++ old ≠ [] → at_line_start pre →
  xff ∉ pre → nl ∉ old → xff ∉ old → x00 ∉ line →
  Z.of_nat (length pre + length old) < off_t_max →
  rewritten σ (state_of (rep_line now fpath line (terminators pre + 1) σ))
    fpath (pre ++ line).
Proof.
  intros Hf H1 H2 Hne Hstart Hpre Hnl Hff Hnul Hlen.
  apply rep_line_rewrites with (f := pre ++ old); [done|done|done| |].
  - rewrite count_lines_terminators.
    + rewrite terminators_app, (terminators_none old) by done.
      destruct (pre ++ old); [done|lia].
    + rewrite elem_of_app. intros [?|?]; done.
    + rewrite length_app. lia.
  - rewrite rep_line_temp_last by (done || lia). unfold fmt_s. by rewrite c_str_id.
Qed.

(** X6.  For a non-empty file free of the byte 0xFF (not the log or the
    scratch file, within the size off_t allows) and a text free of NUL:
    rep_line at the last line, that is at the number of terminators plus
    one, the last line being what follows the last terminator (the whole
    file if it has none; it may be empty), puts the text in place of that
    line: the bytes before the line are kept exactly, and no terminator or
    other byte is added after the text. No scratch file is left and no
    file other than the edited one and the log changes. *)
Theorem rep_line_last_line (now : tm) (σ : fs) (fpath : string) (pre old line : list byte) :
  σ !! fpath = Some (pre ++ old) → fpath ≠ LOGF → fpath ≠ TEMPF →
  pre ++ old ≠ [] → at_line_start pre →
  xff ∉ pre → nl ∉ old → xff ∉ old → x00 ∉ line →
  Z.of_nat (length pre + length old) < off_t_max →
  rewritten σ (state_of (rep_line now fpath line (terminators pre + 1) σ))
    fpath (pre ++ line).
Proof. apply rep_line_last_line_state. Qed.

Lemma rep_line_last_line_witness :
  rewritten {[ "f" := file_ab ]} (state_of (rep_line epoch "f" (bytes "X") 2 {[ "f" := file_ab ]}))
    "f" ((bytes "a" ++ [nl]) ++ bytes "X").
Proof.
  apply (rep_line_last_line epoch {[ "f" := file_ab ]} "f" (bytes "a" ++ [nl]) (bytes "b")
           (bytes "X")).
  - apply lookup_singleton_eq.
  - done.
  - done.
  - done.
  - right. by exists (bytes "a").
  - apply (bool_decide_unpack _). by vm_compute.
  - apply (bool_decide_unpack _). by vm_compute.
  - apply (bool_decide_unpack _). by vm_compute.
  - apply (bool_decide_unpack _). by vm_compute.
  - by vm_compute.
Defined.

Lemma rep_line_inner_line_state (now : tm) (σ : fs) (fpath : string)
    (pre old rest line : list byte) :
  σ !! fpath = Some (pre ++ old ++ nl :: rest) → fpath ≠ LOGF → fpath ≠ TEMPF →
  at_line_start pre →
  xff ∉ pre → nl ∉ old → xff ∉ old → xff ∉ rest → x00 ∉ line →
  Z.of_nat (length pre + length old + length rest) < off_t_max - 1 →
  rewritten σ (state_of (rep_line now fpath line (terminators pre + 1) σ))
    fpath (pre ++ line ++ [nl] ++ rest ++ [xff]).
Proof.
  intros Hf H1 H2 Hstart Hpre Hnl Hff Hrest Hnul Hlen.
  apply rep_line_rewrites with (f := pre ++ old ++ nl :: rest); [done|done|done| |].
  - pose proof (terminators_nonneg rest).
    rewrite count_lines_terminators.
    + change (nl :: rest) with ([nl] ++ rest).
      rewrite !terminators_app, (terminators_none old) by done.
      change (terminators [nl]) with 1.
      destruct (pre ++ old ++ [nl] ++ rest) eqn:E; [|lia].
      apply app_eq_nil in E as [_ E]. by apply app_eq_nil in E as [_ E].
    + rewrite !elem_of_app, elem_of_cons. intros [?|[?|[?|?]]]; done.
    + rewrite !length_app. cbn [length]. lia.
  - rewrite rep_line_temp_inner by (done || lia). unfold fmt_s. by rewrite c_str_id.
Qed.

(** X7.  For a file free of the byte 0xFF (not the log or the scratch
    file, within the size off_t allows) and a text free of NUL: rep_line
    at a line that ends in a terminator, that is at number k + 1 in a file
    pre old \n rest where pre is empty or ends in a terminator and holds k
    terminators and old holds none, puts the text in place of old and
    keeps every other byte, but then writes the value of EOF as a byte:
    the new file is pre text \n rest followed by one byte 0xFF the old
    file did not have. No scratch file is left and no file other than the
    edited one and the log changes. *)
Theorem rep_line_inner_line (now : tm) (σ : fs) (fpath : string)
    (pre old rest line : list byte) :
  σ !! fpath = Some (pre ++ old ++ nl :: rest) → fpath ≠ LOGF → fpath ≠ TEMPF →
  at_line_start pre →
  xff ∉ pre → nl ∉ old → xff ∉ old → xff ∉ rest → x00 ∉ line →
  Z.of_nat (length pre + length old + length rest) < off_t_max - 1 →
  rewritten σ (state_of (rep_line now fpath line (terminators pre + 1) σ))
    fpath (pre ++ line ++ [nl] ++ rest ++ [xff]).
Proof. apply rep_line_inner_line_state. Qed.

Lemma rep_line_inner_line_witness :
  rewritten {[ "f" := file_abc ]}
    (state_of (rep_line epoch "f" (bytes "X") 2 {[ "f" := file_abc ]}))
    "f" ((bytes "a" ++ [nl]) ++ bytes "X" ++ [nl] ++ bytes "c" ++ [xff]).
Proof.
  apply (rep_line_inner_line epoch {[ "f" := file_abc ]} "f" (bytes "a" ++ [nl]) (bytes "b")
           (bytes "c") (bytes "X")).
  - apply lookup_singleton_eq.
  - done.
  - done.
  - right. by exists (bytes "a").
  - apply (bool_decide_unpack _). by vm_compute.
  - apply (bool_decide_unpack _). by vm_compute.
  - apply (bool_decide_unpack _). by vm_compute.
  - apply (bool_decide_unpack _). by vm_compute.
  - apply (bool_decide_unpack _). by vm_compute.
  - by vm_compute.
Defined.

(** ** Line counts after the operations *)

(** [count_lines] reads a byte 0xFF as the end of the file. *)
Lemma count_lines_loop_stops (g h : list byte) (st : Z * bool) :
  xff ∉ g → count_lines_loop (g ++ xff :: h) st = count_lines_loop g st.
Proof.
  revert st. induction g as [|b g IH]; intros st Hff; [done|].
  apply not_elem_of_cons in Hff as [Hb Hff]. cbn [app count_lines_loop].
  rewrite char_of_byte_eof, (bool_decide_eq_false_2 (b = xff)) by done.
  by apply IH.
Qed.

Lemma count_lines_loop_stops_count (g h : list byte) :
  xff ∉ g → count_lines (g ++ xff :: h) = count_lines g.
Proof. intros Hff. unfold count_lines. by rewrite count_lines_loop_stops. Qed.

(** X8.  [count_lines] stops at the first byte 0xFF, which a [char]
    cannot tell from [EOF]: whatever follows that byte is not counted. *)
Theorem count_lines_stops_at_eof_byte (g h : list byte) :
  xff ∉ g → count_lines (g ++ xff :: h) = count_lines g.
Proof. apply count_lines_loop_stops_count. Qed.

Lemma count_lines_stops_at_eof_byte_witness :
  count_lines (bytes "a" ++ xff :: [nl] ++ bytes "b" ++ [nl]) = count_lines (bytes "a").
Proof.
  apply (count_lines_stops_at_eof_byte (bytes "a") ([nl] ++ bytes "b" ++ [nl])).
  apply (bool_decide_unpack _). by vm_compute.
Defined.

(** A file read up to its first terminator. *)
Lemma first_line_split (f : list byte) :
  ∃ old post, f = old ++ post ∧ (nl ∉ old) ∧ (post = [] ∨ ∃ rest, post = nl :: rest).
Proof.
  induction f as [|b f (old & post & -> & Hold & Hpost)].
  - exists [], []. split; [done|]. split; [apply not_elem_of_nil|by left].
  - destruct (decide (b = nl)) as [->|Hb].
    + exists [], (nl :: old ++ post). split; [done|].
      split; [apply not_elem_of_nil|right; by eexists].
    + exists (b :: old), post. split; [done|].
      split; [|done]. apply not_elem_of_cons. split; [congruence|done].
Qed.

(** A file cut around its line number [k + 1]. *)
Lemma line_split (f : list byte) (k : Z) :
  0 ≤ k ≤ terminators f →
  ∃ pre old post, f = pre ++ old ++ post ∧ at_line_start pre ∧ terminators pre = k
                  ∧ (nl ∉ old) ∧ (post = [] ∨ ∃ rest, post = nl :: rest).
Proof.
  intros Hk. destruct (decide (k = 0)) as [->|Hne].
  - destruct (first_line_split f) as (old & post & -> & Hold & Hpost).
    exists [], old, post. repeat split; [by left|done|done].
  - destruct (terminators_split f (k - 1)) as (p & r & -> & Hp); [lia|].
    destruct (first_line_split r) as (old & post & -> & Hold & Hpost).
    exists (p ++ [nl]), old, post. split; [by rewrite <- app_assoc|].
    split; [right; by eexists|]. split; [rewrite terminators_snoc_nl; lia|done].
Qed.

(** The count of a file free of 0xFF that is not empty. *)
Lemma count_lines_nonempty (f : list byte) :
  xff ∉ f → Z.of_nat (length f) ≤ off_t_max → f ≠ [] →
  count_lines f = terminators f + 1.
Proof. intros Hff Hlen Hne. rewrite count_lines_terminators by done. by destruct f. Qed.

Lemma count_lines_empty_or_not (f : list byte) :
  xff ∉ f → Z.of_nat (length f) ≤ off_t_max →
  (f = [] ∧ count_lines f = 0) ∨ (f ≠ [] ∧ count_lines f = terminators f + 1).
Proof.
  intros Hff Hlen. destruct f as [|b f]; [by left|right]. split; [done|].
  by apply count_lines_nonempty.
Qed.

(** X9.  For a file free of the byte 0xFF (not the log or the scratch
    file; file and text together within the size off_t allows) and a non-
    empty text free of terminators, of NUL and of the byte 0xFF: after
    rep_line at any line number from 1 to the line count, count_lines
    finds as many lines in the new file as in the old one. *)
Theorem rep_line_keeps_line_count (now : tm) (σ : fs) (fpath : string)
    (f line : list byte) (lineno : Z) :
  σ !! fpath = Some f → fpath ≠ LOGF → fpath ≠ TEMPF →
  xff ∉ f → 1 ≤ lineno ≤ count_lines f →
  line ≠ [] → nl ∉ line → x00 ∉ line → xff ∉ line →
  Z.of_nat (length f + length line) < off_t_max - 1 →
  ∃ f', state_of (rep_line now fpath line lineno σ) !! fpath = Some f'
        ∧ count_lines f' = count_lines f.
Proof.
  intros Hf H1 H2 Hff Hrange Hne Hnl Hnul Hlff Hlen.
  destruct (count_lines_empty_or_not f Hff ltac:(lia)) as [[-> Hc]|[Hfne Hc]]; [lia|].
  rewrite Hc in *.
  destruct (line_split f (lineno - 1)) as (pre & old & post & -> & Hstart & Hpre & Hold & Hpost);
    [lia|].
  replace lineno with (terminators pre + 1) by lia. clear Hc.
  rewrite !elem_of_app in Hff. rewrite !length_app in Hlen.
  destruct Hpost as [->|[rest ->]].
  - rewrite app_nil_r in *.
    assert (rewritten σ (state_of (rep_line now fpath line (terminators pre + 1) σ))
              fpath (pre ++ line)) as [Hres _]
      by (apply (rep_line_last_line_state now σ fpath pre old line); done || lia || tauto).
    exists (pre ++ line). split; [done|].
    rewrite count_lines_nonempty.
    + rewrite !terminators_app, (terminators_none line), (terminators_none old) by done.
      lia.
    + rewrite elem_of_app. intuition congruence.
    + rewrite length_app. lia.
    + intros [_ ?]%app_eq_nil. done.
  - rewrite elem_of_cons in Hff. cbn [length] in Hlen.
    assert (rewritten σ (state_of (rep_line now fpath line (terminators pre + 1) σ))
              fpath (pre ++ line ++ [nl] ++ rest ++ [xff])) as [Hres _]
      by (apply (rep_line_inner_line_state now σ fpath pre old rest line);
          done || lia || tauto).
    exists (pre ++ line ++ [nl] ++ rest ++ [xff]). split; [done|].
    replace (pre ++ line ++ [nl] ++ rest ++ [xff])
      with ((pre ++ line ++ [nl] ++ rest) ++ xff :: []) by (by rewrite <- !app_assoc).
    rewrite count_lines_loop_stops_count.
    + rewrite count_lines_nonempty.
      * change (nl :: rest) with ([nl] ++ rest).
        rewrite !terminators_app, (terminators_none line), (terminators_none old) by done.
        lia.
      * rewrite !elem_of_app, elem_of_cons, elem_of_nil. intuition congruence.
      * rewrite !length_app. cbn [length]. lia.
      * intros [_ [? _]%app_eq_nil]%app_eq_nil. done.
    + rewrite !elem_of_app, elem_of_cons, elem_of_nil. intuition congruence.
Qed.

Lemma rep_line_keeps_line_count_witness :
  ∃ f', state_of (rep_line epoch "f" (bytes "X") 2 {[ "f" := file_abc ]}) !! "f" = Some f'
        ∧ count_lines f' = count_lines file_abc.
Proof.
  apply (rep_line_keeps_line_count epoch {[ "f" := file_abc ]} "f" file_abc (bytes "X") 2).
  - apply lookup_singleton_eq.
  - done.
  - done.
  - apply (bool_decide_unpack _). by vm_compute.
  - assert (count_lines file_abc = 3) as -> by (by vm_compute). lia.
  - done.
  - apply (bool_decide_unpack _). by vm_compute.
  - apply (bool_decide_unpack _). by vm_compute.
  - apply (bool_decide_unpack _). by vm_compute.
  - by vm_compute.
Defined.

(** X10.  For a file free of the byte 0xFF (not the log or the scratch
    file; file and text together within the size off_t allows) and a text
    free of terminators, of NUL and of the byte 0xFF: after ins_line at
    any line number from 1 to the line count, count_lines finds exactly
    one line more than before. At line 1 this needs the uninitialised
    local c not to hold EOF. *)
Theorem ins_line_adds_one_line (now : tm) (c_indet : Z) (σ : fs) (fpath : string)
    (f line : list byte) (lineno : Z) :
  σ !! fpath = Some f → fpath ≠ LOGF → fpath ≠ TEMPF →
  xff ∉ f → 1 ≤ lineno ≤ count_lines f → (lineno = 1 → c_indet ≠ EOF) →
  nl ∉ line → x00 ∉ line → xff ∉ line →
  Z.of_nat (length f + length line) < off_t_max - 1 →
  ∃ f', state_of (ins_line now c_indet fpath line lineno σ) !! fpath = Some f'
        ∧ count_lines f' = count_lines f + 1.
Proof.
  intros Hf H1 H2 Hff Hrange Hc Hnl Hnul Hlff Hlen.
  destruct (count_lines_empty_or_not f Hff ltac:(lia)) as [[-> Hcount]|[Hfne Hcount]]; [lia|].
  rewrite Hcount in *. destruct (decide (lineno = 1)) as [->|Hne].
  - assert (rewritten σ (state_of (ins_line now c_indet fpath line 1 σ))
              fpath (line ++ [nl] ++ f)) as [Hres _]
      by (apply (ins_line_first_line_state now c_indet σ fpath f line); done || lia || tauto).
    exists (line ++ [nl] ++ f). split; [done|].
    rewrite count_lines_nonempty.
    + rewrite !terminators_app, (terminators_none line) by done.
      change (terminators [nl]) with 1. lia.
    + rewrite !elem_of_app, elem_of_cons, elem_of_nil. intuition done.
    + rewrite !length_app. cbn [length]. lia.
    + intros [_ ?]%app_eq_nil. done.
  - destruct (terminators_split f (lineno - 2)) as (pre & rest & -> & Hpre); [lia|].
    replace lineno with (terminators pre + 2) by lia.
    rewrite elem_of_app, elem_of_cons in Hff. rewrite length_app in Hlen.
    cbn [length] in Hlen.
    assert (rewritten σ (state_of (ins_line now c_indet fpath line (terminators pre + 2) σ))
              fpath (pre ++ [nl] ++ line ++ [nl] ++ rest)) as [Hres _]
      by (apply (ins_line_inner_line_state now c_indet σ fpath pre rest line);
          done || lia || tauto).
    exists (pre ++ [nl] ++ line ++ [nl] ++ rest). split; [done|].
    rewrite count_lines_nonempty.
    + change (nl :: rest) with ([nl] ++ rest).
      rewrite !terminators_app, (terminators_none line) by done.
      change (terminators [nl]) with 1. lia.
    + rewrite !elem_of_app, !elem_of_cons, elem_of_nil. intuition done.
    + rewrite !length_app. cbn [length]. lia.
    + intros [_ ?]%app_eq_nil. done.
Qed.

Lemma ins_line_adds_one_line_witness :
  ∃ f', state_of (ins_line epoch 0 "f" (bytes "X") 2 {[ "f" := file_abc ]}) !! "f" = Some f'
        ∧ count_lines f' = count_lines file_abc + 1.
Proof.
  apply (ins_line_adds_one_line epoch 0 {[ "f" := file_abc ]} "f" file_abc (bytes "X") 2).
  - apply lookup_singleton_eq.
  - done.
  - done.
  - apply (bool_decide_unpack _). by vm_compute.
  - assert (count_lines file_abc = 3) as -> by (by vm_compute). lia.
  - done.
  - apply (bool_decide_unpack _). by vm_compute.
  - apply (bool_decide_unpack _). by vm_compute.
  - apply (bool_decide_unpack _). by vm_compute.
  - by vm_compute.
Defined.

(** ** Operations that undo each other *)

(** Two rewrites of the same file in a row. *)
Lemma rewritten_trans (σ σ1 σ2 : fs) (fpath : string) (t1 t2 : list byte) :
  rewritten σ σ1 fpath t1 → rewritten σ1 σ2 fpath t2 → rewritten σ σ2 fpath t2.
Proof.
  intros (_ & _ & Hframe1) (Hres & Hscratch & Hframe2). split; [done|]. split; [done|].
  intros p Hp1 Hp2 Hp3. by rewrite Hframe2, Hframe1.
Qed.

(** X11.  For a non-empty file free of the byte 0xFF (not the log or the
    scratch file; file and text together within the size off_t allows) and
    a text free of terminators, of NUL and of the byte 0xFF, provided the
    uninitialised local c of ins_line does not hold EOF: del_line at line
    1 undoes ins_line at line 1. After the two operations the file is byte
    for byte what it was, no scratch file is left, and no file other than
    the edited one and the log has changed. *)
Theorem ins_line_del_line_first (now now' : tm) (c_indet : Z) (σ : fs) (fpath : string)
    (f line : list byte) :
  σ !! fpath = Some f → fpath ≠ LOGF → fpath ≠ TEMPF →
  f ≠ [] → c_indet ≠ EOF → xff ∉ f →
  nl ∉ line → x00 ∉ line → xff ∉ line →
  Z.of_nat (length f + length line) < off_t_max - 1 →
  rewritten σ
    (state_of (del_line now' fpath 1 (state_of (ins_line now c_indet fpath line 1 σ))))
    fpath f.
Proof.
  intros Hf H1 H2 Hne Hc Hff Hnl Hnul Hlff Hlen.
  pose proof (ins_line_first_line_state now c_indet σ fpath f line
                Hf H1 H2 Hne Hc Hff Hnul ltac:(lia)) as Hins.
  eapply rewritten_trans; [exact Hins|].
  apply (del_line_first_line_state now' _ fpath line f); try done.
  - by destruct Hins as [Hres _].
  - lia.
Qed.

Lemma ins_line_del_line_first_witness :
  rewritten {[ "f" := file_ab ]}
    (state_of (del_line epoch "f" 1
       (state_of (ins_line epoch 0 "f" (bytes "X") 1 {[ "f" := file_ab ]}))))
    "f" file_ab.
Proof.
  apply (ins_line_del_line_first epoch epoch 0 {[ "f" := file_ab ]} "f" file_ab (bytes "X")).
  - apply lookup_singleton_eq.
  - done.
  - done.
  - done.
  - done.
  - apply (bool_decide_unpack _). by vm_compute.
  - apply (bool_decide_unpack _). by vm_compute.
  - apply (bool_decide_unpack _). by vm_compute.
  - apply (bool_decide_unpack _). by vm_compute.
  - by vm_compute.
Defined.

(** X12.  For a file of two bytes or more free of the byte 0xFF (not the
    log or the scratch file; file and text together within the size off_t
    allows) and a text free of terminators, of NUL and of the byte 0xFF:
    del_line at line count_lines(F) + 1 undoes append_line of that text.
    After the two operations the file is byte for byte what it was, no
    scratch file is left, and no file other than the edited one and the
    log has changed. *)
Theorem append_line_del_line_last (now now' : tm) (σ : fs) (fpath : string)
    (f line : list byte) :
  σ !! fpath = Some f → fpath ≠ LOGF → fpath ≠ TEMPF →
  (1 < length f)%nat → xff ∉ f →
  nl ∉ line → x00 ∉ line → xff ∉ line →
  Z.of_nat (length f + length line) < off_t_max →
  rewritten σ
    (state_of (del_line now' fpath (count_lines f + 1)
       (state_of (append_line now fpath line σ))))
    fpath f.
Proof.
  intros Hf H1 H2 Hlen1 Hff Hnl Hnul Hlff Hlen.
  assert (state_of (append_line now fpath line σ) !! fpath = Some (f ++ nl :: line)) as Hres.
  { rewrite (append_line_content now σ fpath f line) by done.
    unfold appended. destruct (Z.leb_spec (Z.of_nat (length f)) 1); [lia|].
    unfold fmt_s. by rewrite c_str_id. }
  assert (∀ p, p ≠ fpath → p ≠ LOGF → p ≠ TEMPF →
               state_of (append_line now fpath line σ) !! p = σ !! p) as Hframe.
  { intros p Hp1 Hp2 Hp3. destruct (append_line_eq now σ fpath f line Hf) as [logstr ->].
    rewrite change_log_frame by done. by rewrite lookup_insert_ne. }
  assert (f ≠ []) by (intros ->; cbn [length] in Hlen1; lia).
  rewrite count_lines_nonempty by (done || lia).
  replace (terminators f + 1 + 1) with (terminators f + 2) by lia.
  destruct (del_line_last_line_state now' _ fpath f line Hres H1 H2 Hff Hnl Hlff Hlen)
    as (Hfinal & Hscratch & Hframe').
  split; [done|]. split; [done|].
  intros p Hp1 Hp2 Hp3. by rewrite Hframe', Hframe.
Qed.

Lemma append_line_del_line_last_witness :
  rewritten {[ "f" := file_ab ]}
    (state_of (del_line epoch "f" (count_lines file_ab + 1)
       (state_of (append_line epoch "f" (bytes "X") {[ "f" := file_ab ]}))))
    "f" file_ab.
Proof.
  apply (append_line_del_line_last epoch epoch {[ "f" := file_ab ]} "f" file_ab (bytes "X")).
  - apply lookup_singleton_eq.
  - done.
  - done.
  - vm_compute. lia.
  - apply (bool_decide_unpack _). by vm_compute.
  - apply (bool_decide_unpack _). by vm_compute.
  - apply (bool_decide_unpack _). by vm_compute.
  - apply (bool_decide_unpack _). by vm_compute.
  - by vm_compute.
Defined.

(** ** What [verify_lines] checks *)

Section VerifyLines.

(** A pass of [verify_lines] that ends the scan never feeds the count. *)
Lemma verify_lines_loop_count (max_val : Z) (s : list byte) (lines linelen : Z)
    (first : bool) (n : Z) :
  verify_lines_loop max_val s (VState lines linelen first) = Verified n →
  fst (count_lines_loop s (lines, first)) = n.
Proof.
  revert lines linelen first. induction s as [|b s IH]; intros lines linelen first.
  - cbn [verify_lines_loop count_lines_loop verify_lines_body count_lines_body].
    change (char_of_int EOF) with EOF. change (EOF =? EOF) with true.
    change (EOF =? NL) with false. change (EOF =? NUL) with false.
    cbn [negb andb]. rewrite andb_false_r. cbn [v_lines fst]. congruence.
  - cbn [verify_lines_loop count_lines_loop verify_lines_body count_lines_body].
    destruct (char_of_byte b =? EOF) eqn:Eeof; cbn [negb andb].
    + rewrite andb_false_r.
      destruct (char_of_byte b =? NL) eqn:Enl;
        [apply Z.eqb_eq in Eeof, Enl; rewrite Eeof in Enl; discriminate|].
      cbn [andb].
      destruct (char_of_byte b =? NUL) eqn:Enul;
        [apply Z.eqb_eq in Eeof, Enul; rewrite Eeof in Enul; discriminate|].
      cbn [v_lines fst]. congruence.
    + rewrite andb_true_r.
      destruct (char_of_byte b =? NL) eqn:Enl; cbn [andb].
      * destruct (incr linelen >? size_t max_val); [done|].
        destruct (char_of_byte b =? NUL); [done|].
        destruct first; apply IH.
      * destruct (char_of_byte b =? NUL); [done|].
        destruct first; apply IH.
Qed.

End VerifyLines.

(** X13.  When [verify_lines] accepts a file, the number it returns is the
    number [count_lines] returns for that file, whatever the limit. *)
Theorem verify_lines_counts_like_count_lines :
  ∀ (f : list byte) (max_val n : Z),
    verify_lines f max_val = Verified n → count_lines f = n.
Proof. intros f max_val n. apply verify_lines_loop_count. Qed.

Lemma verify_lines_counts_like_count_lines_witness :
  count_lines file_abc = 3.
Proof.
  apply (verify_lines_counts_like_count_lines file_abc 2 3). by vm_compute.
Defined.

Section VerifyLinesChecks.

Variable max_val : Z.
Hypothesis max_range : 0 ≤ max_val < size_t_modulus.

(** One pass on a byte other than 0xFF. *)
Lemma verify_lines_body_byte (b : byte) (lines linelen : Z) (first : bool) :
  b ≠ xff → 0 ≤ linelen → linelen + 1 < size_t_modulus →
  verify_lines_body max_val (char_of_byte b) (VState lines linelen first)
  = if bool_decide (b = nl) && (linelen + 1 >? max_val)
    then inr (LineTooLong (if first then incr lines else lines) max_val)
    else if bool_decide (b = x00) then inr NulByteFound
    else inl (VState (if bool_decide (b = nl)
                      then incr (if first then incr lines else lines)
                      else (if first then incr lines else lines))
                (if bool_decide (b = nl) then 0 else linelen + 1) false).
Proof.
  intros Hb Hl0 Hl1. unfold verify_lines_body.
  rewrite char_of_byte_eof, char_of_byte_nl, char_of_byte_nul.
  rewrite (bool_decide_eq_false_2 (b = xff)) by done. cbn [negb].
  rewrite incr_small, size_t_small by lia.
  destruct (bool_decide (b = nl)); cbn [andb]; [|done].
  by destruct (linelen + 1 >? max_val).
Qed.

(** The scan from the middle of a line, [linelen] bytes into it: it
    accepts exactly when no byte is NUL, the line it is in fits if it is
    terminated, and so does every terminated line after it. *)
Lemma verify_lines_loop_accepts (s : list byte) (lines linelen : Z) (first : bool) :
  xff ∉ s → 0 ≤ linelen → linelen + Z.of_nat (length s) < size_t_modulus →
  (∃ n, verify_lines_loop max_val s (VState lines linelen first) = Verified n)
  ↔ (x00 ∉ s)
    ∧ (∀ text rest, s = text ++ nl :: rest → nl ∉ text →
         linelen + Z.of_nat (length text) + 1 ≤ max_val)
    ∧ (∀ pre text rest, s = pre ++ nl :: text ++ nl :: rest → nl ∉ text →
         Z.of_nat (length text) + 1 ≤ max_val).
Proof.
  revert lines linelen first.
  induction s as [|b s IH]; intros lines linelen first Hff Hl0 Hl1.
  - split.
    + intros _. split; [apply not_elem_of_nil|].
      split.
      * intros text rest E. by apply app_cons_not_nil in E.
      * intros pre text rest E. by apply app_cons_not_nil in E.
    + intros _. by eexists.
  - apply not_elem_of_cons in Hff as [Hb Hff]. cbn [length] in Hl1.
    cbn [verify_lines_loop]. rewrite verify_lines_body_byte by (done || lia).
    rewrite char_of_byte_eof, (bool_decide_eq_false_2 (b = xff)) by done.
    destruct (decide (b = nl)) as [->|Hnl].
    + rewrite bool_decide_eq_true_2 by done. cbn [andb].
      destruct (Z.gtb_spec (linelen + 1) max_val) as [Hgt|Hle].
      * split; [by intros [n ?]|].
        intros (_ & Hcur & _). specialize (Hcur [] s eq_refl (not_elem_of_nil _)).
        cbn [length] in Hcur. lia.
      * rewrite (bool_decide_eq_false_2 (nl = x00)) by done.
        rewrite IH by (done || lia). split.
        -- intros (Hnul & Hcur & Hnext). split; [|split].
           ++ apply not_elem_of_cons. by split.
           ++ intros [|b text] rest E Htext.
              ** cbn [length]. lia.
              ** injection E as <- _. by apply not_elem_of_cons in Htext as [? _].
           ++ intros [|b pre] text rest E Htext.
              ** injection E as ->. specialize (Hcur text rest eq_refl Htext). lia.
              ** injection E as _ ->. by apply (Hnext pre text rest).
        -- intros (Hnul & Hcur & Hnext). apply not_elem_of_cons in Hnul as [_ Hnul].
           split; [done|]. split.
           ++ intros text rest -> Htext.
              specialize (Hnext [] text rest eq_refl Htext). lia.
           ++ intros pre text rest -> Htext. by apply (Hnext (nl :: pre) text rest).
    + rewrite (bool_decide_eq_false_2 (b = nl)) by done. cbn [andb].
      destruct (decide (b = x00)) as [->|Hnul0].
      * rewrite bool_decide_eq_true_2 by done. split; [by intros [n ?]|].
        intros (Hnul & _). exfalso. apply Hnul. apply elem_of_cons. by left.
      * rewrite (bool_decide_eq_false_2 (b = x00)) by done.
        rewrite IH by (done || lia). split.
        -- intros (Hnul & Hcur & Hnext). split; [|split].
           ++ apply not_elem_of_cons. by split.
           ++ intros [|b' text] rest E Htext.
              ** by injection E as -> _.
              ** injection E as <- ->. apply not_elem_of_cons in Htext as [_ Htext].
                 specialize (Hcur text rest eq_refl Htext). cbn [length]. lia.
           ++ intros [|b' pre] text rest E Htext.
              ** by injection E as -> _.
              ** injection E as _ ->. by apply (Hnext pre text rest).
        -- intros (Hnul & Hcur & Hnext). apply not_elem_of_cons in Hnul as [_ Hnul].
           split; [done|]. split.
           ++ intros text rest -> Htext.
              assert (nl ∉ b :: text) as Htext' by (apply not_elem_of_cons; by split).
              specialize (Hcur (b :: text) rest eq_refl Htext').
              cbn [length] in Hcur. lia.
           ++ intros pre text rest -> Htext. by apply (Hnext (b :: pre) text rest).
Qed.

End VerifyLinesChecks.

Lemma verify_lines_accepts_iff (f : list byte) (max_val : Z) :
  xff ∉ f → Z.of_nat (length f) < off_t_max → 0 ≤ max_val < size_t_modulus →
  (∃ n, verify_lines f max_val = Verified n)
  ↔ (x00 ∉ f)
    ∧ ∀ text, terminated_line f text → Z.of_nat (length text) + 1 ≤ max_val.
Proof.
  intros Hff Hlen Hmax. unfold verify_lines.
  rewrite verify_lines_loop_accepts
    by (done || unfold off_t_max, size_t_modulus in *; lia).
  split.
  - intros (Hnul & Hcur & Hnext). split; [done|].
    intros text (pre & rest & -> & [->|[p ->]] & Htext).
    + specialize (Hcur text rest eq_refl Htext). lia.
    + apply (Hnext p text rest); [|done]. by rewrite <- app_assoc.
  - intros (Hnul & Hlines). split; [done|]. split.
    + intros text rest -> Htext.
      assert (Z.of_nat (length text) + 1 ≤ max_val); [|lia].
      apply Hlines. exists [], rest. split; [done|]. split; [by left|done].
    + intros pre text rest -> Htext. apply Hlines.
      exists (pre ++ [nl]), rest. split; [by rewrite <- app_assoc|].
      split; [right; by eexists|done].
Qed.

(** X14.  [verify_lines] accepts a file exactly when the file holds no NUL
    byte and every line that ends in a terminator is, terminator
    included, at most [max_val] bytes long.  A last line without
    terminator is not measured. *)
Theorem verify_lines_accepts (f : list byte) (max_val : Z) :
  xff ∉ f → Z.of_nat (length f) < off_t_max → 0 ≤ max_val < size_t_modulus →
  (∃ n, verify_lines f max_val = Verified n)
  ↔ (x00 ∉ f)
    ∧ ∀ text, terminated_line f text → Z.of_nat (length text) + 1 ≤ max_val.
Proof. apply verify_lines_accepts_iff. Qed.

Lemma verify_lines_accepts_witness :
  (∃ n, verify_lines file_abc 2 = Verified n)
  ↔ (x00 ∉ file_abc)
    ∧ ∀ text, terminated_line file_abc text → Z.of_nat (length text) + 1 ≤ 2.
Proof.
  apply (verify_lines_accepts file_abc 2).
  - apply (bool_decide_unpack _). by vm_compute.
  - by vm_compute.
  - unfold size_t_modulus. lia.
Defined.

(** ** The log as a list of entries *)

Lemma whole_entryb_spec (e : list byte) : whole_entryb e = true → whole_entry e.
Proof.
  unfold whole_entryb. intros H. apply bool_decide_eq_true in H.
  destruct H as (Hlast & Hnl & Hnul & Hff & Hlen).
  apply last_Some in Hlast as [text ->]. rewrite removelast_last in Hnl.
  exists text. split; [done|]. split; [done|].
  split; [|split; [|done]]; intros ?; [apply Hnul|apply Hff]; apply elem_of_app; by left.
Qed.

Lemma Forall_whole_entryb (es : list (list byte)) :
  forallb whole_entryb es = true → Forall whole_entry es.
Proof.
  induction es as [|e es IH]; [by constructor|]. cbn [forallb].
  intros [He Hes]%andb_prop. constructor; [by apply whole_entryb_spec|by apply IH].
Qed.

Lemma logged_length (es : list (list byte)) (e : list byte) :
  Z.of_nat (length (logged es e)) < CLOG_BUFFER.
Proof.
  unfold logged. destruct (Z.ltb_spec (Z.of_nat (length es) + 1) CLOG_BUFFER).
  - rewrite length_app. cbn [length]. lia.
  - rewrite length_drop, length_app. cbn [length]. unfold CLOG_BUFFER in *. lia.
Qed.

Lemma logged_suffix (es : list (list byte)) (e : list byte) :
  logged es e `suffix_of` es ++ [e].
Proof.
  unfold logged. destruct (Z.of_nat (length es) + 1 <? CLOG_BUFFER); [done|].
  apply suffix_drop.
Qed.

Lemma logged_last (es : list (list byte)) (e : list byte) :
  last (logged es e) = Some e.
Proof.
  unfold logged. destruct (Z.of_nat (length es) + 1 <? CLOG_BUFFER).
  - apply last_snoc.
  - rewrite drop_app_le by (unfold CLOG_BUFFER; lia). apply last_snoc.
Qed.

(** What [change_log] leaves in a log made of whole entries. *)
Lemma change_log_logged (now : tm) (logstr : list byte) (σ : fs) (es : list (list byte)) :
  default [] (σ !! LOGF) = concat es → Forall whole_entry es →
  whole_entry (log_entry now logstr) → Z.of_nat (length es) < off_t_max - 1 →
  state_of (change_log now logstr σ) !! LOGF
  = Some (concat (logged es (log_entry now logstr))).
Proof.
  intros Hlog Hes He Hlen. rewrite change_log_eq, Hlog.
  set (e := log_entry now logstr) in *.
  set (σ' := <[LOGF := concat es ++ e]> σ).
  assert (σ' !! LOGF = Some (concat (es ++ [e]))) as Hlog'.
  { unfold σ'. rewrite lookup_insert_eq, concat_app. cbn [concat]. by rewrite app_nil_r. }
  assert (Forall whole_entry (es ++ [e])) as Hes'
    by (apply Forall_app; split; [done|by constructor]).
  destruct (truncate_log_whole_entries σ' (es ++ [e]) Hlog' Hes') as [Hkeep Hcut].
  { rewrite length_app. cbn [length]. lia. }
  rewrite length_app in Hkeep, Hcut. cbn [length] in Hkeep, Hcut.
  unfold logged. destruct (Z.ltb_spec (Z.of_nat (length es) + 1) CLOG_BUFFER).
  - rewrite Hkeep by lia. done.
  - rewrite Hcut by lia. done.
Qed.





(** X17.  [display_log] on a log made of whole entries: without a path it
    prints every entry, in order; with a path it prints, in order, the
    entries in which the marker of that path stands before the first
    double quote, or that hold the marker and no double quote.  It
    writes nothing. *)
Theorem display_log_prints_entries (σ : fs) (es : list (list byte)) (fpath : string) :
  σ !! LOGF = Some (concat es) → Forall whole_entry es →
  Z.of_nat (length es) < off_t_max →
  x00 ∉ bytes fpath → Z.of_nat (length (bytes fpath)) ≤ MAXF →
  display_log None σ = Returned es σ
  ∧ display_log (Some fpath) σ
    = Returned (filter (marker_precedes_first_quote (marker fpath)) es) σ.
Proof. apply display_log_whole_entries. Qed.

Lemma display_log_prints_entries_witness :
  display_log None {[ LOGF := entry_a ++ entry_b ]}
  = Returned [entry_a; entry_b] {[ LOGF := entry_a ++ entry_b ]}
  ∧ display_log (Some "a.txt") {[ LOGF := entry_a ++ entry_b ]}
    = Returned (filter (marker_precedes_first_quote (marker "a.txt")) [entry_a; entry_b])
        {[ LOGF := entry_a ++ entry_b ]}.
Proof.
  apply (display_log_prints_entries {[ LOGF := entry_a ++ entry_b ]} [entry_a; entry_b]
           "a.txt").
  - by vm_compute.
  - apply Forall_whole_entryb. by vm_compute.
  - by vm_compute.
  - apply (bool_decide_unpack _). by vm_compute.
  - by vm_compute.
Defined.

(** ** Substitution in a line *)

(** With an empty key [strstr] finds the key where the buffer starts and
    the buffer does not move: the counting loop has no last pass. *)
Lemma count_key_empty_key (fuel : nat) (buffer : list byte) (n : Z) :
  count_key fuel buffer [] n = None.
Proof.
  revert n. induction fuel as [|fuel IH]; intros n; [done|].
  cbn [count_key]. destruct buffer; cbn [strstr is_prefix length Nat.add drop]; apply IH.
Qed.

Section Substitution.

Variables key sub : list byte.
Hypothesis key_not_empty : key ≠ [].

(** Where [strstr] finds the key, the line splits around it. *)
Lemma strstr_split (line : list byte) (i : nat) :
  strstr line key = Some i →
  line = take i line ++ key ++ drop (i + length key) line
  ∧ first_occurrence key line i.
Proof.
  intros Hs. pose proof (strstr_Some _ _ _ Hs) as Hfirst. split; [|done].
  destruct Hfirst as [(pre & post & -> & <-) _].
  rewrite take_app_length. rewrite drop_app_add'; [|done].
  by rewrite drop_app_length.
Qed.

(** The count of the loop and the substitutions of [string_sub] agree,
    and the result has the length the allocation is computed for. *)
Lemma count_key_string_sub (fuel : nat) (line tmp : list byte) (n : Z) :
  (length line < fuel)%nat →
  ∃ (k : nat) (r : list byte),
    count_key fuel line key n = Some (n + Z.of_nat k)
    ∧ string_sub_loop k line key sub tmp = Some (tmp ++ r)
    ∧ substitutes key sub line r
    ∧ Z.of_nat (length r)
      = Z.of_nat (length line)
        + (Z.of_nat (length sub) - Z.of_nat (length key)) * Z.of_nat k
    ∧ (k ≤ length line)%nat.
Proof.
  revert line tmp n. induction fuel as [|fuel IH]; intros line tmp n Hfuel; [lia|].
  cbn [count_key]. destruct (strstr line key) as [i|] eqn:Hs.
  - destruct (strstr_split line i Hs) as [Hline Hfirst].
    assert (length key ≠ 0)%nat by (by destruct key).
    assert (length line = i + length key + length (drop (i + length key) line))%nat
      as Hlen.
    { rewrite Hline at 1. rewrite !length_app, length_take.
      destruct Hfirst as [(pre & post & -> & <-) _]. rewrite length_app. lia. }
    destruct (IH (drop (i + length key) line) (tmp ++ take i line ++ sub) (n + 1))
      as (k & r & Hcount & Hloop & Hsub & Hr & Hk); [lia|].
    exists (S k), (take i line ++ sub ++ r). split; [|split; [|split; [|split]]].
    + rewrite Hcount. f_equal. lia.
    + cbn [string_sub_loop]. rewrite Hs, Hloop. by rewrite <- !app_assoc.
    + rewrite Hline at 1. apply substitutes_first; [|done].
      rewrite <- Hline. rewrite length_take. by replace (i `min` length line)%nat with i by lia.
    + rewrite !length_app, length_take, !Nat2Z.inj_add, Hr. lia.
    + lia.
  - exists 0%nat, line. split; [|split; [|split; [|split]]].
    + f_equal. lia.
    + done.
    + apply substitutes_none. intros j. by apply strstr_None.
    + lia.
    + lia.
Qed.

End Substitution.

(** ** [replace] on the file system *)

Lemma final_lift {A : Type} (m : M A) (σ : fs) : final (lift m σ) = state_of (m σ).
Proof. unfold lift. by destruct (m σ). Qed.

Lemma lift_bind {A B : Type} (m : M A) (k : A → M B) (σ : fs) :
  (lift m ≫= λ x, lift (k x)) σ = lift (m ≫= k) σ.
Proof. unfold lift, mbind, Op_bind, M_bind. by destruct (m σ). Qed.

Section ReplaceState.

Variable now : tm.
Variables (σ : fs) (fpath : string).
Hypothesis not_log : fpath ≠ LOGF.
Hypothesis not_scratch : fpath ≠ TEMPF.

(** Once [verify_lines] has accepted the file and the loop has run to
    the end of it, [replace] replaces the file by what the loop wrote. *)
Lemma replace_rewrites (f key sub temp : list byte) :
  σ !! fpath = Some f →
  verify_lines_ret (verify_lines f (MAX - 2)) ≠ -1 →
  x00 ∉ key → x00 ∉ sub →
  replace_temp f key sub = Some (RState temp None) →
  rewritten σ (final (replace now fpath key sub σ)) fpath temp.
Proof.
  intros Hf Hret Hkey Hsub Htemp. unfold replace.
  rewrite !c_str_id by done. cbv zeta.
  unfold mbind at 1, Op_bind at 1, lift at 1, Sys.fopen_r. rewrite Hf.
  destruct (Z.eqb_spec (verify_lines_ret (verify_lines f (MAX - 2))) (-1)); [done|].
  rewrite Htemp. rewrite lift_bind, final_lift.
  rewrite (rewrite_protocol _ _ σ fpath f) by done.
  by apply rewritten_state.
Qed.

End ReplaceState.

(** What [fgets] stores and what it leaves make up the stream. *)
Lemma fgets_read_app (room : nat) (s : list byte) :
  (fgets_read room s).1 ++ (fgets_read room s).2 = s.
Proof.
  revert s. induction room as [|room IH]; intros s; [done|].
  destruct s as [|b s]; [done|]. cbn [fgets_read].
  destruct (Byte.eqb b nl); [done|].
  specialize (IH s). destruct (fgets_read room s) as [l rest]. cbn [fst snd app] in *.
  by rewrite IH.
Qed.

(** The lines [fgets] delivers from a file free of NUL make up the
    file. *)
Lemma fgets_lines_concat (fuel : nat) (n : Z) (s : list byte) (ls : list (list byte)) :
  x00 ∉ s → fgets_lines fuel n s = Some ls → concat ls = s.
Proof.
  revert s ls. induction fuel as [|fuel IH]; intros s ls Hnul; [done|].
  cbn [fgets_lines]. unfold fgets. destruct s as [|b s]; [by intros [= <-]|].
  pose proof (fgets_read_app (Z.to_nat (n - 1)) (b :: s)) as Happ.
  destruct (fgets_read (Z.to_nat (n - 1)) (b :: s)) as [line s'].
  cbn [fst snd] in Happ.
  destruct (fgets_lines fuel n s') as [ls'|] eqn:E; [|done].
  cbn [fmap option_fmap option_map]. intros [= <-].
  rewrite <- Happ in Hnul. apply not_elem_of_app in Hnul as [Hline Hs'].
  cbn [concat]. rewrite c_str_id by done. by rewrite (IH s' ls' Hs' E).
Qed.

(** Lines without the key are written as they are. *)
Lemma fold_replace_body_absent (key sub : list byte) (ls : list (list byte))
    (temp : list byte) :
  Forall (λ l, strstr l key = None) ls →
  fold_left (replace_body key sub) ls (RState temp None) = RState (temp ++ concat ls) None.
Proof.
  intros Hls. revert temp. induction Hls as [|l ls Hl _ IH]; intros temp.
  - by rewrite app_nil_r.
  - cbn [fold_left concat]. unfold replace_body at 2. cbn [r_stop r_temp].
    rewrite Hl, IH. by rewrite <- app_assoc.
Qed.

(** An occurrence in a line is an occurrence in the file. *)
Lemma occurs_at_concat (key l : list byte) (ls : list (list byte)) (j : nat) :
  l ∈ ls → occurs_at key l j → ∃ i, occurs_at key (concat ls) i.
Proof.
  intros (l1 & l2 & ->)%list_elem_of_split (pre & post & -> & _).
  exists (length (concat l1 ++ pre)), (concat l1 ++ pre), (post ++ concat l2).
  split; [|done]. rewrite concat_app. cbn [concat]. by rewrite <- !app_assoc.
Qed.

Lemma replace_temp_absent (f key sub : list byte) :
  x00 ∉ f → (∀ i, ¬ occurs_at key f i) →
  replace_temp f key sub = Some (RState f None).
Proof.
  intros Hnul Habsent. unfold replace_temp. rewrite while_fgets_lines.
  destruct (fgets_lines_total (S (length f)) (MAX - 1) f) as [ls Hls];
    [unfold MAX; lia|lia|].
  rewrite Hls. cbn [fmap option_fmap option_map].
  pose proof (fgets_lines_concat _ _ _ _ Hnul Hls) as Hcat.
  rewrite fold_replace_body_absent; [by rewrite Hcat|].
  apply Forall_forall. intros l Hl.
  destruct (strstr l key) as [i|] eqn:Hs; [|done]. exfalso.
  destruct (strstr_Some _ _ _ Hs) as [Hocc _].
  destruct (occurs_at_concat key l ls i Hl Hocc) as [j Hj].
  rewrite Hcat in Hj. by apply (Habsent j).
Qed.

(** The value [verify_lines] returns for a file it accepts is not -1. *)
Lemma verify_lines_ret_accepted (f : list byte) (max_val n : Z) :
  xff ∉ f → Z.of_nat (length f) < off_t_max →
  verify_lines f max_val = Verified n →
  verify_lines_ret (verify_lines f max_val) ≠ -1.
Proof.
  intros Hff Hlen Hv. rewrite Hv. cbn [verify_lines_ret].
  apply verify_lines_loop_count in Hv. fold (count_lines f) in Hv.
  rewrite count_lines_terminators in Hv by (done || lia).
  pose proof (terminators_nonneg f). pose proof (terminators_le_length f).
  assert (0 ≤ n < 2 ^ 63) by (unfold off_t_max in *; destruct f; lia).
  unfold ssize_t, size_t_modulus. rewrite Z.mod_small by lia.
  destruct (Z.ltb_spec n (2 ^ 63)); lia.
Qed.

(** X18.  For a file free of the byte 0xFF (not the log or the scratch
    file, within the size off_t allows) that verify_lines accepts with the
    limit MAX - 2, and a key and a substitute free of NUL: replace with a
    key that occurs nowhere in the file leaves the file byte for byte as
    it was (whatever its line endings or last line). No scratch file is
    left and no file other than the edited one and the log changes. *)
Theorem replace_absent_key (now : tm) (σ : fs) (fpath : string) (f key sub : list byte)
    (n : Z) :
  σ !! fpath = Some f → fpath ≠ LOGF → fpath ≠ TEMPF →
  xff ∉ f → Z.of_nat (length f) < off_t_max →
  verify_lines f (MAX - 2) = Verified n →
  x00 ∉ key → x00 ∉ sub → (∀ i, ¬ occurs_at key f i) →
  rewritten σ (final (replace now fpath key sub σ)) fpath f.
Proof.
  intros Hf H1 H2 Hff Hlen Hv Hkey Hsub Habsent.
  assert (x00 ∉ f) as Hnul.
  { apply (verify_lines_accepts_iff f (MAX - 2)); [done|done| |by exists n].
    unfold MAX, size_t_modulus. lia. }
  apply replace_rewrites with (f := f); try done.
  - by apply (verify_lines_ret_accepted f (MAX - 2) n).
  - by apply replace_temp_absent.
Qed.

Lemma replace_absent_key_witness :
  rewritten {[ "f" := file_ab ]}
    (final (replace epoch "f" (bytes "X") (bytes "Y") {[ "f" := file_ab ]})) "f" file_ab.
Proof.
  apply (replace_absent_key epoch {[ "f" := file_ab ]} "f" file_ab (bytes "X") (bytes "Y") 2).
  - apply lookup_singleton_eq.
  - done.
  - done.
  - apply (bool_decide_unpack _). by vm_compute.
  - by vm_compute.
  - by vm_compute.
  - apply (bool_decide_unpack _). by vm_compute.
  - apply (bool_decide_unpack _). by vm_compute.
  - intros i. apply strstr_None. by vm_compute.
Defined.

(** ** [replace] on a file of terminated lines *)

Section ReplaceLines.

Variables key sub : list byte.
Hypothesis key_not_empty : key ≠ [].
Hypothesis key_no_nl : nl ∉ key.

Lemma is_prefix_snoc_nl (k t : list byte) :
  nl ∉ k → k ≠ [] → is_prefix k (t ++ [nl]) = is_prefix k t.
Proof.
  revert t. induction k as [|a k IH]; intros t Hnl Hne; [done|].
  apply not_elem_of_cons in Hnl as [Ha Hk].
  destruct t as [|b t]; cbn [app is_prefix].
  - rewrite byte_eqb_decide, bool_decide_eq_false_2 by done. done.
  - destruct k as [|a' k]; [done|]. by rewrite IH.
Qed.

Lemma strstr_snoc_nl (t : list byte) : strstr (t ++ [nl]) key = strstr t key.
Proof.
  induction t as [|b t IH].
  - cbn [app strstr]. change [nl] with ([] ++ [nl]).
    rewrite is_prefix_snoc_nl by done. cbn [app].
    destruct (is_prefix key []) eqn:E; [done|].
    destruct key as [|a k]; [done|]. cbn [strstr is_prefix]. done.
  - cbn [app strstr]. change (b :: t ++ [nl]) with ((b :: t) ++ [nl]).
    rewrite is_prefix_snoc_nl by done. by rewrite IH.
Qed.

Lemma count_key_snoc_nl (fuel : nat) (t : list byte) (n : Z) :
  count_key fuel (t ++ [nl]) key n = count_key fuel t key n.
Proof.
  revert t n. induction fuel as [|fuel IH]; intros t n; [done|].
  cbn [count_key]. rewrite strstr_snoc_nl.
  destruct (strstr t key) as [i|] eqn:Hs; [|done].
  destruct (strstr_Some _ _ _ Hs) as [(pre & post & -> & <-) _].
  rewrite drop_app_le by (rewrite !length_app; lia). apply IH.
Qed.

End ReplaceLines.

(** The end-of-line bytes [replace] and [search] cut off a line. *)
Lemma strip_eol_len_app (t s : list byte) (k : nat) :
  (k ≤ length t)%nat → strip_eol_len (t ++ s) k = strip_eol_len t k.
Proof.
  induction k as [|k IH]; intros Hk; [done|]. cbn [strip_eol_len].
  rewrite lookup_app_l by lia. destruct (t !! k) as [b|]; [|done].
  destruct (Byte.eqb b nl || Byte.eqb b cr); [|done]. apply IH. lia.
Qed.

Lemma strip_eol_len_plain (t : list byte) (k : nat) :
  nl ∉ t → cr ∉ t → (k ≤ length t)%nat → strip_eol_len t k = k.
Proof.
  intros Hnl Hcr Hk. destruct k as [|k]; [done|]. cbn [strip_eol_len].
  destruct (t !! k) as [b|] eqn:E; [|done].
  apply list_elem_of_lookup_2 in E.
  rewrite !byte_eqb_decide, !bool_decide_eq_false_2; [done| |]; by intros ->.
Qed.

Lemma strip_eol_plain (t : list byte) :
  nl ∉ t → cr ∉ t → Z.of_nat (length t) < MAX → strip_eol t = t.
Proof.
  intros Hnl Hcr Hlen. unfold strip_eol.
  rewrite strip_eol_len_plain by (done || lia).
  destruct (Z.eqb_spec (Z.of_nat (length t)) MAX); [lia|]. apply firstn_all.
Qed.

Lemma strip_eol_terminated (t : list byte) :
  nl ∉ t → cr ∉ t → Z.of_nat (length t) < MAX → strip_eol (t ++ [nl]) = t.
Proof.
  intros Hnl Hcr Hlen. unfold strip_eol.
  rewrite length_app. cbn [length]. replace (length t + 1)%nat with (S (length t)) by lia.
  cbn [strip_eol_len]. rewrite lookup_app_r, Nat.sub_diag by lia. cbn [lookup list_lookup].
  change (Byte.eqb nl nl || Byte.eqb nl cr) with true. cbv iota.
  rewrite strip_eol_len_app, strip_eol_len_plain by (done || lia).
  destruct (Z.eqb_spec (Z.of_nat (length t)) MAX); [lia|].
  by rewrite take_app_length.
Qed.

Section TextFiles.

Lemma plain_line_length (texts : list (list byte)) :
  (length texts ≤ length (text_file texts))%nat.
Proof.
  unfold text_file. induction texts as [|t texts IH]; [done|].
  cbn [map concat length]. rewrite !length_app. cbn [length]. lia.
Qed.

Lemma text_file_cons (t : list byte) (texts : list (list byte)) :
  text_file (t :: texts) = t ++ nl :: text_file texts.
Proof. unfold text_file. cbn [map concat]. by rewrite <- app_assoc. Qed.

Lemma text_file_no (b : byte) (texts : list (list byte)) :
  b ≠ nl → Forall (λ t, b ∉ t) texts → b ∉ text_file texts.
Proof.
  intros Hb. induction 1 as [|t texts Ht _ IH]; [apply not_elem_of_nil|].
  rewrite text_file_cons, elem_of_app, elem_of_cons. intros [?|[?|?]]; done.
Qed.

End TextFiles.

Section ReplaceBody.

Variables key sub : list byte.
Hypothesis key_not_empty : key ≠ [].
Hypothesis key_no_nl : nl ∉ key.
Hypothesis sub_no_nul : x00 ∉ sub.
Hypothesis sub_length : Z.of_nat (length sub) ≤ MAX.

Lemma substitutes_no_nul (l r : list byte) :
  substitutes key sub l r → x00 ∉ l → x00 ∉ r.
Proof.
  induction 1 as [l _|a b r _ _ IH]; [done|].
  rewrite !elem_of_app. intros Hl [?|[?|?]]; [tauto|done|tauto].
Qed.

Lemma count_key_step (fuel : nat) (buffer : list byte) (n : Z) :
  count_key (S fuel) buffer key n
  = match strstr buffer key with
    | None => Some n
    | Some i => count_key fuel (drop (i + length key) buffer) key (n + 1)
    end.
Proof. done. Qed.

(** One pass of the loop on a plain line and its terminator. *)
Lemma replace_body_line (t temp : list byte) :
  plain_line t →
  ∃ r, replace_body key sub (RState temp None) (t ++ [nl]) = RState (temp ++ r ++ [nl]) None
       ∧ substitutes key sub t r.
Proof.
  intros (Hnl & Hcr & Hnul & Hff & Hlen). unfold replace_body. cbn [r_stop r_temp].
  rewrite strstr_snoc_nl by done.
  destruct (count_key_string_sub key sub key_not_empty (S (S (S (length t)))) t [] 0)
    as (k & r & Hcount & Hloop & Hsub & Hr & Hk); [lia|].
  rewrite count_key_step in Hcount. change (0 + 1) with 1 in Hcount.
  destruct (strstr t key) as [i|] eqn:Hs.
  - destruct (strstr_Some _ _ _ Hs) as [(pre & post & Ht & Hi) _].
    rewrite drop_app_le by (rewrite Ht, !length_app; lia).
    rewrite count_key_snoc_nl by done.
    rewrite length_app. cbn [length]. replace (length t + 1)%nat with (S (length t)) by lia.
    rewrite Hcount. rewrite strip_eol_terminated by (done || unfold MAX in *; lia).
    unfold string_sub.
    destruct (Z.eqb_spec (Z.of_nat (length key)) 0) as [E|_];
      [by destruct key|].
    destruct (Z.ltb_spec (0 + Z.of_nat k) 0); [lia|].
    replace (Z.to_nat (0 + Z.of_nat k)) with k by lia. rewrite Hloop. cbn [app].
    unfold string_sub_size.
    assert (Z.of_nat (length r) + 1 < size_t_modulus).
    { assert (Z.of_nat (length r)
              ≤ Z.of_nat (length t) + Z.of_nat (length sub) * Z.of_nat k) by nia.
      unfold MAX, size_t_modulus in *. nia. }
    replace (Z.of_nat (length t)
             + (Z.of_nat (length sub) - Z.of_nat (length key)) * (0 + Z.of_nat k) + 1)
      with (Z.of_nat (length r) + 1) by lia.
    rewrite size_t_small by lia.
    destruct (Z.leb_spec (Z.of_nat (length r) + 1) (Z.of_nat (length r) + 1)); [|lia].
    exists r. split; [|done]. unfold fmt_s.
    by rewrite c_str_id by (by apply (substitutes_no_nul t)).
  - exists t. split; [done|].
    apply substitutes_none. intros j. by apply strstr_None.
Qed.

Lemma fold_replace_body_lines (texts : list (list byte)) (temp : list byte) :
  Forall plain_line texts →
  ∃ texts', fold_left (replace_body key sub) (map (λ t, t ++ [nl]) texts) (RState temp None)
            = RState (temp ++ text_file texts') None
            ∧ Forall2 (substitutes key sub) texts texts'.
Proof.
  intros Htexts. revert temp. induction Htexts as [|t texts Ht _ IH]; intros temp.
  - exists []. split; [|by constructor]. unfold text_file. cbn. by rewrite app_nil_r.
  - destruct (replace_body_line t temp Ht) as (r & Hbody & Hr).
    destruct (IH (temp ++ r ++ [nl])) as (texts' & Hfold & Hall).
    exists (r :: texts'). split; [|by constructor].
    cbn [map fold_left]. rewrite Hbody, Hfold, text_file_cons.
    by rewrite <- !app_assoc.
Qed.

End ReplaceBody.


#[global] Instance plain_line_dec (t : list byte) : Decision (plain_line t).
Proof. unfold plain_line. apply _. Defined.

(** ** [replace] on a file whose last line may lack its terminator *)

Lemma fgets_read_unterminated (room : nat) (t : list byte) :
  nl ∉ t → (length t ≤ room)%nat → fgets_read room t = (t, []).
Proof.
  revert room. induction t as [|b t IH]; intros room Hnl Hroom.
  - by destruct room.
  - apply not_elem_of_cons in Hnl as [Hb Hnl].
    destruct room as [|room]; [cbn [length] in Hroom; lia|]. cbn [fgets_read].
    rewrite byte_eqb_decide, bool_decide_eq_false_2 by done.
    rewrite IH by (done || cbn [length] in Hroom; lia). done.
Qed.

Lemma fgets_lines_texts_last (fuel : nat) (texts : list (list byte)) (last : list byte) :
  Forall plain_line texts → plain_line last → (length texts + length last < fuel)%nat →
  fgets_lines fuel (MAX - 1) (text_file texts ++ last)
  = Some (map (λ t, t ++ [nl]) texts ++ (if last is [] then [] else [last])).
Proof.
  intros Htexts (Hnl & Hcr & Hnul & Hff & Hlen). revert fuel.
  induction Htexts as [|t texts (Htnl & Htcr & Htnul & Htff & Htlen) _ IH]; intros fuel Hfuel.
  - unfold text_file. cbn [map concat app].
    destruct last as [|b last]; [by destruct fuel; [cbn [length] in Hfuel; lia|]|].
    destruct fuel as [|[|fuel]]; [cbn [length] in Hfuel; lia..|].
    cbn [fgets_lines]. unfold fgets.
    rewrite fgets_read_unterminated by (done || unfold MAX in *; lia).
    cbn [fgets_lines fgets fmap option_fmap option_map]. by rewrite c_str_id.
  - destruct fuel as [|fuel]; [lia|]. rewrite text_file_cons, <- app_assoc.
    cbn [fgets_lines length map app] in *. unfold fgets.
    destruct (t ++ nl :: text_file texts ++ last) eqn:E; [by destruct t|]. rewrite <- E.
    rewrite fgets_read_line; [|done|unfold MAX in *; lia].
    rewrite IH by lia. cbn [fmap option_fmap option_map]. f_equal. f_equal.
    apply c_str_id. rewrite elem_of_app, elem_of_cons, elem_of_nil. intros [?|[?|?]]; done.
Qed.

(** [verify_lines] on what follows the last terminator. *)
Lemma verify_lines_loop_tail (max_val : Z) (last : list byte) (lines linelen : Z)
    (first : bool) :
  nl ∉ last → x00 ∉ last → xff ∉ last →
  0 ≤ linelen → linelen + Z.of_nat (length last) < size_t_modulus →
  ∃ n, verify_lines_loop max_val last (VState lines linelen first) = Verified n.
Proof.
  revert lines linelen first.
  induction last as [|b last IH]; intros lines linelen first Hnl Hnul Hff Hl0 Hl1.
  - by eexists.
  - apply not_elem_of_cons in Hnl as [? ?]. apply not_elem_of_cons in Hnul as [? ?].
    apply not_elem_of_cons in Hff as [? ?]. cbn [length] in Hl1.
    cbn [verify_lines_loop verify_lines_body].
    rewrite char_of_byte_eof, char_of_byte_nl, char_of_byte_nul.
    rewrite !bool_decide_eq_false_2 by done. cbn [negb andb].
    rewrite (incr_small linelen) by lia. apply IH; done || lia.
Qed.

Lemma verify_lines_loop_texts_last (texts : list (list byte)) (last : list byte)
    (lines : Z) (first : bool) :
  Forall plain_line texts → plain_line last → 0 ≤ lines →
  lines + Z.of_nat (length texts) + (if first then 2 else 1) < size_t_modulus →
  ∃ n, verify_lines_loop (MAX - 2) (text_file texts ++ last) (VState lines 0 first)
       = Verified n.
Proof.
  intros Htexts (Hnl & Hcr & Hnul & Hff & Hlen). revert lines first.
  induction Htexts as [|t texts (Htnl & Htcr & Htnul & Htff & Htlen) _ IH];
    intros lines first Hl0 Hl1.
  - unfold text_file. cbn [map concat app].
    apply verify_lines_loop_tail; [done|done|done|done|].
    unfold MAX, size_t_modulus in *. lia.
  - rewrite text_file_cons, <- app_assoc. cbn [length app] in *.
    rewrite verify_lines_loop_line;
      [|done|done|done|done|destruct first; lia|done|lia|unfold MAX, size_t_modulus; lia].
    apply IH; destruct first; lia.
Qed.

Lemma verify_lines_ret_texts_last (texts : list (list byte)) (last : list byte) :
  Forall plain_line texts → plain_line last →
  Z.of_nat (length (text_file texts ++ last)) < off_t_max →
  verify_lines_ret (verify_lines (text_file texts ++ last) (MAX - 2)) ≠ -1.
Proof.
  intros Htexts Hlast Hlen. pose proof (plain_line_length texts).
  rewrite length_app in Hlen.
  destruct (verify_lines_loop_texts_last texts last 0 true Htexts Hlast) as [n Hn];
    [done|unfold off_t_max, size_t_modulus in *; lia|].
  apply (verify_lines_ret_accepted _ _ n); [|rewrite length_app; lia|done].
  destruct Hlast as (_ & _ & _ & Hff & _).
  rewrite elem_of_app. intros [Hin|Hin]; [|done]. revert Hin.
  apply text_file_no; [done|]. eapply Forall_impl; [exact Htexts|].
  by intros t (_ & _ & _ & ? & _).
Qed.

Section ReplaceLast.

Variables key sub : list byte.
Hypothesis key_not_empty : key ≠ [].
Hypothesis sub_no_nul : x00 ∉ sub.
Hypothesis sub_length : Z.of_nat (length sub) ≤ MAX.

(** One pass of the loop on a last line without terminator. *)
Lemma replace_body_last (t temp : list byte) :
  plain_line t →
  ∃ r, substitutes key sub t r
       ∧ ((∀ i, ¬ occurs_at key t i) →
          replace_body key sub (RState temp None) t = RState (temp ++ t) None)
       ∧ ((∃ i, occurs_at key t i) →
          replace_body key sub (RState temp None) t = RState (temp ++ r ++ [nl]) None).
Proof.
  intros (Hnl & Hcr & Hnul & Hff & Hlen).
  destruct (count_key_string_sub key sub key_not_empty (S (S (length t))) t [] 0)
    as (k & r & Hcount & Hloop & Hsub & Hr & Hk); [lia|].
  exists r. split; [done|].
  unfold replace_body. cbn [r_stop r_temp].
  rewrite count_key_step in Hcount. change (0 + 1) with 1 in Hcount.
  destruct (strstr t key) as [i|] eqn:Hs.
  - split.
    + intros Habsent. destruct (strstr_Some _ _ _ Hs) as [Hocc _].
      by destruct (Habsent i).
    + intros _. rewrite Hcount.
      rewrite strip_eol_plain by (done || unfold MAX in *; lia).
      unfold string_sub.
      destruct (Z.eqb_spec (Z.of_nat (length key)) 0) as [E|_]; [by destruct key|].
      destruct (Z.ltb_spec (0 + Z.of_nat k) 0); [lia|].
      replace (Z.to_nat (0 + Z.of_nat k)) with k by lia. rewrite Hloop. cbn [app].
      unfold string_sub_size.
      assert (Z.of_nat (length r) + 1 < size_t_modulus).
      { assert (Z.of_nat (length r)
                ≤ Z.of_nat (length t) + Z.of_nat (length sub) * Z.of_nat k) by nia.
        unfold MAX, size_t_modulus in *. nia. }
      replace (Z.of_nat (length t)
               + (Z.of_nat (length sub) - Z.of_nat (length key)) * (0 + Z.of_nat k) + 1)
        with (Z.of_nat (length r) + 1) by lia.
      rewrite size_t_small by lia.
      destruct (Z.leb_spec (Z.of_nat (length r) + 1) (Z.of_nat (length r) + 1)); [|lia].
      unfold fmt_s.
      by rewrite c_str_id by (by apply (substitutes_no_nul key sub sub_no_nul t)).
  - split; [done|]. intros [i Hocc]. by destruct (strstr_None _ _ i Hs).
Qed.

End ReplaceLast.



(** [string_sub] called with the count the counting loop finds in the
    string it is given. *)
Lemma string_sub_counted (line key sub : list byte) (n : Z) :
  key ≠ [] → Z.of_nat (length line) < MAX → Z.of_nat (length sub) ≤ MAX →
  count_key (S (length line)) line key 0 = Some n →
  ∃ r, string_sub line key sub n = Substituted r
       ∧ substitutes key sub line r
       ∧ Z.of_nat (length r) + 1 = string_sub_size line key sub n.
Proof.
  intros Hkey Hlen Hslen Hn.
  destruct (count_key_string_sub key sub Hkey (S (length line)) line [] 0)
    as (k & r & Hcount & Hloop & Hsub & Hr & Hk); [lia|].
  rewrite Hcount in Hn. injection Hn as <-. cbn [app] in Hloop.
  assert (Z.of_nat (length r) + 1 < size_t_modulus).
  { assert (Z.of_nat (length r)
            ≤ Z.of_nat (length line) + Z.of_nat (length sub) * Z.of_nat k) by nia.
    unfold MAX, size_t_modulus in *. nia. }
  assert (string_sub_size line key sub (0 + Z.of_nat k) = Z.of_nat (length r) + 1) as Hsize.
  { unfold string_sub_size.
    replace (Z.of_nat (length line)
             + (Z.of_nat (length sub) - Z.of_nat (length key)) * (0 + Z.of_nat k) + 1)
      with (Z.of_nat (length r) + 1) by lia.
    apply size_t_small. lia. }
  exists r. split; [|by split]. unfold string_sub. rewrite Hsize.
  destruct (Z.eqb_spec (Z.of_nat (length key)) 0) as [E|_]; [by destruct key|].
  destruct (Z.ltb_spec (0 + Z.of_nat k) 0); [lia|].
  replace (Z.to_nat (0 + Z.of_nat k)) with k by lia. rewrite Hloop.
  by destruct (Z.leb_spec (Z.of_nat (length r) + 1) (Z.of_nat (length r) + 1)); [|lia].
Qed.

(** [replace] counts the key in the line as [fgets] delivers it and
    substitutes in the line cut at its end-of-line bytes.  What is cut
    off consists of terminators and carriage returns. *)
Lemma strip_eol_len_le (line : list byte) (k : nat) : (strip_eol_len line k ≤ k)%nat.
Proof.
  induction k as [|k IH]; [done|]. cbn [strip_eol_len].
  destruct (line !! k) as [b|]; [|done].
  destruct (Byte.eqb b nl || Byte.eqb b cr); lia.
Qed.

Lemma strip_eol_len_cut (line : list byte) (k j : nat) (b : byte) :
  (strip_eol_len line k ≤ j < k)%nat → line !! j = Some b → b = nl ∨ b = cr.
Proof.
  induction k as [|k IH]; intros Hj Hb; [lia|]. cbn [strip_eol_len] in Hj.
  destruct (line !! k) as [c|] eqn:Hk; [|lia].
  destruct (Byte.eqb c nl || Byte.eqb c cr) eqn:Hc; [|lia].
  destruct (decide (j = k)) as [->|].
  - rewrite Hk in Hb. injection Hb as <-.
    apply orb_true_iff in Hc as [Hc|Hc]; apply Byte.byte_dec_bl in Hc; auto.
  - apply IH; [lia|done].
Qed.

Lemma strip_eol_split (line : list byte) :
  Z.of_nat (length line) < MAX →
  ∃ tail, line = strip_eol line ++ tail ∧ Forall (λ b, b = nl ∨ b = cr) tail.
Proof.
  intros Hlen. unfold strip_eol.
  pose proof (strip_eol_len_le line (length line)) as Hle.
  destruct (Z.eqb_spec (Z.of_nat (strip_eol_len line (length line))) MAX); [lia|].
  exists (drop (strip_eol_len line (length line)) line).
  split; [by rewrite take_drop|].
  apply Forall_lookup. intros j b Hb. rewrite lookup_drop in Hb.
  apply (strip_eol_len_cut line (length line) (strip_eol_len line (length line) + j) b);
    [|done].
  apply lookup_lt_Some in Hb. lia.
Qed.

Section KeyInLine.

Variable key : list byte.
Hypothesis key_not_empty : key ≠ [].

(** Bytes that the key does not hold, put after a line, add no
    occurrence of the key. *)
Lemma is_prefix_tail (k t tail : list byte) :
  k ≠ [] → Forall (λ b, b ∉ k) tail → is_prefix k (t ++ tail) = is_prefix k t.
Proof.
  revert t. induction k as [|a k IH]; intros t Hne Htail; [done|].
  destruct t as [|c t]; cbn [app].
  - destruct tail as [|b tail]; [done|]. cbn [is_prefix].
    apply Forall_cons in Htail as [Hb _]. apply not_elem_of_cons in Hb as [Hb _].
    rewrite byte_eqb_decide, bool_decide_eq_false_2 by done. done.
  - cbn [is_prefix]. destruct k as [|a' k]; [done|]. rewrite IH; [done|done|].
    eapply Forall_impl; [exact Htail|]. intros b Hb. by apply not_elem_of_cons in Hb as [_ ?].
Qed.

Lemma strstr_only_tail (tail : list byte) :
  Forall (λ b, b ∉ key) tail → strstr tail key = None.
Proof.
  assert (is_prefix key [] = false) as Hnil by (by destruct key).
  induction 1 as [|b tail Hb Htail IH]; cbn [strstr].
  - by rewrite Hnil.
  - change (b :: tail) with ([] ++ b :: tail).
    rewrite is_prefix_tail by (done || by constructor). by rewrite Hnil, IH.
Qed.

Lemma strstr_tail (t tail : list byte) :
  Forall (λ b, b ∉ key) tail → strstr (t ++ tail) key = strstr t key.
Proof.
  intros Htail. induction t as [|c t IH].
  - cbn [app]. rewrite strstr_only_tail by done. by destruct key.
  - cbn [app strstr]. change (c :: t ++ tail) with ((c :: t) ++ tail).
    rewrite is_prefix_tail by done. by rewrite IH.
Qed.

Lemma count_key_tail (fuel : nat) (t tail : list byte) (n : Z) :
  Forall (λ b, b ∉ key) tail →
  count_key fuel (t ++ tail) key n = count_key fuel t key n.
Proof.
  intros Htail. revert t n. induction fuel as [|fuel IH]; intros t n; [done|].
  cbn [count_key]. rewrite strstr_tail by done.
  destruct (strstr t key) as [i|] eqn:Hs; [|done].
  destruct (strstr_Some _ _ _ Hs) as [(pre & post & -> & <-) _].
  rewrite drop_app_le by (rewrite !length_app; lia). apply IH.
Qed.

(** Past the length of the line, more fuel changes nothing. *)
Lemma count_key_fuel (fuel fuel' : nat) (line : list byte) (n : Z) :
  (length line < fuel)%nat → (fuel ≤ fuel')%nat →
  count_key fuel' line key n = count_key fuel line key n.
Proof.
  revert fuel' line n. induction fuel as [|fuel IH]; intros fuel' line n Hlen Hle; [lia|].
  destruct fuel' as [|fuel']; [lia|]. cbn [count_key].
  destruct (strstr line key) as [i|] eqn:Hs; [|done].
  assert (length key ≠ 0)%nat by (by destruct key).
  destruct (strstr_Some _ _ _ Hs) as [(pre & post & -> & <-) _].
  apply IH; [|lia]. rewrite length_drop, !length_app in *. lia.
Qed.

(** The count [replace] takes on the line [fgets] delivers is the count
    of the key in the line cut at its end. *)
Lemma count_key_strip_eol (line : list byte) (i : nat) (n : Z) :
  nl ∉ key → cr ∉ key → Z.of_nat (length line) < MAX →
  strstr line key = Some i →
  count_key (S (length line)) (drop (i + length key) line) key 1 = Some n →
  count_key (S (length (strip_eol line))) (strip_eol line) key 0 = Some n.
Proof.
  intros Hnl Hcr Hlen Hs Hn.
  destruct (strip_eol_split line Hlen) as (tail & Hline & Htail).
  assert (Forall (λ b, b ∉ key) tail) as Hkey.
  { eapply Forall_impl; [exact Htail|]. by intros b [->| ->]. }
  assert (length (strip_eol line) ≤ length line)%nat
    by (rewrite Hline at 2; rewrite length_app; lia).
  rewrite <- (count_key_fuel (S (length (strip_eol line))) (S (S (length line))))
    by lia.
  rewrite <- (count_key_tail _ _ tail) by done. rewrite <- Hline.
  cbn [count_key]. by rewrite Hs.
Qed.

End KeyInLine.

(** X20.  string_sub as replace calls it: on the line fgets delivered
    (fewer than MAX bytes) cut at its trailing terminators and carriage
    returns, with the number of occurrences the counting loop of replace
    finds in the line as delivered, for a non-empty key that holds no
    terminator and no carriage return and a substitute of at most MAX
    bytes. It returns the cut line with the leftmost non-overlapping
    occurrences of the key replaced by the substitute, and the result plus
    its terminating NUL is exactly as long as the malloc argument: nothing
    is written past the allocation. (Keys that hold a carriage return or a
    terminator are left out: the count taken on the delivered line can
    then exceed the occurrences in the cut line.) *)
Theorem string_sub_fills_allocation (line key sub : list byte) (i : nat) (n : Z) :
  key ≠ [] → nl ∉ key → cr ∉ key →
  Z.of_nat (length line) < MAX → Z.of_nat (length sub) ≤ MAX →
  strstr line key = Some i →
  count_key (S (length line)) (drop (i + length key) line) key 1 = Some n →
  ∃ r, string_sub (strip_eol line) key sub n = Substituted r
       ∧ substitutes key sub (strip_eol line) r
       ∧ Z.of_nat (length r) + 1 = string_sub_size (strip_eol line) key sub n.
Proof.
  intros Hkey Hnl Hcr Hlen Hslen Hs Hn.
  destruct (strip_eol_split line Hlen) as (tail & Hline & _).
  apply string_sub_counted; [done| |done|by apply (count_key_strip_eol key Hkey line i)].
  rewrite Hline, length_app in Hlen. lia.
Qed.

Lemma string_sub_fills_allocation_witness :
  ∃ r, string_sub (strip_eol (bytes "aXbX" ++ [cr; nl])) (bytes "X") (bytes "YZ") 2
       = Substituted r
       ∧ substitutes (bytes "X") (bytes "YZ") (strip_eol (bytes "aXbX" ++ [cr; nl])) r
       ∧ Z.of_nat (length r) + 1
         = string_sub_size (strip_eol (bytes "aXbX" ++ [cr; nl])) (bytes "X") (bytes "YZ") 2.
Proof.
  apply (string_sub_fills_allocation (bytes "aXbX" ++ [cr; nl]) (bytes "X") (bytes "YZ") 1 2).
  - done.
  - apply (bool_decide_unpack _). by vm_compute.
  - apply (bool_decide_unpack _). by vm_compute.
  - by vm_compute.
  - by vm_compute.
  - by vm_compute.
  - by vm_compute.
Defined.

From Stdlib Require DecimalN DecimalPos DecimalFacts.

(** ** Numbers in decimal *)

Section Decimal.

(** The digits [%lu] prints, one byte each. *)
Lemma bytes_string_of_uint (u : Decimal.uint) :
  bytes (NilEmpty.string_of_uint u)
  = match u with
    | Decimal.Nil => []
    | Decimal.D0 l => x30 :: bytes (NilEmpty.string_of_uint l)
    | Decimal.D1 l => x31 :: bytes (NilEmpty.string_of_uint l)
    | Decimal.D2 l => x32 :: bytes (NilEmpty.string_of_uint l)
    | Decimal.D3 l => x33 :: bytes (NilEmpty.string_of_uint l)
    | Decimal.D4 l => x34 :: bytes (NilEmpty.string_of_uint l)
    | Decimal.D5 l => x35 :: bytes (NilEmpty.string_of_uint l)
    | Decimal.D6 l => x36 :: bytes (NilEmpty.string_of_uint l)
    | Decimal.D7 l => x37 :: bytes (NilEmpty.string_of_uint l)
    | Decimal.D8 l => x38 :: bytes (NilEmpty.string_of_uint l)
    | Decimal.D9 l => x39 :: bytes (NilEmpty.string_of_uint l)
    end.
Proof. by destruct u. Qed.

Lemma is_number_digits (u : Decimal.uint) :
  is_number (bytes (NilEmpty.string_of_uint u)) = 0.
Proof. induction u; rewrite bytes_string_of_uint; [done|..]; exact IHu. Qed.

Lemma digits_no_nul (u : Decimal.uint) : x00 ∉ bytes (NilEmpty.string_of_uint u).
Proof.
  induction u; rewrite bytes_string_of_uint; [apply not_elem_of_nil|..];
    (apply not_elem_of_cons; split; [done|exact IHu]).
Qed.

Lemma digits_length (u : Decimal.uint) :
  length (bytes (NilEmpty.string_of_uint u)) = Decimal.nb_digits u.
Proof. induction u; rewrite bytes_string_of_uint; cbn [length Decimal.nb_digits]; congruence. Qed.

Abbreviation strtol_step := (λ (acc : Z) (b : byte), acc * 10 + (int_of_byte b - 48)).

Lemma strtol_digits_acc (u : Decimal.uint) (acc : positive) :
  fold_left strtol_step (bytes (NilEmpty.string_of_uint u)) (Z.pos acc)
  = Z.pos (Pos.of_uint_acc u acc).
Proof.
  revert acc. induction u; intros acc; rewrite bytes_string_of_uint; [done|..];
    cbn [fold_left Pos.of_uint_acc]; rewrite <- IHu; f_equal; cbn; lia.
Qed.

Lemma strtol_digits_value (u : Decimal.uint) :
  strtol_digits (bytes (NilEmpty.string_of_uint u)) = Z.of_N (Pos.of_uint u).
Proof.
  unfold strtol_digits.
  induction u; rewrite bytes_string_of_uint; [done|exact IHu|..];
    cbn [fold_left Pos.of_uint]; cbn [Z.of_N]; rewrite <- strtol_digits_acc; f_equal.
Qed.

(** A number is at least the power of ten its digits after the first
    stand for. *)
Lemma of_uint_acc_lower (u : Decimal.uint) (acc : positive) :
  Z.pos acc * 10 ^ Z.of_nat (Decimal.nb_digits u) ≤ Z.pos (Pos.of_uint_acc u acc).
Proof.
  revert acc. induction u; intros acc; cbn [Decimal.nb_digits Pos.of_uint_acc];
    [cbn; lia|..];
    (etrans; [|apply IHu]); rewrite Nat2Z.inj_succ, Z.pow_succ_r by lia;
    assert (0 < 10 ^ Z.of_nat (Decimal.nb_digits u)) by (apply Z.pow_pos_nonneg; lia);
    nia.
Qed.

Lemma to_uint_digits_head (n : N) (u : Decimal.uint) (k : positive) :
  Z.of_N n < 2 ^ 63 → N.pos (Pos.of_uint_acc u k) = n →
  (Decimal.nb_digits u < 19)%nat.
Proof.
  intros Hn <-. pose proof (of_uint_acc_lower u k) as Hlow.
  destruct (Nat.lt_ge_cases (Decimal.nb_digits u) 19) as [|Hge]; [done|exfalso].
  assert (10 ^ 19 ≤ 10 ^ Z.of_nat (Decimal.nb_digits u))
    by (apply Z.pow_le_mono_r; lia).
  cbn [Z.of_N] in Hn. nia.
Qed.

(** The digits of a number have no zero in front, so there are at most
    nineteen of them below 2 ^ 63. *)
Lemma to_uint_digits (n : N) :
  (Z.of_N n < 2 ^ 63) → (Decimal.nb_digits (N.to_uint n) ≤ 19)%nat.
Proof.
  intros Hn. pose proof (DecimalN.Unsigned.to_of (N.to_uint n)) as Hnorm.
  rewrite DecimalN.Unsigned.of_to in Hnorm.
  pose proof (DecimalN.Unsigned.of_to n) as Hval. unfold N.of_uint in Hval.
  destruct (N.to_uint n) as [|u|u|u|u|u|u|u|u|u|u] eqn:E.
  - cbn. lia.
  - unfold Decimal.unorm in Hnorm. cbn [Decimal.nzhead] in Hnorm.
    destruct (Decimal.nzhead u) eqn:Hz.
    all: try (exfalso; pose proof (DecimalFacts.nb_digits_nzhead u) as Hle; rewrite Hz in Hle;
              rewrite <- Hnorm in Hle; cbn [Decimal.nb_digits] in Hle; lia).
    injection Hnorm as ->. cbn. lia.
  - by apply (to_uint_digits_head n u 1%positive).
  - by apply (to_uint_digits_head n u 2%positive).
  - by apply (to_uint_digits_head n u 3%positive).
  - by apply (to_uint_digits_head n u 4%positive).
  - by apply (to_uint_digits_head n u 5%positive).
  - by apply (to_uint_digits_head n u 6%positive).
  - by apply (to_uint_digits_head n u 7%positive).
  - by apply (to_uint_digits_head n u 8%positive).
  - by apply (to_uint_digits_head n u 9%positive).
Qed.

(** A number is below the power of ten of its digits. *)
Lemma of_uint_acc_upper (u : Decimal.uint) (acc : positive) :
  Z.pos (Pos.of_uint_acc u acc) < (Z.pos acc + 1) * 10 ^ Z.of_nat (Decimal.nb_digits u).
Proof.
  revert acc. induction u; intros acc; cbn [Decimal.nb_digits Pos.of_uint_acc];
    [cbn; lia|..];
    (eapply Z.lt_le_trans; [apply IHu|]); rewrite Nat2Z.inj_succ, Z.pow_succ_r by lia;
    assert (0 < 10 ^ Z.of_nat (Decimal.nb_digits u)) by (apply Z.pow_pos_nonneg; lia);
    nia.
Qed.

Lemma to_uint_head_bounds (n : N) (u : Decimal.uint) (k : positive) :
  1 ≤ Z.pos k ≤ 9 → N.pos (Pos.of_uint_acc u k) = n →
  10 ^ (Z.of_nat (S (Decimal.nb_digits u)) - 1) ≤ Z.of_N n
  < 10 ^ Z.of_nat (S (Decimal.nb_digits u)).
Proof.
  intros Hk <-. pose proof (of_uint_acc_lower u k) as Hlow.
  pose proof (of_uint_acc_upper u k) as Hup.
  assert (0 < 10 ^ Z.of_nat (Decimal.nb_digits u)) by (apply Z.pow_pos_nonneg; lia).
  replace (Z.of_nat (S (Decimal.nb_digits u)) - 1)
    with (Z.of_nat (Decimal.nb_digits u)) by lia.
  rewrite Nat2Z.inj_succ, Z.pow_succ_r by lia. cbn [Z.of_N]. nia.
Qed.

(** The digits of a number that is not zero: as many as the powers of
    ten up to the number. *)
Lemma to_uint_bounds (n : N) :
  (0 < n)%N →
  10 ^ (Z.of_nat (Decimal.nb_digits (N.to_uint n)) - 1) ≤ Z.of_N n
  < 10 ^ Z.of_nat (Decimal.nb_digits (N.to_uint n)).
Proof.
  intros Hn. pose proof (DecimalN.Unsigned.to_of (N.to_uint n)) as Hnorm.
  rewrite DecimalN.Unsigned.of_to in Hnorm.
  pose proof (DecimalN.Unsigned.of_to n) as Hval. unfold N.of_uint in Hval.
  destruct (N.to_uint n) as [|u|u|u|u|u|u|u|u|u|u] eqn:E; cbn [Decimal.nb_digits].
  - cbn in Hval. lia.
  - unfold Decimal.unorm in Hnorm. cbn [Decimal.nzhead] in Hnorm.
    destruct (Decimal.nzhead u) eqn:Hz.
    all: try (exfalso; pose proof (DecimalFacts.nb_digits_nzhead u) as Hle; rewrite Hz in Hle;
              rewrite <- Hnorm in Hle; cbn [Decimal.nb_digits] in Hle; lia).
    injection Hnorm as ->. cbn in Hval. lia.
  - by apply (to_uint_head_bounds n u 1%positive).
  - by apply (to_uint_head_bounds n u 2%positive).
  - by apply (to_uint_head_bounds n u 3%positive).
  - by apply (to_uint_head_bounds n u 4%positive).
  - by apply (to_uint_head_bounds n u 5%positive).
  - by apply (to_uint_head_bounds n u 6%positive).
  - by apply (to_uint_head_bounds n u 7%positive).
  - by apply (to_uint_head_bounds n u 8%positive).
  - by apply (to_uint_head_bounds n u 9%positive).
Qed.

(** The loop that counts digits divides by ten once for each power of
    ten up to the number. *)
Lemma digits_loop_pow (k fuel : nat) (n d : Z) :
  (k ≤ fuel)%nat → 10 ^ Z.of_nat k ≤ n < 10 ^ (Z.of_nat k + 1) →
  digits_loop fuel n d = d + Z.of_nat k.
Proof.
  revert fuel n d. induction k as [|k IH]; intros fuel n d Hfuel Hn.
  - change (10 ^ Z.of_nat 0) with 1 in Hn. change (10 ^ (Z.of_nat 0 + 1)) with 10 in Hn.
    destruct fuel as [|fuel]; cbn [digits_loop]; [lia|].
    destruct (Z.gtb_spec n 9); lia.
  - destruct fuel as [|fuel]; [lia|]. cbn [digits_loop].
    rewrite Nat2Z.inj_succ in Hn. rewrite <- Z.add_1_r in Hn.
    rewrite !Z.pow_add_r, !Z.pow_1_r in Hn by lia.
    assert (0 < 10 ^ Z.of_nat k) by (apply Z.pow_pos_nonneg; lia).
    destruct (Z.gtb_spec n 9); [|nia].
    rewrite IH; [lia|lia|].
    rewrite Z.pow_add_r, Z.pow_1_r by lia. split.
    + apply Z.div_le_lower_bound; lia.
    + apply Z.div_lt_upper_bound; lia.
Qed.

(** The width [search] and [show_file] compute for the line numbers is
    the number of decimal digits of the line count. *)
Lemma digits_of_decimal_digits (n : Z) :
  0 ≤ n < size_t_modulus → digits_of n = decimal_digits n.
Proof.
  intros Hn. unfold decimal_digits, fmt_lu. rewrite size_t_small by done.
  destruct (decide (n = 0)) as [->|Hn0]; [done|].
  assert (NilZero.string_of_uint (N.to_uint (Z.to_N n))
          = NilEmpty.string_of_uint (N.to_uint (Z.to_N n))) as ->.
  { destruct (N.to_uint (Z.to_N n)) eqn:E; try done.
    destruct (Z.to_N n); [done|]. cbn in E.
    by pose proof (DecimalPos.Unsigned.to_uint_nonnil p). }
  rewrite digits_length.
  pose proof (to_uint_bounds (Z.to_N n) ltac:(lia)) as Hb. rewrite Z2N.id in Hb by lia.
  set (D := Decimal.nb_digits (N.to_uint (Z.to_N n))) in *.
  assert (1 ≤ D)%nat.
  { destruct D; [|lia]. change (10 ^ Z.of_nat 0) with 1 in Hb. lia. }
  assert (D ≤ 20)%nat.
  { destruct (Nat.le_gt_cases D 20) as [|Hgt]; [done|exfalso].
    assert (10 ^ 20 ≤ 10 ^ (Z.of_nat D - 1)) by (apply Z.pow_le_mono_r; lia).
    unfold size_t_modulus in Hn. lia. }
  unfold digits_of. rewrite (digits_loop_pow (D - 1)); [lia|lia|].
  replace (Z.of_nat (D - 1)) with (Z.of_nat D - 1) by lia.
  by replace (Z.of_nat D - 1 + 1) with (Z.of_nat D) by lia.
Qed.

End Decimal.

(** ** [search] on a file of terminated lines *)

Section Search.

Variable key : list byte.
Hypothesis key_not_empty : key ≠ [].

(** The counting loop counts the occurrences from the left. *)
Lemma count_key_occurrences (fuel : nat) (line : list byte) (n : Z) :
  (length line < fuel)%nat →
  ∃ k, count_key fuel line key n = Some (n + Z.of_nat k) ∧ occurrences key line k.
Proof.
  revert line n. induction fuel as [|fuel IH]; intros line n Hfuel; [lia|].
  cbn [count_key]. destruct (strstr line key) as [i|] eqn:Hs.
  - destruct (strstr_split key line i Hs) as [Hline Hfirst].
    assert (length key ≠ 0)%nat by (by destruct key).
    assert (length (drop (i + length key) line) < fuel)%nat.
    { destruct Hfirst as [(pre & post & -> & <-) _].
      rewrite length_drop, !length_app in *. lia. }
    destruct (IH (drop (i + length key) line) (n + 1)) as (k & Hcount & Hocc); [done|].
    exists (S k). split; [rewrite Hcount; f_equal; lia|].
    rewrite Hline at 1. apply occurrences_first; [|done].
    rewrite <- Hline, length_take.
    assert (i ≤ length line)%nat.
    { destruct Hfirst as [(pre & post & -> & <-) _]. rewrite length_app. lia. }
    by replace (i `min` length line)%nat with i by lia.
  - exists 0%nat. split; [f_equal; lia|].
    apply occurrences_none. intros j. by apply strstr_None.
Qed.

(** Each occurrence takes at least one byte of the line. *)
Lemma occurrences_length (line : list byte) (k : nat) :
  occurrences key line k → (k ≤ length line)%nat.
Proof.
  induction 1 as [l _|a b k _ _ IH]; [lia|].
  assert (length key ≠ 0)%nat by (by destruct key).
  rewrite !length_app. lia.
Qed.

(** One pass on a line whose occurrences [count] has room for. *)
Lemma search_body_counted (digits : Z) (line t : list byte) (lines count : Z)
    (printed : list report) :
  strip_eol line = t →
  0 ≤ count → count + Z.of_nat (length t) ≤ INT_MAX →
  ∃ k, occurrences key t k ∧ (k ≤ length t)%nat
       ∧ search_body key digits (SState lines count printed None) line
         = SState (lines + 1) (count + Z.of_nat k)
             (printed ++ (if k is O then [] else [Report (Z.of_nat k) digits (lines + 1) t]))
             None.
Proof.
  intros Hstrip Hc0 Hc1. unfold search_body. cbn [s_stop s_lines s_count s_printed].
  rewrite Hstrip.
  destruct (count_key_occurrences (S (length t)) t 0) as (k & -> & Hocc); [lia|].
  pose proof (occurrences_length t k Hocc) as Hk.
  exists k. split; [done|]. split; [done|]. rewrite Z.add_0_l.
  destruct (Z.ltb_spec INT_MAX (count + Z.of_nat k)); [lia|].
  destruct k as [|k]; cbn [negb Z.eqb Z.of_nat].
  - by rewrite app_nil_r, Z.add_0_r.
  - done.
Qed.

Lemma search_body_line (digits : Z) (t : list byte) (lines count : Z)
    (printed : list report) :
  plain_line t →
  0 ≤ count → count + Z.of_nat (length t) ≤ INT_MAX →
  ∃ k, occurrences key t k ∧ (k ≤ length t)%nat
       ∧ search_body key digits (SState lines count printed None) (t ++ [nl])
         = SState (lines + 1) (count + Z.of_nat k)
             (printed ++ (if k is O then [] else [Report (Z.of_nat k) digits (lines + 1) t]))
             None.
Proof.
  intros (Hnl & Hcr & Hnul & Hff & Hlen). apply search_body_counted.
  apply strip_eol_terminated; done || unfold MAX in *; lia.
Qed.

Lemma fold_search_body_lines (digits : Z) (texts : list (list byte)) (lines count : Z)
    (printed : list report) :
  Forall plain_line texts →
  0 ≤ count → count + Z.of_nat (length (text_file texts)) ≤ INT_MAX →
  ∃ counts, Forall2 (occurrences key) texts counts
    ∧ (sum_list counts ≤ length (text_file texts))%nat
    ∧ fold_left (search_body key digits) (map (λ t, t ++ [nl]) texts)
        (SState lines count printed None)
      = SState (lines + Z.of_nat (length texts)) (count + Z.of_nat (sum_list counts))
          (printed ++ reports digits lines texts counts) None.
Proof.
  intros Htexts. revert lines count printed.
  induction Htexts as [|t texts Ht _ IH]; intros lines count printed Hc0 Hc1.
  - exists []. split; [by constructor|]. split; [done|].
    cbn. by rewrite !Z.add_0_r, app_nil_r.
  - rewrite text_file_cons, !length_app in Hc1. cbn [length] in Hc1.
    destruct (search_body_line digits t lines count printed Ht) as (k & Hk & Hkl & Hbody);
      [done|lia|].
    destruct (IH (lines + 1) (count + Z.of_nat k)
                (printed ++ (if k is O then [] else [Report (Z.of_nat k) digits (lines + 1) t])))
      as (counts & Hcounts & Hsum & Hfold); [lia|lia|].
    exists (k :: counts). split; [by constructor|].
    rewrite text_file_cons, !length_app.
    cbn [map fold_left length sum_list_with reports]. unfold id at 1.
    split; [lia|]. rewrite Hbody, Hfold.
    f_equal; [lia|unfold id; lia|by rewrite <- app_assoc].
Qed.

Lemma search_body_last (digits : Z) (t : list byte) (lines count : Z)
    (printed : list report) :
  plain_line t →
  0 ≤ count → count + Z.of_nat (length t) ≤ INT_MAX →
  ∃ k, occurrences key t k ∧ (k ≤ length t)%nat
       ∧ search_body key digits (SState lines count printed None) t
         = SState (lines + 1) (count + Z.of_nat k)
             (printed ++ (if k is O then [] else [Report (Z.of_nat k) digits (lines + 1) t]))
             None.
Proof.
  intros (Hnl & Hcr & Hnul & Hff & Hlen). apply search_body_counted.
  apply strip_eol_plain; done || unfold MAX in *; lia.
Qed.

Lemma reports_snoc (digits from : Z) (texts : list (list byte)) (counts : list nat)
    (t : list byte) (k : nat) :
  length texts = length counts →
  reports digits from (texts ++ [t]) (counts ++ [k])
  = reports digits from texts counts
      ++ (if k is O then []
          else [Report (Z.of_nat k) digits (from + Z.of_nat (length texts) + 1) t]).
Proof.
  revert counts from. induction texts as [|t' texts IH]; intros [|c counts] from Hlen;
    try done.
  - cbn [app reports length]. rewrite app_nil_r, Z.add_0_r. done.
  - cbn [app reports length] in *. rewrite <- app_assoc. f_equal.
    rewrite IH by lia. do 3 f_equal. destruct k; [done|]. do 2 f_equal. lia.
Qed.

Lemma fold_search_body_file (digits : Z) (texts : list (list byte)) (last : list byte) :
  Forall plain_line texts → plain_line last →
  Z.of_nat (length (text_file texts ++ last)) ≤ INT_MAX →
  ∃ counts, Forall2 (occurrences key) (file_lines texts last) counts
    ∧ fold_left (search_body key digits)
        (map (λ t, t ++ [nl]) texts ++ (if last is [] then [] else [last]))
        (SState 0 0 [] None)
      = SState (Z.of_nat (length (file_lines texts last))) (Z.of_nat (sum_list counts))
          (reports digits 0 (file_lines texts last) counts) None.
Proof.
  intros Htexts Hlast Hlen. rewrite length_app in Hlen.
  destruct (fold_search_body_lines digits texts 0 0 [] Htexts)
    as (counts & Hcounts & Hsum & Hfold); [done|lia|].
  rewrite fold_left_app, Hfold. unfold file_lines. cbn [app].
  destruct last as [|b last].
  - exists counts. rewrite !app_nil_r. split; [done|]. f_equal; lia.
  - destruct (search_body_last digits (b :: last) (0 + Z.of_nat (length texts))
                (0 + Z.of_nat (sum_list counts)) (reports digits 0 texts counts) Hlast)
      as (k & Hk & Hkl & Hbody); [lia|lia|].
    exists (counts ++ [k]). split; [apply Forall2_app; [done|by repeat constructor]|].
    cbn [fold_left]. rewrite Hbody. rewrite length_app, sum_list_with_app.
    cbn [length sum_list_with].
    rewrite reports_snoc by (by eapply Forall2_length).
    f_equal; [lia|unfold id; lia].
Qed.

End Search.

(** The line count of a file of plain lines is its number of
    terminators plus one, or zero for the empty file. *)
Lemma count_lines_texts_last (texts : list (list byte)) (last : list byte) :
  Forall plain_line texts → plain_line last →
  Z.of_nat (length (text_file texts ++ last)) < off_t_max →
  0 ≤ count_lines (text_file texts ++ last) < 2 ^ 63.
Proof.
  intros Htexts Hlast Hlen.
  assert (xff ∉ text_file texts ++ last) as Hff.
  { destruct Hlast as (_ & _ & _ & Hlff & _).
    rewrite elem_of_app. intros [Hin|Hin]; [|done]. revert Hin.
    apply text_file_no; [done|]. eapply Forall_impl; [exact Htexts|].
    by intros t (_ & _ & _ & ? & _). }
  pose proof (count_lines_terminators (text_file texts ++ last) Hff ltac:(lia)) as Hct.
  pose proof (terminators_nonneg (text_file texts ++ last)).
  pose proof (terminators_le_length (text_file texts ++ last)) as Hle.
  rewrite Hct. unfold off_t_max in *. destruct (text_file texts ++ last); lia.
Qed.

Lemma verify_lines_ret_count_lines (texts : list (list byte)) (last : list byte) :
  Forall plain_line texts → plain_line last →
  Z.of_nat (length (text_file texts ++ last)) < off_t_max →
  verify_lines_ret (verify_lines (text_file texts ++ last) (MAX - 2))
  = count_lines (text_file texts ++ last).
Proof.
  intros Htexts Hlast Hlen.
  pose proof (count_lines_texts_last texts last Htexts Hlast Hlen) as Hcount.
  pose proof (plain_line_length texts) as Hn. rewrite length_app in Hlen.
  destruct (verify_lines_loop_texts_last texts last 0 true Htexts Hlast) as [m Hm];
    [done|unfold off_t_max, size_t_modulus in *; lia|].
  fold (verify_lines (text_file texts ++ last) (MAX - 2)) in Hm.
  pose proof (verify_lines_loop_count _ _ _ _ _ _ Hm) as Hc.
  fold (count_lines (text_file texts ++ last)) in Hc.
  rewrite Hm. cbn [verify_lines_ret]. subst m.
  unfold ssize_t, size_t_modulus. rewrite Z.mod_small by lia.
  destruct (Z.ltb_spec (count_lines (text_file texts ++ last)) (2 ^ 63)); lia.
Qed.

(** [search] with the width as the loop before the reports computes
    it. *)
Lemma search_reports (σ : fs) (fpath : string) (texts : list (list byte))
    (last key : list byte) :
  σ !! fpath = Some (text_file texts ++ last) →
  Forall plain_line texts → plain_line last →
  Z.of_nat (length (text_file texts ++ last)) ≤ INT_MAX →
  key ≠ [] → x00 ∉ key →
  ∃ counts, Forall2 (occurrences key) (file_lines texts last) counts
    ∧ search fpath key σ
      = Finished (reports (digits_of (count_lines (text_file texts ++ last))) 0
                    (file_lines texts last) counts,
                  Z.of_nat (sum_list counts)) σ.
Proof.
  intros Hf Htexts Hlast Hint Hkey Hnul.
  assert (Z.of_nat (length (text_file texts ++ last)) < off_t_max) as Hlen
    by (unfold INT_MAX, off_t_max in *; lia).
  pose proof (plain_line_length texts) as Hn.
  destruct (fold_search_body_file key Hkey
              (digits_of (count_lines (text_file texts ++ last))) texts last Htexts Hlast
              Hint)
    as (counts & Hcounts & Hfold).
  exists counts. split; [done|]. unfold search. rewrite c_str_id by done. cbv zeta.
  unfold mbind at 1, Op_bind at 1, lift at 1, Sys.fopen_r. rewrite Hf.
  pose proof (verify_lines_ret_texts_last texts last Htexts Hlast Hlen) as Hret.
  destruct (Z.eqb_spec
              (verify_lines_ret (verify_lines (text_file texts ++ last) (MAX - 2))) (-1));
    [done|].
  rewrite verify_lines_ret_count_lines by done.
  rewrite length_app in Hlen. rewrite length_app.
  rewrite while_fgets_lines, fgets_lines_texts_last by (done || lia).
  cbn [fmap option_fmap option_map]. rewrite Hfold. cbn [s_stop s_printed s_count].
  done.
Qed.

(** X21.  search on a file of at most INT_MAX = 2^31 - 1 bytes made of
    plain lines (no carriage return, NUL or byte 0xFF, each at most MAX -
    3 bytes without its terminator), the last one with or without
    terminator, for a non-empty key free of NUL: it prints one report per
    line in which the key occurs, in file order, with the line number
    counted from 1 and zero-padded to the number of decimal digits of the
    line count count_lines finds, and the number of leftmost non-
    overlapping occurrences; the total it prints is the sum of these
    numbers, and the file system is unchanged. (The total is an int: a sum
    past INT_MAX would be undefined behaviour, which the bound on the size
    excludes.) *)
Theorem search_reports_lines (σ : fs) (fpath : string) (texts : list (list byte))
    (last key : list byte) :
  σ !! fpath = Some (text_file texts ++ last) →
  Forall plain_line texts → plain_line last →
  Z.of_nat (length (text_file texts ++ last)) ≤ INT_MAX →
  key ≠ [] → x00 ∉ key →
  ∃ counts, Forall2 (occurrences key) (file_lines texts last) counts
    ∧ search fpath key σ
      = Finished (reports (decimal_digits (count_lines (text_file texts ++ last))) 0
                    (file_lines texts last) counts,
                  Z.of_nat (sum_list counts)) σ.
Proof.
  intros Hf Htexts Hlast Hint Hkey Hnul.
  rewrite <- digits_of_decimal_digits. { by apply search_reports. }
  pose proof (count_lines_texts_last texts last Htexts Hlast
                ltac:(unfold INT_MAX, off_t_max in *; lia)).
  unfold size_t_modulus. lia.
Qed.

Lemma search_reports_lines_witness :
  ∃ counts, Forall2 (occurrences (bytes "X")) (file_lines [bytes "aXbX"; bytes "c"] (bytes "dX"))
              counts
    ∧ search "f" (bytes "X") {[ "f" := text_file [bytes "aXbX"; bytes "c"] ++ bytes "dX" ]}
      = Finished (reports
                    (decimal_digits
                       (count_lines (text_file [bytes "aXbX"; bytes "c"] ++ bytes "dX")))
                    0 (file_lines [bytes "aXbX"; bytes "c"] (bytes "dX")) counts,
                  Z.of_nat (sum_list counts))
          {[ "f" := text_file [bytes "aXbX"; bytes "c"] ++ bytes "dX" ]}.
Proof.
  apply (search_reports_lines {[ "f" := text_file [bytes "aXbX"; bytes "c"] ++ bytes "dX" ]} "f"
           [bytes "aXbX"; bytes "c"] (bytes "dX") (bytes "X")).
  - apply lookup_singleton_eq.
  - apply (bool_decide_unpack _). by vm_compute.
  - apply (bool_decide_unpack _). by vm_compute.
  - by vm_compute.
  - done.
  - apply (bool_decide_unpack _). by vm_compute.
Defined.

(** With a count that has no room left for the occurrences of a line,
    the addition [count += subcount] overflows. *)
Example search_body_overflow :
  s_stop (search_body (bytes "X") 1 (SState 0 INT_MAX [] None) (bytes "X" ++ [nl]))
  = Some UndefinedBehaviour.
Proof. by vm_compute. Qed.

(** The two notions name one result. *)
Lemma first_occurrence_split (key a b a' b' : list byte) :
  first_occurrence key (a ++ key ++ b) (length a) →
  first_occurrence key (a' ++ key ++ b') (length a') →
  a ++ key ++ b = a' ++ key ++ b' → a = a' ∧ b = b'.
Proof.
  intros [Ha Hmin] [Ha' Hmin'] E.
  assert (length a = length a') as Hlen.
  { apply Nat.le_antisymm.
    - apply Hmin. rewrite E. apply Ha'.
    - apply Hmin'. rewrite <- E. apply Ha. }
  apply app_inj_1 in E as [-> E]; [|done]. by apply app_inv_head in E as ->.
Qed.

Lemma substitutes_unique (key sub l r r' : list byte) :
  substitutes key sub l r → substitutes key sub l r' → r = r'.
Proof.
  intros H. revert r'. induction H as [l Hnone|a b r Hfirst _ IH]; intros r' H'.
  - inversion H' as [|a b r0 [Hocc _] _ E]; [done|]. subst.
    by destruct (Hnone (length a)).
  - inversion H' as [l Hnone|a' b' r0 Hfirst' Hsub' E]; subst.
    + destruct Hfirst as [Hocc _]. by destruct (Hnone (length a)).
    + destruct (first_occurrence_split key a' b' a b Hfirst' Hfirst E) as [-> ->].
      by rewrite (IH r0).
Qed.

Lemma occurrences_unique (key l : list byte) (k k' : nat) :
  occurrences key l k → occurrences key l k' → k = k'.
Proof.
  intros H. revert k'. induction H as [l Hnone|a b k Hfirst _ IH]; intros k' H'.
  - inversion H' as [|a b k0 [Hocc _] _ E]; [done|]. subst.
    by destruct (Hnone (length a)).
  - inversion H' as [l Hnone|a' b' k0 Hfirst' Hocc' E]; subst.
    + destruct Hfirst as [Hocc _]. by destruct (Hnone (length a)).
    + destruct (first_occurrence_split key a' b' a b Hfirst' Hfirst E) as [-> ->].
      by rewrite (IH k0).
Qed.

(** ** [show_file] and [show_line] *)

Section ShowFile.

Variable digits : Z.

(** The loop within a line. *)
Lemma show_file_loop_text (t rest : list byte) (lines : Z) :
  nl ∉ t → xff ∉ t →
  show_file_loop digits (t ++ rest) lines = t ++ show_file_loop digits rest lines.
Proof.
  induction t as [|b t IH]; intros Hnl Hff; [done|].
  apply not_elem_of_cons in Hnl as [? ?]. apply not_elem_of_cons in Hff as [? ?].
  cbn [app show_file_loop].
  rewrite char_of_byte_eof, char_of_byte_nl, !bool_decide_eq_false_2 by done.
  rewrite uchar_of_char_of_byte. cbn [app]. by rewrite IH.
Qed.

Lemma show_file_loop_lines (texts : list (list byte)) (last : list byte) (lines : Z) :
  Forall (λ t, (nl ∉ t) ∧ (xff ∉ t)) texts → nl ∉ last → xff ∉ last →
  0 ≤ lines → lines + Z.of_nat (length texts) < size_t_modulus →
  fmt_0lu digits lines ++ bytes " |" ++ show_file_loop digits (text_file texts ++ last) lines
  = numbered digits lines texts last.
Proof.
  intros Htexts Hnl Hff. revert lines.
  induction Htexts as [|t texts [Ht1 Ht2] _ IH]; intros lines Hl0 Hl1.
  - cbn [numbered]. unfold text_file. cbn [map concat app].
    rewrite <- (app_nil_r last) at 1. rewrite show_file_loop_text by done.
    cbn [show_file_loop]. by rewrite app_nil_r.
  - cbn [numbered length] in *. rewrite text_file_cons, <- app_assoc.
    rewrite show_file_loop_text by done. cbn [app show_file_loop].
    change (char_of_byte nl) with NL. change (NL =? EOF) with false.
    change (NL =? NL) with true. change (uchar_of_int NL) with nl. cbv iota.
    rewrite incr_small by lia. by rewrite <- IH by lia.
Qed.

End ShowFile.

(** The count [count_lines] returns is a [size_t] value. *)
Lemma count_lines_loop_range (s : list byte) (lines : Z) (first : bool) :
  0 ≤ lines < size_t_modulus →
  0 ≤ (count_lines_loop s (lines, first)).1 < size_t_modulus.
Proof.
  assert (∀ n, 0 ≤ incr n < size_t_modulus) as Hincr
    by (intros n; unfold incr, size_t, size_t_modulus; apply Z.mod_pos_bound; lia).
  assert (∀ c l f, 0 ≤ l < size_t_modulus →
            0 ≤ (count_lines_body c (l, f)).1 < size_t_modulus) as Hbody.
  { intros c l f Hl. unfold count_lines_body.
    destruct (f && negb (c =? EOF)); destruct (c =? NL); cbn [fst]; done || apply Hincr. }
  revert lines first. induction s as [|b s IH]; intros lines first Hl.
  - by apply Hbody.
  - cbn [count_lines_loop]. specialize (Hbody (char_of_byte b) lines first Hl).
    destruct (count_lines_body (char_of_byte b) (lines, first)) as [l' f'].
    destruct (char_of_byte b =? EOF); [done|]. by apply IH.
Qed.

Lemma count_lines_range (f : list byte) : 0 ≤ count_lines f < size_t_modulus.
Proof. apply count_lines_loop_range. unfold size_t_modulus. lia. Qed.

(** [show_file] with the width as the loop before the output computes
    it. *)
Lemma show_file_numbered (σ : fs) (fpath : string) (texts : list (list byte))
    (last : list byte) :
  σ !! fpath = Some (text_file texts ++ last) →
  Forall (λ t, (nl ∉ t) ∧ (xff ∉ t)) texts → nl ∉ last → xff ∉ last →
  Z.of_nat (length texts) < off_t_max →
  show_file fpath σ
  = Returned (numbered (digits_of (count_lines (text_file texts ++ last))) 1 texts last
              ++ [nl]) σ.
Proof.
  intros Hf Htexts Hnl Hff Hlen. unfold show_file. unfold_monad. rewrite Hf.
  rewrite <- show_file_loop_lines;
    [|done|done|done|done|unfold off_t_max, size_t_modulus in *; lia].
  by rewrite <- !app_assoc.
Qed.

(** X22.  show_file on a file free of the byte 0xFF with fewer than 2^63 -
    1 terminators: it prints every line of the file behind its number and
    a bar, numbers counting from 1 and zero-padded to the number of
    decimal digits of the line count count_lines finds (the length of its
    %lu form); the bytes of the lines are printed unchanged, a last line
    without terminator included, each terminator where it stands, and one
    terminator more ends the output. The file system is unchanged. *)
Theorem show_file_numbers_lines (σ : fs) (fpath : string) (texts : list (list byte))
    (last : list byte) :
  σ !! fpath = Some (text_file texts ++ last) →
  Forall (λ t, (nl ∉ t) ∧ (xff ∉ t)) texts → nl ∉ last → xff ∉ last →
  Z.of_nat (length texts) < off_t_max →
  show_file fpath σ
  = Returned (numbered (decimal_digits (count_lines (text_file texts ++ last))) 1 texts last
              ++ [nl]) σ.
Proof.
  intros Hf Htexts Hnl Hff Hlen.
  rewrite <- digits_of_decimal_digits by apply count_lines_range.
  by apply show_file_numbered.
Qed.

Lemma show_file_numbers_lines_witness :
  show_file "f" {[ "f" := text_file [bytes "a"] ++ bytes "b" ]}
  = Returned (numbered (decimal_digits (count_lines (text_file [bytes "a"] ++ bytes "b"))) 1
                [bytes "a"] (bytes "b") ++ [nl])
      {[ "f" := text_file [bytes "a"] ++ bytes "b" ]}.
Proof.
  apply (show_file_numbers_lines {[ "f" := text_file [bytes "a"] ++ bytes "b" ]} "f"
           [bytes "a"] (bytes "b")).
  - apply lookup_singleton_eq.
  - apply (bool_decide_unpack _). by vm_compute.
  - apply (bool_decide_unpack _). by vm_compute.
  - apply (bool_decide_unpack _). by vm_compute.
  - by vm_compute.
Defined.

(** Twelve lines are numbered with two digits. *)
Example show_file_twelve_lines :
  show_file "f" {[ "f" := text_file (replicate 11 (bytes "a")) ++ bytes "b" ]}
  = Returned (bytes "01 |a" ++ [nl] ++ bytes "02 |a" ++ [nl] ++ bytes "03 |a" ++ [nl]
              ++ bytes "04 |a" ++ [nl] ++ bytes "05 |a" ++ [nl] ++ bytes "06 |a" ++ [nl]
              ++ bytes "07 |a" ++ [nl] ++ bytes "08 |a" ++ [nl] ++ bytes "09 |a" ++ [nl]
              ++ bytes "10 |a" ++ [nl] ++ bytes "11 |a" ++ [nl] ++ bytes "12 |b" ++ [nl])
      {[ "f" := text_file (replicate 11 (bytes "a")) ++ bytes "b" ]}.
Proof. by vm_compute. Qed.

Section ShowLine.

Variable lineno : Z.

Lemma show_line_seek_step (fuel : nat) (s : list byte) (lines : Z) :
  show_line_seek (S fuel) lineno s lines
  = if negb (lines =? lineno) then
      show_line_seek fuel lineno (getc s).2
        (if char_of_int (getc s).1 =? NL then incr lines else lines)
    else Some s.
Proof. cbn [show_line_seek]. by destruct (getc s). Qed.

(** The first loop passes over what lies before the line. *)
Lemma show_line_seek_before (s rest : list byte) (fuel : nat) (lines : Z) :
  0 ≤ lines → lines + terminators s < lineno → lineno < size_t_modulus →
  show_line_seek (length s + fuel) lineno (s ++ rest) lines
  = show_line_seek fuel lineno rest (lines + terminators s).
Proof.
  revert lines. induction s as [|b s IH]; intros lines Hl0 Hlt Hmax.
  - cbn [app length Nat.add]. unfold terminators. cbn. by rewrite Z.add_0_r.
  - rewrite terminators_cons in Hlt |- *. pose proof (terminators_nonneg s).
    cbn [app length Nat.add]. rewrite show_line_seek_step. cbn [getc fst snd].
    fold (char_of_byte b). rewrite char_of_byte_nl.
    assert (lines ≠ lineno) by (case_bool_decide; lia).
    rewrite (proj2 (Z.eqb_neq lines lineno)) by done. cbn [negb].
    case_bool_decide.
    + rewrite incr_small by lia. rewrite IH by lia. f_equal; lia.
    + rewrite IH by lia. f_equal; lia.
Qed.

(** From the end of the file on nothing changes: with a line number that
    is not reached the loop has no last pass. *)
Lemma show_line_seek_eof (fuel : nat) (lines : Z) :
  lines ≠ lineno → show_line_seek fuel lineno [] lines = None.
Proof.
  intros Hne. induction fuel as [|fuel IH]; [done|].
  rewrite show_line_seek_step. cbn [getc fst snd].
  rewrite (proj2 (Z.eqb_neq lines lineno)) by done. cbn [negb].
  change (char_of_int EOF =? NL) with false. cbv iota. apply IH.
Qed.

End ShowLine.

(** The second loop prints the line without its carriage returns. *)
Lemma show_line_print_unterminated (text : list byte) :
  nl ∉ text → xff ∉ text → show_line_print text = filter (λ b, b ≠ cr) text.
Proof.
  induction text as [|b text IH]; intros Hnl Hff; [done|].
  apply not_elem_of_cons in Hnl as [? ?]. apply not_elem_of_cons in Hff as [? ?].
  cbn [show_line_print].
  rewrite char_of_byte_eof, char_of_byte_nl, !bool_decide_eq_false_2 by done.
  cbn [negb andb]. rewrite uchar_of_char_of_byte, IH by done.
  destruct (decide (b = cr)) as [->|Hcr].
  - rewrite Z.eqb_refl. cbn [negb app]. by rewrite filter_cons_False by (by intros ?).
  - rewrite filter_cons_True by done.
    destruct (Z.eqb_spec (char_of_byte b) (char_of_byte cr)) as [E|_]; [|done].
    exfalso. apply Hcr. by rewrite <- (uchar_of_char_of_byte b), E.
Qed.

Lemma show_line_print_terminated (text rest : list byte) :
  nl ∉ text → xff ∉ text →
  show_line_print (text ++ nl :: rest) = filter (λ b, b ≠ cr) text.
Proof.
  induction text as [|b text IH]; intros Hnl Hff; [done|].
  apply not_elem_of_cons in Hnl as [? ?]. apply not_elem_of_cons in Hff as [? ?].
  cbn [app show_line_print].
  rewrite char_of_byte_eof, char_of_byte_nl, !bool_decide_eq_false_2 by done.
  cbn [negb andb]. rewrite uchar_of_char_of_byte, IH by done.
  destruct (decide (b = cr)) as [->|Hcr].
  - rewrite Z.eqb_refl. cbn [negb app]. by rewrite filter_cons_False by (by intros ?).
  - rewrite filter_cons_True by done.
    destruct (Z.eqb_spec (char_of_byte b) (char_of_byte cr)) as [E|_]; [|done].
    exfalso. apply Hcr. by rewrite <- (uchar_of_char_of_byte b), E.
Qed.

(** X23.  For a non-empty file free of the byte 0xFF (within the size off_t
    allows): show_line at a line number from 1 to the line count prints
    exactly the bytes of that line other than carriage returns (all of
    them, not only a trailing one), followed by one terminator, and
    changes nothing. Line k + 1 is the text without terminator that starts
    after the k-th terminator (at the start of the file for k = 0) and
    runs to the next terminator or the end of the file. The loop that
    seeks the line ends, after at most one pass per byte before the line
    and one more. *)
Theorem show_line_prints_line (fuel : nat) (σ : fs) (fpath : string)
    (pre text post : list byte) :
  σ !! fpath = Some (pre ++ text ++ post) → pre ++ text ++ post ≠ [] →
  at_line_start pre → nl ∉ text → (post = [] ∨ ∃ rest, post = nl :: rest) →
  xff ∉ pre ++ text ++ post →
  Z.of_nat (length (pre ++ text ++ post)) < off_t_max → (length pre < fuel)%nat →
  show_line fuel fpath (terminators pre + 1) σ
  = Returned (filter (λ b, b ≠ cr) text ++ [nl]) σ.
Proof.
  intros Hf Hne Hstart Hnl Hpost Hff Hlen Hfuel. unfold show_line. unfold_monad.
  rewrite Hf. pose proof (terminators_nonneg pre). pose proof (terminators_le_length pre).
  pose proof (terminators_nonneg post).
  assert (Z.of_nat (length pre) < off_t_max) by (rewrite length_app in Hlen; lia).
  rewrite count_lines_nonempty by (done || lia).
  rewrite !terminators_app, (terminators_none text) by done.
  destruct (Z.gtb_spec (terminators pre + 1) (terminators pre + (0 + terminators post) + 1));
    [lia|].
  assert (show_line_seek fuel (terminators pre + 1) (pre ++ text ++ post) 1
          = Some (text ++ post)) as ->.
  { destruct Hstart as [->|[p ->]].
    - destruct fuel as [|fuel]; [lia|]. cbn [app]. rewrite show_line_seek_step.
      change (terminators [] + 1) with 1. by rewrite Z.eqb_refl.
    - rewrite terminators_snoc_nl in *. rewrite length_app in Hfuel. cbn [length] in Hfuel.
      rewrite <- !app_assoc. cbn [app].
      replace fuel with (length p + S (S (fuel - length p - 2)))%nat by lia.
      rewrite show_line_seek_before by (unfold off_t_max, size_t_modulus in *; lia).
      rewrite show_line_seek_step. cbn [getc fst snd].
      destruct (Z.eqb_spec (1 + terminators p) (terminators p + 1 + 1)); [lia|]. cbn [negb].
      change (char_of_int (int_of_byte nl) =? NL) with true. cbv iota.
      rewrite incr_small by (unfold off_t_max, size_t_modulus in *; lia).
      rewrite show_line_seek_step.
      replace (1 + terminators p + 1) with (terminators p + 1 + 1) by lia.
      by rewrite Z.eqb_refl. }
  rewrite !elem_of_app in Hff.
  destruct Hpost as [->|[rest ->]].
  - rewrite app_nil_r, show_line_print_unterminated by tauto. done.
  - rewrite show_line_print_terminated by tauto. done.
Qed.

Lemma show_line_prints_line_witness :
  show_line 10 "f" (terminators (bytes "a" ++ [nl]) + 1) {[ "f" := file_abc ]}
  = Returned (filter (λ b, b ≠ cr) (bytes "b") ++ [nl]) {[ "f" := file_abc ]}.
Proof.
  apply (show_line_prints_line 10 {[ "f" := file_abc ]} "f" (bytes "a" ++ [nl]) (bytes "b")
           ([nl] ++ bytes "c")).
  - apply lookup_singleton_eq.
  - done.
  - right. by exists (bytes "a").
  - apply (bool_decide_unpack _). by vm_compute.
  - right. by exists (bytes "c").
  - apply (bool_decide_unpack _). by vm_compute.
  - by vm_compute.
  - vm_compute. lia.
Defined.

(** X24.  [show_line] at line number 0, which passes the range check,
    never gets out of its first loop: whatever the number of passes
    allowed, the loop has not ended. *)
Theorem show_line_zero_never_ends (fuel : nat) (σ : fs) (fpath : string) (f : list byte) :
  σ !! fpath = Some f → xff ∉ f → Z.of_nat (length f) < off_t_max →
  show_line fuel fpath 0 σ = Exited OutOfFuel σ.
Proof.
  intros Hf Hff Hlen. unfold show_line. unfold_monad. rewrite Hf.
  pose proof (terminators_nonneg f). pose proof (terminators_le_length f).
  rewrite count_lines_terminators by (done || lia).
  destruct (Z.gtb_spec 0 (match f with [] => 0 | _ :: _ => terminators f + 1 end));
    [destruct f; lia|].
  assert (∀ lines, 1 ≤ lines → lines + Z.of_nat (length f) < size_t_modulus →
                   show_line_seek fuel 0 f lines = None) as Hseek.
  { clear. revert f. induction fuel as [|fuel IH]; intros f lines Hl0 Hl1; [done|].
    rewrite show_line_seek_step. destruct (Z.eqb_spec lines 0); [lia|]. cbn [negb].
    destruct f as [|b f]; cbn [getc fst snd length] in *.
    - change (char_of_int EOF =? NL) with false. cbv iota. apply show_line_seek_eof. lia.
    - destruct (char_of_int (int_of_byte b) =? NL).
      + rewrite incr_small by lia. apply IH; lia.
      + apply IH; lia. }
  rewrite Hseek by (unfold off_t_max, size_t_modulus in *; lia). done.
Qed.

Lemma show_line_zero_never_ends_witness :
  show_line 1000 "f" 0 {[ "f" := file_abc ]} = Exited OutOfFuel {[ "f" := file_abc ]}.
Proof.
  apply (show_line_zero_never_ends 1000 {[ "f" := file_abc ]} "f" file_abc).
  - apply lookup_singleton_eq.
  - apply (bool_decide_unpack _). by vm_compute.
  - by vm_compute.
Defined.

(** ** Line number 0 *)

Section LineZero.

(** [count] starts at 1 and only grows, so it never equals a line number
    of 0: the loops copy every byte. *)
Lemma del_line_loop_zero (s : list byte) (count : Z) (temp : list byte) :
  xff ∉ s → 1 ≤ count → count + terminators s < size_t_modulus →
  del_line_loop 0 s (count, temp) = (count + terminators s, temp ++ s).
Proof.
  revert count temp. induction s as [|b s IH]; intros count temp Hff Hc Hlt.
  - rewrite del_line_loop_nil. unfold terminators. cbn. by rewrite Z.add_0_r, app_nil_r.
  - apply not_elem_of_cons in Hff as [Hb Hff].
    rewrite terminators_cons in Hlt |- *. pose proof (terminators_nonneg s).
    cbn [del_line_loop del_line_body].
    rewrite char_of_byte_eof, char_of_byte_nl, (bool_decide_eq_false_2 (b = xff)) by done.
    change (size_t (0 + 1)) with 1. cbn [negb andb].
    case_bool_decide; [rewrite incr_small by lia|].
    + destruct (Z.eqb_spec (count + 1) 0); [lia|].
      destruct (Z.eqb_spec (count + 1) 1); [lia|]. cbn [negb andb orb].
      rewrite uchar_of_char_of_byte, IH by (done || lia).
      by rewrite <- app_assoc, Z.add_assoc.
    + destruct (Z.eqb_spec count 0); [lia|]. cbn [negb andb]. rewrite orb_true_r.
      rewrite uchar_of_char_of_byte, IH by (done || lia).
      by rewrite <- app_assoc.
Qed.

Lemma ins_line_loop_zero (line s : list byte) (fuel : nat) (count c : Z)
    (temp : list byte) :
  xff ∉ s → 1 ≤ count → count + terminators s < size_t_modulus →
  ins_line_loop (length s + S fuel) line 0 (CState count c s temp)
  = Some (CState (count + terminators s) EOF [] (temp ++ s)).
Proof.
  revert count c temp. induction s as [|b s IH]; intros count c temp Hff Hc Hlt.
  - cbn [length Nat.add ins_line_loop]. rewrite ins_line_body_eof by lia.
    cbn [cs_c]. change (EOF =? EOF) with true. cbn [negb].
    unfold terminators. cbn. by rewrite Z.add_0_r, app_nil_r.
  - apply not_elem_of_cons in Hff as [Hb Hff].
    rewrite terminators_cons in Hlt |- *. pose proof (terminators_nonneg s).
    cbn [length Nat.add ins_line_loop].
    rewrite ins_line_body_read by (done || lia).
    case_bool_decide; rewrite ?incr_small by lia.
    + destruct (Z.eqb_spec (count + 1) 0); [lia|]. cbn [cs_c].
      rewrite char_of_byte_eof, (bool_decide_eq_false_2 (b = xff)) by done. cbn [negb].
      rewrite IH by (done || lia). by rewrite <- app_assoc, Z.add_assoc.
    + destruct (Z.eqb_spec count 0); [lia|]. cbn [cs_c].
      rewrite char_of_byte_eof, (bool_decide_eq_false_2 (b = xff)) by done. cbn [negb].
      rewrite IH by (done || lia). by rewrite <- app_assoc.
Qed.

Lemma rep_line_loop_zero (line s : list byte) (fuel : nat) (count c : Z)
    (temp : list byte) :
  xff ∉ s → 1 ≤ count → count + terminators s < size_t_modulus →
  rep_line_loop (length s + S fuel) line 0 (CState count c s temp)
  = Some (CState (count + terminators s) EOF [] (temp ++ s ++ [xff])).
Proof.
  revert count c temp. induction s as [|b s IH]; intros count c temp Hff Hc Hlt.
  - cbn [length Nat.add]. rewrite rep_line_loop_step, rep_line_body_eof by lia.
    cbn [cs_c]. change (EOF =? EOF) with true. cbn [negb].
    unfold terminators. cbn. by rewrite Z.add_0_r.
  - apply not_elem_of_cons in Hff as [Hb Hff].
    rewrite terminators_cons in Hlt |- *. pose proof (terminators_nonneg s).
    cbn [length Nat.add]. rewrite rep_line_loop_step.
    rewrite rep_line_body_read by lia.
    assert ((if bool_decide (b = nl) then incr count else count)
            = count + (if bool_decide (b = nl) then 1 else 0)) as ->.
    { case_bool_decide; rewrite ?incr_small by lia; lia. }
    destruct (Z.eqb_spec (count + (if bool_decide (b = nl) then 1 else 0)) 0);
      [case_bool_decide; lia|].
    cbn [cs_c]. rewrite char_of_byte_eof, (bool_decide_eq_false_2 (b = xff)) by done.
    cbn [negb]. rewrite IH by (done || case_bool_decide; lia).
    by rewrite <- app_assoc, Z.add_assoc.
Qed.

End LineZero.

(** X25.  For a file free of the byte 0xFF (not the log or the scratch
    file, within the size off_t allows): with line number 0, which passes
    the range check of each operation, del_line and ins_line rewrite the
    file with exactly the bytes it had (nothing deleted, nothing
    inserted), and rep_line rewrites it with one byte 0xFF appended; this
    for any text and any value of the uninitialised local c of ins_line.
    No scratch file is left and no file other than the edited one and the
    log changes. *)
Theorem line_zero_copies_file (now : tm) (c_indet : Z) (σ : fs) (fpath : string)
    (f line : list byte) :
  σ !! fpath = Some f → fpath ≠ LOGF → fpath ≠ TEMPF →
  xff ∉ f → Z.of_nat (length f) < off_t_max - 1 →
  rewritten σ (state_of (del_line now fpath 0 σ)) fpath f
  ∧ rewritten σ (state_of (ins_line now c_indet fpath line 0 σ)) fpath f
  ∧ rewritten σ (state_of (rep_line now fpath line 0 σ)) fpath (f ++ [xff]).
Proof.
  intros Hf H1 H2 Hff Hlen.
  pose proof (terminators_nonneg f). pose proof (terminators_le_length f).
  assert (0 ≤ count_lines f).
  { rewrite count_lines_terminators by (done || lia). destruct f; lia. }
  assert (1 + terminators f < size_t_modulus)
    by (unfold off_t_max, size_t_modulus in *; lia).
  split; [|split].
  - assert (del_line_temp f 0 = f) as Htemp.
    { unfold del_line_temp. by rewrite del_line_loop_zero. }
    rewrite <- Htemp at 1. by apply del_line_rewrites.
  - apply ins_line_rewrites with (f := f); [done|done|done|done|].
    unfold ins_line_temp.
    replace (S (S (length f))) with (length f + S 1)%nat by lia.
    by rewrite ins_line_loop_zero.
  - apply rep_line_rewrites with (f := f); [done|done|done|done|].
    unfold rep_line_temp.
    replace (S (length f)) with (length f + S 0)%nat by lia.
    by rewrite rep_line_loop_zero.
Qed.

Lemma line_zero_copies_file_witness :
  rewritten {[ "f" := file_ab ]} (state_of (del_line epoch "f" 0 {[ "f" := file_ab ]}))
    "f" file_ab
  ∧ rewritten {[ "f" := file_ab ]}
      (state_of (ins_line epoch 0 "f" (bytes "X") 0 {[ "f" := file_ab ]})) "f" file_ab
  ∧ rewritten {[ "f" := file_ab ]}
      (state_of (rep_line epoch "f" (bytes "X") 0 {[ "f" := file_ab ]}))
      "f" (file_ab ++ [xff]).
Proof.
  apply (line_zero_copies_file epoch 0 {[ "f" := file_ab ]} "f" file_ab (bytes "X")).
  - apply lookup_singleton_eq.
  - done.
  - done.
  - apply (bool_decide_unpack _). by vm_compute.
  - by vm_compute.
Defined.

(** ** [confirm] *)

Lemma empty_buffer_line (t rest : list byte) :
  nl ∉ t → xff ∉ t → empty_buffer (t ++ nl :: rest) = rest.
Proof.
  induction t as [|b t IH]; intros Hnl Hff; [done|].
  apply not_elem_of_cons in Hnl as [? ?]. apply not_elem_of_cons in Hff as [? ?].
  cbn [app empty_buffer].
  rewrite char_of_byte_eof, char_of_byte_nl, !bool_decide_eq_false_2 by done.
  cbn [negb andb]. by apply IH.
Qed.

Lemma confirm_step (fuel : nat) (input : list byte) :
  confirm (S fuel) input
  = match fgets 4 input with
    | None => Some (EndOfInput, input)
    | Some (buf, input') =>
        if negb (length (c_str buf) =? 2)%nat then
          if (2 <? length (c_str buf))%nat
             && negb (Byte.eqb (nth 2 (c_str buf) x00) nl)
          then confirm fuel (empty_buffer input')
          else confirm fuel input'
        else
          match c_str buf with
          | c :: _ =>
              if Byte.eqb c "y" || Byte.eqb c "n"
              then Some (if Byte.eqb c "y" then Yes else No, input')
              else confirm fuel input'
          | [] => confirm fuel input'
          end
    end.
Proof. cbn [confirm]. by destruct (fgets 4 input) as [[buf input']|]. Qed.

(** A line that is not an answer is passed over whole. *)
Lemma confirm_skips_line (fuel : nat) (t rest : list byte) :
  nl ∉ t → x00 ∉ t → xff ∉ t → t ≠ bytes "y" → t ≠ bytes "n" →
  confirm (S fuel) (t ++ nl :: rest) = confirm fuel rest.
Proof.
  intros Hnl Hnul Hff Hy Hn. rewrite confirm_step. unfold fgets.
  destruct (t ++ nl :: rest) eqn:E; [by destruct t|]. rewrite <- E. clear E.
  change (Z.to_nat (4 - 1)) with 3%nat.
  destruct t as [|x [|y [|z t]]].
  - done.
  - apply not_elem_of_cons in Hnl as [Hx _]. apply not_elem_of_cons in Hnul as [Hx0 _].
    cbn [app fgets_read]. rewrite byte_eqb_decide, bool_decide_eq_false_2 by done.
    change (Byte.eqb nl nl) with true. cbv iota. cbn [c_str].
    rewrite byte_eqb_decide, bool_decide_eq_false_2 by done.
    change (c_str [nl]) with [nl]. cbn [length Nat.eqb negb].
    rewrite (byte_eqb_decide x "y"), (byte_eqb_decide x "n").
    rewrite (bool_decide_eq_false_2 (x = "y"%byte)) by (by intros ->).
    by rewrite (bool_decide_eq_false_2 (x = "n"%byte)) by (by intros ->).
  - apply not_elem_of_cons in Hnl as [Hx Hnl]. apply not_elem_of_cons in Hnl as [Hy' _].
    apply not_elem_of_cons in Hnul as [Hx0 Hnul]. apply not_elem_of_cons in Hnul as [Hy0 _].
    cbn [app fgets_read]. rewrite !byte_eqb_decide, !bool_decide_eq_false_2 by done.
    change (bool_decide (nl = nl)) with true. cbv iota. cbn [c_str].
    rewrite !byte_eqb_decide, !bool_decide_eq_false_2 by done.
    change (c_str [nl]) with [nl]. cbn [length Nat.eqb Nat.ltb Nat.leb negb andb nth].
    done.
  - apply not_elem_of_cons in Hnl as [Hx Hnl]. apply not_elem_of_cons in Hnl as [Hy' Hnl].
    apply not_elem_of_cons in Hnl as [Hz Hnl].
    apply not_elem_of_cons in Hnul as [Hx0 Hnul]. apply not_elem_of_cons in Hnul as [Hy0 Hnul].
    apply not_elem_of_cons in Hnul as [Hz0 _].
    apply not_elem_of_cons in Hff as [_ Hff]. apply not_elem_of_cons in Hff as [_ Hff].
    apply not_elem_of_cons in Hff as [_ Hff].
    cbn [app fgets_read]. rewrite !byte_eqb_decide, !bool_decide_eq_false_2 by done.
    cbn [c_str]. rewrite !byte_eqb_decide, !bool_decide_eq_false_2 by done.
    cbn [c_str length Nat.eqb Nat.ltb Nat.leb negb andb nth].
    by rewrite empty_buffer_line.
Qed.

(** X26.  [confirm] passes over every line of the input that is not the
    single letter y or n, and answers with the first line that is: 1 for
    y, 0 for n.  It leaves of the input what follows that line. *)
Theorem confirm_first_answer (fuel : nat) (junk : list (list byte)) (a : byte)
    (rest : list byte) :
  Forall (λ t, (nl ∉ t) ∧ (x00 ∉ t) ∧ (xff ∉ t) ∧ t ≠ bytes "y" ∧ t ≠ bytes "n") junk →
  a = "y"%byte ∨ a = "n"%byte → (length junk < fuel)%nat →
  confirm fuel (text_file junk ++ a :: nl :: rest)
  = Some (if bool_decide (a = "y"%byte) then Yes else No, rest).
Proof.
  intros Hjunk Ha. revert fuel.
  induction Hjunk as [|t junk (Hnl & Hnul & Hff & Hy & Hn) _ IH]; intros fuel Hfuel.
  - destruct fuel as [|fuel]; [cbn [length] in Hfuel; lia|].
    unfold text_file. cbn [map concat app]. by destruct Ha as [-> | ->].
  - destruct fuel as [|fuel]; [lia|]. cbn [length] in Hfuel.
    rewrite text_file_cons, <- app_assoc. cbn [app].
    rewrite confirm_skips_line by done. apply IH. lia.
Qed.

Lemma confirm_first_answer_witness :
  confirm 5 (text_file [bytes "yes"; bytes ""] ++ "n"%byte :: nl :: bytes "y")
  = Some (if bool_decide ("n"%byte = "y"%byte) then Yes else No, bytes "y").
Proof.
  apply (confirm_first_answer 5 [bytes "yes"; bytes ""] "n"%byte (bytes "y")).
  - apply (bool_decide_unpack _). by vm_compute.
  - by right.
  - vm_compute. lia.
Defined.

(** ** Creating, copying and deleting files *)

(** The copy stops at the first byte 0xFF. *)
Lemma copy_loop_all (g : list byte) : xff ∉ g → copy_loop g = g.
Proof.
  induction g as [|b g IH]; intros Hff; [done|].
  apply not_elem_of_cons in Hff as [? ?]. cbn [copy_loop].
  rewrite char_of_byte_eof, bool_decide_eq_false_2 by done. cbn [negb].
  by rewrite uchar_of_char_of_byte, IH.
Qed.

Lemma copy_loop_stops (g h : list byte) : xff ∉ g → copy_loop (g ++ xff :: h) = g.
Proof.
  induction g as [|b g IH]; intros Hff; [done|].
  apply not_elem_of_cons in Hff as [? ?]. cbn [app copy_loop].
  rewrite char_of_byte_eof, bool_decide_eq_false_2 by done. cbn [negb].
  by rewrite uchar_of_char_of_byte, IH.
Qed.

(** X27.  [copy_file] to a destination that may be written gives the
    destination the bytes of the source up to its first byte 0xFF, all
    of them if there is none; no file other than the destination and
    the log is changed. *)
Theorem copy_file_copies (now : tm) (fname_matches : list byte → bool) (σ : fs)
    (fpath1 fpath2 : string) (g tail input rest : list byte) :
  σ !! fpath1 = Some (g ++ tail) → xff ∉ g → (tail = [] ∨ ∃ h, tail = xff :: h) →
  fpath1 ≠ fpath2 → fpath2 ≠ LOGF → fpath2 ≠ TEMPF →
  may_write fname_matches σ fpath2 input rest →
  final (copy_file now fname_matches fpath1 fpath2 input σ) !! fpath2 = Some g
  ∧ ∀ p, p ≠ fpath2 → p ≠ LOGF → p ≠ TEMPF →
         final (copy_file now fname_matches fpath1 fpath2 input σ) !! p = σ !! p.
Proof.
  intros Hsrc Hff Htail Hne H1 H2 Hmay.
  assert (copy_loop (g ++ tail) = g) as Hcopy.
  { destruct Htail as [->|[h ->]].
    - rewrite app_nil_r. by apply copy_loop_all.
    - by apply copy_loop_stops. }
  assert (final (copy_file now fname_matches fpath1 fpath2 input σ)
          = state_of (change_log now
              (snprintf (Z.to_nat LOGLEN)
                 (bytes "File '" ++ fmt_s (bytes fpath1) ++ bytes "' copied to '"
                    ++ fmt_s (bytes fpath2) ++ bytes "' | Lines After = "
                    ++ fmt_lu (count_lines (g ++ tail))))
              (<[fpath2 := g]> σ))) as ->.
  { unfold copy_file, may_write in *.
    unfold mbind at 1, Op_bind at 1, lift at 1, Sys.access.
    destruct (σ !! fpath2) as [f2|] eqn:Hdst.
    - rewrite (bool_decide_eq_true_2 (is_Some (Some f2))) by done.
      unfold mbind at 1, Op_bind at 1. unfold mbind at 1, Op_bind at 1, is_file, lift at 1.
      rewrite Hdst, Hmay. unfold mret at 1, Op_ret at 1.
      unfold mbind at 1, Op_bind at 1, lift at 1, Sys.fopen_r. rewrite Hsrc.
      unfold mbind at 1, Op_bind at 1, lift at 1, Sys.fopen_w.
      rewrite (bool_decide_eq_false_2 (fpath1 = fpath2) Hne).
      unfold mbind at 1, Op_bind at 1, lift at 1, Sys.fclose_w.
      rewrite lookup_insert_eq. cbn [default app]. rewrite insert_insert_eq, Hcopy.
      unfold mbind at 1, Op_bind at 1, lift at 1.
      by destruct (change_log _ _ _).
    - rewrite (bool_decide_eq_false_2 (is_Some None)) by (by intros [? ?]).
      destruct Hmay as [-> ->].
      unfold mbind at 1, Op_bind at 1. unfold mret at 1, Op_ret at 1.
      unfold mbind at 1, Op_bind at 1, lift at 1, Sys.fopen_r. rewrite Hsrc.
      unfold mbind at 1, Op_bind at 1, lift at 1, Sys.fopen_w.
      rewrite (bool_decide_eq_false_2 (fpath1 = fpath2) Hne).
      unfold mbind at 1, Op_bind at 1, lift at 1, Sys.fclose_w.
      rewrite lookup_insert_eq. cbn [default app]. rewrite insert_insert_eq, Hcopy.
      unfold mbind at 1, Op_bind at 1, lift at 1.
      by destruct (change_log _ _ _). }
  split.
  - rewrite change_log_frame by done. apply lookup_insert_eq.
  - intros p Hp1 Hp2 Hp3. rewrite change_log_frame by done. by apply lookup_insert_ne.
Qed.

Lemma copy_file_copies_witness :
  final (copy_file epoch (λ _, true) "a" "b" [] {[ "a" := file_ab ]}) !! "b" = Some file_ab
  ∧ ∀ p, p ≠ "b" → p ≠ LOGF → p ≠ TEMPF →
         final (copy_file epoch (λ _, true) "a" "b" [] {[ "a" := file_ab ]}) !! p
         = ({[ "a" := file_ab ]} : fs) !! p.
Proof.
  apply (copy_file_copies epoch (λ _, true) {[ "a" := file_ab ]} "a" "b" file_ab [] [] []).
  - by rewrite app_nil_r, lookup_singleton_eq.
  - apply (bool_decide_unpack _). by vm_compute.
  - by left.
  - done.
  - done.
  - done.
  - by vm_compute.
Defined.

(** Copied onto itself, a file is left empty: the destination is cut to
    length zero before the loop reads the source. *)
Example copy_file_onto_itself :
  final (copy_file epoch (λ _, true) "a" "a" (bytes "y" ++ [nl]) {[ "a" := file_ab ]}) !! "a"
  = Some [].
Proof. by vm_compute. Qed.

(** X28.  [create_file] on a path that may be written leaves an empty
    file at that path; no file other than that one and the log is
    changed. *)
Theorem create_file_empties (now : tm) (fname_matches : list byte → bool) (σ : fs)
    (fpath : string) (input rest : list byte) :
  fpath ≠ LOGF → fpath ≠ TEMPF →
  may_write fname_matches σ fpath input rest →
  final (create_file now fname_matches fpath input σ) !! fpath = Some []
  ∧ ∀ p, p ≠ fpath → p ≠ LOGF → p ≠ TEMPF →
         final (create_file now fname_matches fpath input σ) !! p = σ !! p.
Proof.
  intros H1 H2 Hmay.
  assert (final (create_file now fname_matches fpath input σ)
          = state_of (change_log now
              (snprintf (Z.to_nat LOGLEN)
                 (bytes "File '" ++ fmt_s (bytes fpath)
                    ++ bytes "' created/overwritten | Lines After = 0"))
              (<[fpath := []]> σ))) as ->.
  { unfold create_file, may_write in *.
    unfold mbind at 1, Op_bind at 1, lift at 1, Sys.access.
    destruct (σ !! fpath) as [f|] eqn:Hdst.
    - rewrite bool_decide_eq_true_2 by done.
      unfold mbind at 1, Op_bind at 1. unfold mbind at 1, Op_bind at 1, is_file, lift at 1.
      rewrite Hdst, Hmay. unfold mret at 1, Op_ret at 1.
      unfold mbind at 1, Op_bind at 1, lift at 1, Sys.fopen_w.
      unfold mbind at 1, Op_bind at 1, lift at 1.
      by destruct (change_log _ _ _).
    - rewrite bool_decide_eq_false_2 by (by intros [? ?]).
      destruct Hmay as [-> ->].
      unfold mbind at 1, Op_bind at 1. unfold mret at 1, Op_ret at 1.
      unfold mbind at 1, Op_bind at 1, lift at 1, Sys.fopen_w.
      unfold mbind at 1, Op_bind at 1, lift at 1.
      by destruct (change_log _ _ _). }
  split.
  - rewrite change_log_frame by done. apply lookup_insert_eq.
  - intros p Hp1 Hp2 Hp3. rewrite change_log_frame by done. by apply lookup_insert_ne.
Qed.

Lemma create_file_empties_witness :
  final (create_file epoch (λ _, true) "f" (bytes "y" ++ [nl]) {[ "f" := file_ab ]}) !! "f"
  = Some []
  ∧ ∀ p, p ≠ "f" → p ≠ LOGF → p ≠ TEMPF →
         final (create_file epoch (λ _, true) "f" (bytes "y" ++ [nl]) {[ "f" := file_ab ]}) !! p
         = ({[ "f" := file_ab ]} : fs) !! p.
Proof.
  apply (create_file_empties epoch (λ _, true) {[ "f" := file_ab ]} "f" (bytes "y" ++ [nl]) []).
  - done.
  - done.
  - by vm_compute.
Defined.

(** ** Line numbers on the command line *)

(** X29.  [parse_num] reads back the line numbers the program prints: for
    every number up to [LONG_MAX], the digits [%lu] prints for it are
    accepted with the limit of 20 characters [main] sets, and the value
    returned is that number. *)
Theorem parse_num_reads_fmt_lu (n : Z) :
  0 ≤ n ≤ LONG_MAX → parse_num (fmt_lu n) 20 = Parsed n.
Proof.
  intros Hn. unfold LONG_MAX in Hn. unfold fmt_lu.
  rewrite size_t_small by (unfold size_t_modulus; lia).
  pose proof (to_uint_digits (Z.to_N n) ltac:(lia)) as Hdigits.
  pose proof (DecimalN.Unsigned.of_to (Z.to_N n)) as Hval. unfold N.of_uint in Hval.
  assert (NilZero.string_of_uint (N.to_uint (Z.to_N n))
          = NilEmpty.string_of_uint (N.to_uint (Z.to_N n))) as ->.
  { destruct (N.to_uint (Z.to_N n)) eqn:E; try done.
    destruct (Z.to_N n); [done|]. cbn in E.
    by pose proof (DecimalPos.Unsigned.to_uint_nonnil p). }
  unfold parse_num. rewrite c_str_id by apply digits_no_nul.
  rewrite is_number_digits. cbn [Z.eqb negb].
  rewrite digits_length, strtol_digits_value, Hval.
  change (size_t 20) with 20.
  destruct (Z.gtb_spec (Z.of_nat (Decimal.nb_digits (N.to_uint (Z.to_N n)))) 20); [lia|].
  destruct (Z.ltb_spec (Z.of_nat (Decimal.nb_digits (N.to_uint (Z.to_N n)))) 1) as [Hz|_].
  { assert (Decimal.nb_digits (N.to_uint (Z.to_N n)) = 0)%nat as H0 by lia.
    apply DecimalFacts.nb_digits_0 in H0. destruct (Z.to_N n); [done|]. cbn in H0.
    by pose proof (DecimalPos.Unsigned.to_uint_nonnil p). }
  rewrite Z2N.id by lia. unfold LONG_MAX.
  destruct (Z.gtb_spec n (2 ^ 63 - 1)); [lia|].
  by rewrite size_t_small by (unfold size_t_modulus; lia).
Qed.

Lemma parse_num_reads_fmt_lu_witness : parse_num (fmt_lu 1024) 20 = Parsed 1024.
Proof. apply (parse_num_reads_fmt_lu 1024). by vm_compute. Defined.

(** ** [del_file] *)

(** X30.  [del_file] on a file that exists removes it and changes no file
    other than that one and the log; on a path that does not exist it
    stops on the failure of [remove], before anything is logged. *)
Theorem del_file_removes (now : tm) (σ : fs) (fpath : string) :
  fpath ≠ LOGF → fpath ≠ TEMPF →
  match σ !! fpath with
  | Some _ =>
      state_of (del_file now fpath σ) !! fpath = None
      ∧ ∀ p, p ≠ fpath → p ≠ LOGF → p ≠ TEMPF →
             state_of (del_file now fpath σ) !! p = σ !! p
  | None => del_file now fpath σ = Exited (Die "remove") σ
  end.
Proof.
  intros H1 H2. unfold del_file. unfold mbind, M_bind, Sys.remove.
  destruct (σ !! fpath) as [f|] eqn:Hf; [|done]. split.
  - rewrite change_log_frame by done. apply lookup_delete_eq.
  - intros p Hp1 Hp2 Hp3. rewrite change_log_frame by done. by apply lookup_delete_ne.
Qed.

Lemma del_file_removes_witness :
  match ({[ "f" := file_ab ]} : fs) !! "f" with
  | Some _ =>
      state_of (del_file epoch "f" {[ "f" := file_ab ]}) !! "f" = None
      ∧ ∀ p, p ≠ "f" → p ≠ LOGF → p ≠ TEMPF →
             state_of (del_file epoch "f" {[ "f" := file_ab ]}) !! p
             = ({[ "f" := file_ab ]} : fs) !! p
  | None => del_file epoch "f" {[ "f" := file_ab ]} = Exited (Die "remove") {[ "f" := file_ab ]}
  end.
Proof. by apply (del_file_removes epoch {[ "f" := file_ab ]} "f"). Defined.

(** ** [display_log] with a path *)

Section LogLines.

(** The scan of [verify_lines] ends at a byte 0xFF as at the end of the
    file. *)
Lemma verify_lines_loop_stops (max_val : Z) (g h : list byte) (st : verify_state) :
  xff ∉ g →
  verify_lines_loop max_val (g ++ xff :: h) st = verify_lines_loop max_val g st.
Proof.
  revert st. induction g as [|b g IH]; intros st Hff; [done|].
  apply not_elem_of_cons in Hff as [Hb Hff]. cbn [app verify_lines_loop].
  rewrite char_of_byte_eof, (bool_decide_eq_false_2 (b = xff)) by done.
  destruct (verify_lines_body max_val (char_of_byte b) st); [|done]. by apply IH.
Qed.

(** A terminated line of a log is one of its lines. *)
Lemma text_file_first_line (t text rest rest' : list byte) :
  nl ∉ t → nl ∉ text → t ++ nl :: rest = text ++ nl :: rest' → t = text ∧ rest = rest'.
Proof.
  revert text. induction t as [|b t IH]; intros [|b' text] Ht Htext E.
  - by injection E as ->.
  - injection E as <- _. exfalso. apply Htext. apply elem_of_cons. by left.
  - injection E as -> _. exfalso. apply Ht. apply elem_of_cons. by left.
  - injection E as <- E. apply not_elem_of_cons in Ht as [_ Ht].
    apply not_elem_of_cons in Htext as [_ Htext].
    by destruct (IH text Ht Htext E) as [-> ->].
Qed.

Lemma text_file_later_line (t pre rest tail : list byte) :
  nl ∉ t → t ++ nl :: rest = pre ++ nl :: tail →
  (pre = t ∧ tail = rest) ∨ ∃ pre', pre = t ++ nl :: pre' ∧ rest = pre' ++ nl :: tail.
Proof.
  revert pre. induction t as [|b t IH]; intros [|b' pre] Ht E.
  - left. by injection E as ->.
  - right. injection E as <- ->. by exists pre.
  - injection E as -> _. exfalso. apply Ht. apply elem_of_cons. by left.
  - injection E as <- E. apply not_elem_of_cons in Ht as [_ Ht].
    destruct (IH pre Ht E) as [[-> ->]|(pre' & -> & ->)]; [by left|right; by exists pre'].
Qed.

Lemma text_file_first (texts : list (list byte)) (last text rest : list byte) :
  Forall (λ t, nl ∉ t) texts → nl ∉ last → nl ∉ text →
  text_file texts ++ last = text ++ nl :: rest → ∃ texts', texts = text :: texts'.
Proof.
  intros Htexts Hlast Htext E. destruct Htexts as [|t texts Ht _].
  - exfalso. apply Hlast. unfold text_file in E. cbn [map concat app] in E. rewrite E.
    apply elem_of_app. right. apply elem_of_cons. by left.
  - rewrite text_file_cons, <- app_assoc in E. cbn [app] in E.
    apply text_file_first_line in E as [-> _]; [by eexists|done|done].
Qed.

Lemma text_file_line (texts : list (list byte)) (last pre text rest : list byte) :
  Forall (λ t, nl ∉ t) texts → nl ∉ last → nl ∉ text →
  text_file texts ++ last = pre ++ nl :: text ++ nl :: rest → text ∈ texts.
Proof.
  intros Htexts Hlast Htext. revert pre.
  induction Htexts as [|t texts Ht Htexts IH]; intros pre E.
  - exfalso. apply Hlast. unfold text_file in E. cbn [map concat app] in E. rewrite E.
    apply elem_of_app. right. apply elem_of_cons. by left.
  - rewrite text_file_cons, <- app_assoc in E. cbn [app] in E.
    apply text_file_later_line in E as [[-> E]|(pre' & -> & E)]; [| |done].
    + symmetry in E. destruct (text_file_first texts last text rest Htexts Hlast Htext E)
        as [texts' ->].
      apply elem_of_cons. right. apply elem_of_cons. by left.
    + apply elem_of_cons. right. by apply (IH pre').
Qed.

Variables (texts : list (list byte)) (last : list byte).
Hypothesis texts_fit : Forall log_text texts.
Hypothesis last_open : nl ∉ last.
Hypothesis last_no_nul : x00 ∉ last.
Hypothesis log_size : Z.of_nat (length (text_file texts ++ last)) < off_t_max.

Lemma log_texts_no_nl : Forall (λ t, nl ∉ t) texts.
Proof. eapply Forall_impl; [exact texts_fit|]. by intros t (? & _). Qed.

Lemma log_no_nul : x00 ∉ text_file texts ++ last.
Proof.
  rewrite elem_of_app. intros [Hin|Hin]; [|done]. revert Hin.
  apply text_file_no; [done|]. eapply Forall_impl; [exact texts_fit|].
  by intros t (_ & ? & _).
Qed.

(** Every part of such a log that holds no byte 0xFF, taken from its
    start, passes the check. *)
Lemma verify_lines_log_prefix (g h : list byte) :
  text_file texts ++ last = g ++ h → xff ∉ g →
  ∃ n, verify_lines g (LOGLEN - 2) = Verified n.
Proof.
  intros E Hff. pose proof log_no_nul as Hnul. rewrite E in Hnul, log_size.
  apply not_elem_of_app in Hnul as [Hnul _]. rewrite length_app in log_size.
  apply verify_lines_loop_accepts;
    [unfold LOGLEN, size_t_modulus; lia|done|done
    |unfold off_t_max, size_t_modulus in *; lia|].
  split; [done|]. split.
  - intros text rest -> Htext. rewrite <- !app_assoc in E. cbn [app] in E.
    destruct (text_file_first texts last text _ log_texts_no_nl last_open Htext E)
      as [texts' ->].
    apply Forall_cons in texts_fit as [(_ & _ & ?) _]. lia.
  - intros pre text rest -> Htext. rewrite <- !app_assoc in E. cbn [app] in E.
    rewrite <- !app_assoc in E. cbn [app] in E.
    pose proof (text_file_line texts last pre text _ log_texts_no_nl last_open Htext E)
      as Hin.
    rewrite Forall_forall in texts_fit. by destruct (texts_fit text Hin) as (_ & _ & ?).
Qed.

(** The log passes the check of [display_log]. *)
Lemma verify_lines_ret_log :
  verify_lines_ret (verify_lines (text_file texts ++ last) (LOGLEN - 2)) ≠ -1.
Proof.
  set (f := text_file texts ++ last) in *.
  assert (∃ g h, f = g ++ h ∧ (xff ∉ g)
                 ∧ verify_lines f (LOGLEN - 2) = verify_lines g (LOGLEN - 2))
    as (g & h & E & Hff & Hv).
  { destruct (decide (xff ∈ f)) as [Hin|Hout].
    - apply list_elem_of_split_l in Hin as (g & h & E & Hff).
      exists g, (xff :: h). split; [done|]. split; [done|].
      rewrite E. by apply verify_lines_loop_stops.
    - exists f, []. by rewrite app_nil_r. }
  destruct (verify_lines_log_prefix g h E Hff) as [n Hn].
  rewrite Hv. apply (verify_lines_ret_accepted g (LOGLEN - 2) n); [done| |done].
  rewrite E, length_app in log_size. lia.
Qed.

End LogLines.

(** Read with the buffer of [display_log], the log splits into its
    lines. *)
Lemma fgets_lines_log (fuel : nat) (texts : list (list byte)) (last : list byte) :
  Forall log_text texts → nl ∉ last → x00 ∉ last →
  Z.of_nat (length last) ≤ LOGLEN - 2 → (length texts + length last < fuel)%nat →
  fgets_lines fuel (LOGLEN - 1) (text_file texts ++ last) = Some (log_lines texts last).
Proof.
  intros Htexts Hnl Hnul Hlast. revert fuel. unfold log_lines.
  induction Htexts as [|t texts (Htnl & Htnul & Htlen) _ IH]; intros fuel Hfuel.
  - unfold text_file. cbn [map concat app].
    destruct last as [|b last]; [by destruct fuel; [cbn [length] in Hfuel; lia|]|].
    destruct fuel as [|[|fuel]]; [cbn [length] in Hfuel; lia..|].
    cbn [fgets_lines]. unfold fgets.
    rewrite fgets_read_unterminated by (done || unfold LOGLEN in *; lia).
    cbn [fgets_lines fgets fmap option_fmap option_map]. by rewrite c_str_id.
  - destruct fuel as [|fuel]; [lia|]. rewrite text_file_cons, <- app_assoc.
    cbn [fgets_lines length map app] in *. unfold fgets.
    destruct (t ++ nl :: text_file texts ++ last) eqn:E; [by destruct t|]. rewrite <- E.
    rewrite fgets_read_line; [|done|unfold LOGLEN in *; lia].
    rewrite IH by lia. cbn [fmap option_fmap option_map]. f_equal. f_equal.
    apply c_str_id. rewrite elem_of_app, elem_of_cons, elem_of_nil. intros [?|[?|?]]; done.
Qed.





(** The log of the witness: the entry about a.txt is printed; the line
    about b.txt, which quotes the marker of a.txt, is not. *)
Example display_log_sample_log :
  display_log (Some "a.txt") {[ LOGF := text_file [removelast entry_a] ++ removelast entry_b ]}
  = Returned [entry_a] {[ LOGF := text_file [removelast entry_a] ++ removelast entry_b ]}.
Proof. by vm_compute. Qed.

(** Left out of the amended claim: a last line without terminator that
    is longer than the buffer.  [verify_lines] checks the length of a
    line where it reads the terminator, so such a line passes, and
    [fgets] delivers it in pieces: here the marker lies across the end
    of the first piece and nothing is printed. *)
Example display_log_long_last_line :
  marker_precedes_first_quote (marker "a.txt") long_last_line
  ∧ display_log (Some "a.txt") {[ LOGF := long_last_line ]}
    = Returned [] {[ LOGF := long_last_line ]}.
Proof.
  split; [apply (bool_decide_unpack _); by vm_compute|]. by vm_compute.
Qed.
